(** * The cooperative event loop of [core/src/trezor/loop.py]

    A shallow embedding of the scheduler: the timed queue, the table of
    tasks paused on I/O, the finalizer table, the [_step] protocol, the
    syscalls [sleep], [wait] and [race], and the two-ended channel [chan].

    Python objects live in a heap indexed by their identity ([id(obj)]);
    the module-level tables [_queue], [_paused] and [_finalizers] are fields
    of the interpreter state.  Every function of the module is a computation
    in a state-and-exception monad: a Python exception leaves the mutations
    made so far in place and carries on to the caller. *)

From Stdlib Require Import ZArith List String Bool Lia.
From stdpp Require Import gmap strings list fin_maps.

Local Open Scope string_scope.
Local Open Scope Z_scope.
Local Open Scope list_scope.

(** ** Values and exceptions *)

(** [id(obj)]: the identity of a heap object. *)
Abbreviation ref := nat.

(** Exception classes.  [GeneratorExit] and [KeyboardInterrupt] derive from
    [BaseException] only; every other one derives from [Exception].
    [StopIteration] is not listed: it is the [Stops] outcome of a resume. *)
Inductive exn : Type :=
| GeneratorExit
| KeyboardInterrupt
| SyscallTimeout
| AssertionError
| AttributeError
| KeyError
| IndexError
| TypeError
| ValueError
| RuntimeError
| RecursionError
| UserError (name : string).

(** [isinstance(e, Exception)] *)
Definition is_Exception (e : exn) : bool :=
  match e with
  | GeneratorExit | KeyboardInterrupt => false
  | _ => true
  end.

Inductive pyval : Type :=
| VNone
| VInt (z : Z)
| VStr (s : string)
| VObj (r : ref)                (* a reference to a heap object *)
| VExc (e : exn)                (* an exception instance *)
| VFunc (qualname : string)     (* a plain function taken from a class *)
| VTimeoutIndicator             (* wait._TIMEOUT_INDICATOR = object() *)
| VDoNotReschedule.             (* wait._DO_NOT_RESCHEDULE = Syscall() *)

#[global] Instance exn_eq_dec : EqDecision exn.
Proof. solve_decision. Defined.

#[global] Instance pyval_eq_dec : EqDecision pyval.
Proof. solve_decision. Defined.

(** [isinstance(value, BaseException)] *)
Definition is_BaseException (value : pyval) : bool :=
  match value with VExc _ => true | _ => false end.

(** [_TIMEOUT_ERROR = SyscallTimeout()], the module-level instance. *)
Definition _TIMEOUT_ERROR : pyval := VExc SyscallTimeout.

(** ** Generators

    A generator body is the tree of what it does between two suspension
    points.  Ordinary task code is pure; the only statements of the module
    that touch the scheduler from inside a generator are the clean-up
    clauses of [wait.__iter__], [race.__iter__], [chan.put] and
    [chan.take], which are the [Do] nodes. *)

Inductive resume : Type :=
| Send (v : pyval)
| Throw (e : exn).

Inductive cleanup : Type :=
| QueueDiscard (self : ref)            (* _queue.discard(self) *)
| PausedDiscard (self : ref)           (* _paused[self.msg_iface].discard(self) *)
| RaceExit (self : ref)                (* self.exit() *)
| PuttersRemove (ch put : ref) (v : pyval)
| TakersRemove (ch take : ref).

Inductive coro : Type :=
| Return (v : pyval)
| Raise (e : exn)
| Yield (y : pyval) (k : resume -> coro)
| Do (op : cleanup) (k : option exn -> coro).

Inductive gen_state : Type :=
| GUnstarted (body : coro)
| GSuspended (k : resume -> coro)
| GRunning
| GFinished.

(** What one run of a generator body ends with. *)
Inductive outcome : Type :=
| Yielded (y : pyval) (k : resume -> coro)
| Returned (v : pyval)
| Raised (e : exn).

(** What [task.send] / [task.throw] give back when no exception other than
    [StopIteration] comes out. *)
Inductive resumed : Type :=
| Yields (v : pyval)
| Stops (v : pyval).          (* StopIteration(v) *)

(** ** Heap objects *)

Record wait_obj : Type := mk_wait {
  msg_iface : Z;
  timeout_us : option Z;
  callback : option ref
}.

Record race_obj : Type := mk_race {
  children : list ref;
  scheduled : list ref;
  finished : bool;
  race_callback : option ref      (* None until [handle] sets the attribute *)
}.

Record chan_obj : Type := mk_chan {
  putters : list (option ref * pyval);
  takers : list ref
}.

Inductive obj : Type :=
| OGen (g : gen_state)
| OSyscall
| OSleep (delay_us : Z)
| OWait (w : wait_obj)
| ORace (r : race_obj)
| OChan (c : chan_obj)
| OPut (ch : ref) (v : pyval) (task : option ref)
| OTake (ch : ref) (task : option ref).

(** [isinstance(o, Syscall)] *)
Definition is_Syscall (o : obj) : bool :=
  match o with
  | OSyscall | OSleep _ | OWait _ | ORace _ | OPut _ _ _ | OTake _ _ => true
  | OGen _ | OChan _ => false
  end.

(** A finalizer is either the bound method [race._finish] of a race object
    or a callable from outside the module, known by its name.  Every call
    [fn(task, value)] that [finalize] makes is recorded in [fin_calls]. *)
Inductive finalizer : Type :=
| FinRace (self : ref)
| FinExt (name : string).

Inductive log_entry : Type :=
| LogDebug (msg : string) (task : ref)
| LogException (e : exn)
| LogError (msg : string) (v : pyval).

(** ** Interpreter state *)

Record state : Type := mk_state {
  queue : list (Z * ref * pyval);      (* _queue: (deadline, task, value) *)
  paused : gmap Z (gset ref);          (* _paused *)
  finalizers : gmap ref finalizer;     (* _finalizers, keyed by id(task) *)
  heap : gmap ref obj;
  clock : Z;                           (* utime.ticks_us() *)
  debug : bool;                        (* __debug__ *)
  logged : list log_entry;             (* output of trezor.log *)
  fin_calls : list (finalizer * ref * pyval);
  after_step_hook : bool;              (* is a hook installed *)
  hook_calls : nat;
  synthetic_events : list (Z * pyval)
}.

Definition set_queue (q : list (Z * ref * pyval)) (st : state) : state :=
  mk_state q (paused st) (finalizers st) (heap st) (clock st) (debug st)
           (logged st) (fin_calls st) (after_step_hook st) (hook_calls st)
           (synthetic_events st).

Definition set_paused (p : gmap Z (gset ref)) (st : state) : state :=
  mk_state (queue st) p (finalizers st) (heap st) (clock st) (debug st)
           (logged st) (fin_calls st) (after_step_hook st) (hook_calls st)
           (synthetic_events st).

Definition set_finalizers (f : gmap ref finalizer) (st : state) : state :=
  mk_state (queue st) (paused st) f (heap st) (clock st) (debug st)
           (logged st) (fin_calls st) (after_step_hook st) (hook_calls st)
           (synthetic_events st).

Definition set_heap (h : gmap ref obj) (st : state) : state :=
  mk_state (queue st) (paused st) (finalizers st) h (clock st) (debug st)
           (logged st) (fin_calls st) (after_step_hook st) (hook_calls st)
           (synthetic_events st).

Definition set_clock (c : Z) (st : state) : state :=
  mk_state (queue st) (paused st) (finalizers st) (heap st) c (debug st)
           (logged st) (fin_calls st) (after_step_hook st) (hook_calls st)
           (synthetic_events st).

Definition set_logged (l : list log_entry) (st : state) : state :=
  mk_state (queue st) (paused st) (finalizers st) (heap st) (clock st) (debug st)
           l (fin_calls st) (after_step_hook st) (hook_calls st)
           (synthetic_events st).

Definition set_fin_calls (l : list (finalizer * ref * pyval)) (st : state) : state :=
  mk_state (queue st) (paused st) (finalizers st) (heap st) (clock st) (debug st)
           (logged st) l (after_step_hook st) (hook_calls st)
           (synthetic_events st).

Definition set_hook_calls (n : nat) (st : state) : state :=
  mk_state (queue st) (paused st) (finalizers st) (heap st) (clock st) (debug st)
           (logged st) (fin_calls st) (after_step_hook st) n
           (synthetic_events st).

Definition set_synthetic_events (l : list (Z * pyval)) (st : state) : state :=
  mk_state (queue st) (paused st) (finalizers st) (heap st) (clock st) (debug st)
           (logged st) (fin_calls st) (after_step_hook st) (hook_calls st) l.

Definition set_obj (r : ref) (o : obj) (st : state) : state :=
  set_heap (<[r := o]> (heap st)) st.

(** The module as imported: empty tables, no hook. *)
Definition initial (dbg : bool) : state :=
  mk_state [] ∅ ∅ ∅ 0 dbg [] [] false 0%nat [].

(** ** The state-and-exception monad *)

Inductive res (A : Type) : Type :=
| Ok (a : A)
| Exc (e : exn).
Arguments Ok {A} a.
Arguments Exc {A} e.

Definition M (A : Type) : Type := state -> res A * state.

Definition ret {A} (a : A) : M A := fun st => (Ok a, st).
Definition raise {A} (e : exn) : M A := fun st => (Exc e, st).
Definition bind {A B} (m : M A) (k : A -> M B) : M B :=
  fun st => match m st with
            | (Ok a, st') => k a st'
            | (Exc e, st') => (Exc e, st')
            end.
Definition get_state : M state := fun st => (Ok st, st).
Definition modify (f : state -> state) : M unit := fun st => (Ok tt, f st).

Declare Scope monad_scope.
Delimit Scope monad_scope with monad.
Notation "x <- m ; k" := (bind m (fun x => k))
  (at level 20, m at level 100, k at level 200, only parsing) : monad_scope.
Notation "m ;; k" := (bind m (fun _ => k))
  (at level 100, k at level 200, right associativity, only parsing) : monad_scope.
Local Open Scope monad_scope.

(** [for x in xs: body(x)] *)
Fixpoint for_each {A} (xs : list A) (body : A -> M unit) : M unit :=
  match xs with
  | [] => ret tt
  | x :: xs' => body x ;; for_each xs' body
  end.

(** [if __debug__: log...] *)
Definition log (e : log_entry) : M unit :=
  fun st => if debug st then (Ok tt, set_logged (logged st ++ [e]) st)
            else (Ok tt, st).

(** [assert cond]: the statement is compiled away when [__debug__] is
    false. *)
Definition assert_ (cond : bool) : M unit :=
  fun st => if debug st && negb cond then (Exc AssertionError, st)
            else (Ok tt, st).

Definition get_obj (r : ref) : M (option obj) :=
  fun st => (Ok (heap st !! r), st).

(** ** External collaborators *)

(** Modelled from the spec: the clock of module [utime], whose code is not
    part of the module: "monotonic microsecond counter with wrap-safe
    difference (ticks_diff) and addition (ticks_add)".  The period is the
    one of MicroPython's tick counters. *)
Module utime.
Definition TICKS_PERIOD : Z := 2 ^ 30.

Definition ticks_us : M Z := fun st => (Ok (clock st), st).

Definition ticks_add (ticks delta : Z) : Z := (ticks + delta) mod TICKS_PERIOD.

Definition ticks_diff (a b : Z) : Z :=
  (a - b + TICKS_PERIOD / 2) mod TICKS_PERIOD - TICKS_PERIOD / 2.
End utime.

(** Modelled from the spec: the timed queue of module [utimeq], whose code
    is not part of the module: "a bounded min-heap keyed by absolute
    deadline, storing (deadline, task, resume_value)", of capacity 64,
    stable for equal deadlines, whose overflow is a fatal error at schedule
    time, and from which [discard] removes a task.  The queue is kept as the
    list of its entries in the order in which [pop] hands them out. *)
Module utimeq.
Definition capacity : nat := 64.       (* _queue = utimeq.utimeq(64) *)

Fixpoint insert (e : Z * ref * pyval) (q : list (Z * ref * pyval))
  : list (Z * ref * pyval) :=
  match q with
  | [] => [e]
  | e' :: q' =>
      if utime.ticks_diff e.1.1 e'.1.1 <? 0 then e :: e' :: q'
      else e' :: insert e q'
  end.

Definition push (deadline : Z) (task : ref) (value : pyval) : M unit :=
  fun st =>
    if (capacity <=? length (queue st))%nat then (Exc IndexError, st)
    else (Ok tt, set_queue (insert (deadline, task, value) (queue st)) st).

Definition discard (task : ref) : M unit :=
  modify (fun st => set_queue (filter (fun e => e.1.2 <> task) (queue st)) st).

(** [_queue.pop(entry)] fills [entry] with the head. *)
Definition pop : M (Z * ref * pyval) :=
  fun st => match queue st with
            | [] => (Exc IndexError, st)
            | e :: q => (Ok e, set_queue q st)
            end.

Definition peektime : M Z :=
  fun st => match queue st with
            | [] => (Exc IndexError, st)
            | e :: _ => (Ok e.1.1, st)
            end.

(** [bool(_queue)] *)
Definition nonempty (st : state) : bool :=
  match queue st with [] => false | _ :: _ => true end.
End utimeq.

(** Modelled from the spec: [io.poll(paused, out_entry, delay)] "returns
    true on an event and writes (interface, value) into out_entry; returns
    false on timeout".  The driver is an oracle: each call consumes one
    [poll], which says how long the call took and what it found. *)
Record poll : Type := mk_poll {
  elapsed : Z;
  message : option (Z * pyval)
}.

Module io.
Definition poll (p : poll) (delay : Z) : M (option (Z * pyval)) :=
  fun st => (Ok (message p), set_clock (utime.ticks_add (clock st) (elapsed p)) st).
End io.

(** ** Scheduling primitives *)

Definition schedule (task : ref) (value : pyval) (deadline : option Z)
           (fin : option finalizer) : M unit :=
  deadline <- match deadline with
              | None => utime.ticks_us
              | Some d => ret d
              end ;
  match fin with
  | Some f => modify (fun st => set_finalizers (<[task := f]> (finalizers st)) st)
  | None => ret tt
  end ;;
  utimeq.push deadline task value.

(** The table after
    [tasks = _paused.get(iface, None)]
    [if tasks is None: tasks = _paused[iface] = set()]
    [tasks.add(task)] *)
Definition paused_with (task : ref) (iface : Z) (st : state) : gmap Z (gset ref) :=
  let tasks := default ∅ (paused st !! iface) in
  <[iface := tasks ∪ {[task]}]> (paused st).

Definition pause (task : ref) (iface : Z) : M unit :=
  modify (fun st => set_paused (paused_with task iface st) st).

(** [_paused[iface].discard(task)] *)
Definition paused_discard (iface : Z) (task : ref) : M unit :=
  fun st => match paused st !! iface with
            | None => (Exc KeyError, st)
            | Some tasks =>
                (Ok tt, set_paused (<[iface := tasks ∖ {[task]}]> (paused st)) st)
            end.

(** [_paused.pop(iface, ())], as the list the [for] loop walks through. *)
Definition paused_pop (iface : Z) : M (list ref) :=
  fun st => match paused st !! iface with
            | None => (Ok [], st)
            | Some tasks => (Ok (elements tasks), set_paused (delete iface (paused st)) st)
            end.

(** A new object gets an identity that no live object has. *)
Definition alloc (o : obj) : M ref :=
  fun st => let r := fresh (dom (heap st)) in (Ok r, set_obj r o st).

(** [list.remove(x)]: drops the first occurrence. *)
Fixpoint remove_first {A} `{EqDecision A} (x : A) (l : list A) : list A :=
  match l with
  | [] => []
  | y :: l' => if decide (x = y) then l' else y :: remove_first x l'
  end.

(** ** Syscalls *)

Module Syscall.
(** [return (yield self)] *)
Definition __iter__ (self : ref) : coro :=
  Yield (VObj self)
        (fun r => match r with Send v => Return v | Throw e => Raise e end).

Definition handle (self task : ref) : M unit := ret tt.
End Syscall.

Module sleep.
Definition handle (self task : ref) : M unit :=
  o <- get_obj self ;
  match o with
  | Some (OSleep delay_us) =>
      now <- utime.ticks_us ;
      let deadline := utime.ticks_add now delay_us in
      schedule task (VInt deadline) (Some deadline) None
  | _ => raise AttributeError
  end.
End sleep.

Module wait.
(** The attributes of the class: those of its body and the methods it
    defines or inherits.  [_TIMEOUT_ERROR] is a global of the module, not
    an attribute of the class. *)
Definition class_attr (name : string) : option pyval :=
  if String.eqb name "_DO_NOT_RESCHEDULE" then Some VDoNotReschedule
  else if String.eqb name "_TIMEOUT_INDICATOR" then Some VTimeoutIndicator
  else if bool_decide (name ∈ ["__init__"; "handle"; "send"; "throw"; "close";
                               "__iter__"; "__await__"])
       then Some (VFunc ("wait." ++ name)%string)
  else None.

(** [wait.<name>] *)
Definition getattr (name : string) : M pyval :=
  match class_attr name with
  | Some v => ret v
  | None => raise AttributeError
  end.

Definition get (self : ref) : M wait_obj :=
  o <- get_obj self ;
  match o with
  | Some (OWait w) => ret w
  | _ => raise AttributeError
  end.

Definition handle (self task : ref) : M unit :=
  w <- get self ;
  pause self (msg_iface w) ;;
  match timeout_us w with
  | Some timeout =>
      now <- utime.ticks_us ;
      let deadline := utime.ticks_add now timeout in
      value <- getattr "_TIMEOUT_ERROR" ;
      schedule self value (Some deadline) None
  | None => ret tt
  end.

(** [_step(self.callback, value)].  With no callback stored the call is
    [_step(None, value)]: [None] has neither [send] nor [throw], [_step]
    catches the [AttributeError] itself, logs it in a debug build, and
    [finalize] finds no finalizer under [id(None)]. *)
Definition step_callback (_step : ref -> pyval -> M unit)
           (callback : option ref) (value : pyval) : M unit :=
  match callback with
  | Some cb => _step cb value
  | None => log (LogException AttributeError)
  end.

Definition send (_step : ref -> pyval -> M unit) (self : ref) (value : pyval)
  : M pyval :=
  w <- get self ;
  assert_ (bool_decide (callback w <> None)) ;;
  indicator <- getattr "_TIMEOUT_INDICATOR" ;
  value <- (if decide (value = indicator) then
              paused_discard (msg_iface w) self ;;
              ret _TIMEOUT_ERROR
            else match timeout_us w with
                 | Some _ => utimeq.discard self ;; ret value
                 | None => ret value
                 end) ;
  step_callback _step (callback w) value ;;
  getattr "_DO_NOT_RESCHEDULE".

Definition throw (_step : ref -> pyval -> M unit) (self : ref) (exception : exn)
  : M pyval :=
  w <- get self ;
  assert_ (bool_decide (callback w <> None)) ;;
  utimeq.discard self ;;
  paused_discard (msg_iface w) self ;;
  step_callback _step (callback w) (VExc exception) ;;
  getattr "_DO_NOT_RESCHEDULE".

Definition close (self : ref) : M unit := ret tt.

(** [try: return (yield self)  except: <discard both>; raise] *)
Definition __iter__ (self : ref) : coro :=
  Yield (VObj self)
        (fun r => match r with
                  | Send v => Return v
                  | Throw e =>
                      Do (QueueDiscard self)
                         (fun r1 => match r1 with
                                    | Some e1 => Raise e1
                                    | None =>
                                        Do (PausedDiscard self)
                                           (fun r2 => match r2 with
                                                      | Some e2 => Raise e2
                                                      | None => Raise e
                                                      end)
                                    end)
                  end).
End wait.

Module race.
Definition get (self : ref) : M race_obj :=
  o <- get_obj self ;
  match o with
  | Some (ORace r) => ret r
  | _ => raise AttributeError
  end.

Definition update (self : ref) (f : race_obj -> race_obj) : M unit :=
  r <- get self ;
  modify (set_obj self (ORace (f r))).

Definition exit (close : ref -> M unit) (self : ref) (except_for : option ref)
  : M unit :=
  r <- get self ;
  for_each (scheduled r)
           (fun task => if decide (Some task = except_for) then ret tt
                        else close task).

Definition _finish (close : ref -> M unit) (self task : ref) (result : pyval)
  : M unit :=
  r <- get self ;
  if finished r then ret tt
  else
    update self (fun r => mk_race (children r) (scheduled r) true (race_callback r)) ;;
    exit close self (Some task) ;;
    r <- get self ;
    match race_callback r with
    | Some cb => schedule cb result None None
    | None => raise AttributeError
    end.

(** [try: return (yield self)  except: self.exit(); raise] *)
Definition __iter__ (self : ref) : coro :=
  Yield (VObj self)
        (fun r => match r with
                  | Send v => Return v
                  | Throw e =>
                      Do (RaceExit self)
                         (fun r1 => match r1 with
                                    | Some e1 => Raise e1
                                    | None => Raise e
                                    end)
                  end).

(** The builtin [iter(child)] on the objects of this module: calling
    [__iter__] makes a new generator that has not started. *)
Definition iter (child : ref) : M ref :=
  o <- get_obj child ;
  match o with
  | Some (OGen _) => ret child
  | Some (OWait _) => alloc (OGen (GUnstarted (wait.__iter__ child)))
  | Some (ORace _) => alloc (OGen (GUnstarted (__iter__ child)))
  | Some (OSyscall | OSleep _ | OPut _ _ _ | OTake _ _) =>
      alloc (OGen (GUnstarted (Syscall.__iter__ child)))
  | Some (OChan _) | None => raise TypeError
  end.

(** [isinstance(child, _type_gen)] *)
Definition is_generator (child : ref) : M bool :=
  o <- get_obj child ;
  ret (match o with Some (OGen _) => true | _ => false end).

Definition handle (self task : ref) : M unit :=
  r <- get self ;
  update self (fun r => mk_race (children r) [] false (Some task)) ;;
  for_each (children r)
           (fun child =>
              g <- is_generator child ;
              child_task <- (if g then ret child else iter child) ;
              schedule child_task VNone None (Some (FinRace self)) ;;
              update self (fun r => mk_race (children r)
                                            (scheduled r ++ [child_task])
                                            (finished r) (race_callback r))).
End race.

Module chan.
Definition get (self : ref) : M chan_obj :=
  o <- get_obj self ;
  match o with
  | Some (OChan c) => ret c
  | _ => raise AttributeError
  end.

Definition set (self : ref) (c : chan_obj) : M unit :=
  modify (set_obj self (OChan c)).

Definition publish (self : ref) (value : pyval) : M unit :=
  c <- get self ;
  match takers c with
  | taker :: rest =>
      set self (mk_chan (putters c) rest) ;;
      schedule taker value None None
  | [] => set self (mk_chan (putters c ++ [(None, value)]) (takers c))
  end.

Definition _schedule_put (self putter : ref) (value : pyval) : M bool :=
  c <- get self ;
  match takers c with
  | taker :: rest =>
      set self (mk_chan (putters c) rest) ;;
      schedule taker value None None ;;
      schedule putter VNone None None ;;
      ret true
  | [] =>
      set self (mk_chan (putters c ++ [(Some putter, value)]) (takers c)) ;;
      ret false
  end.

Definition _schedule_take (self taker : ref) : M unit :=
  c <- get self ;
  match putters c with
  | (putter, value) :: rest =>
      set self (mk_chan rest (takers c)) ;;
      schedule taker value None None ;;
      match putter with
      | Some p => schedule p VNone None None
      | None => ret tt
      end
  | [] => set self (mk_chan (putters c) (takers c ++ [taker]))
  end.

Module Put.
Definition handle (self task : ref) : M unit :=
  o <- get_obj self ;
  match o with
  | Some (OPut ch value _) =>
      modify (set_obj self (OPut ch value (Some task))) ;;
      _ <- _schedule_put ch task value ;
      ret tt
  | _ => raise AttributeError
  end.
End Put.

Module Take.
Definition handle (self task : ref) : M unit :=
  o <- get_obj self ;
  match o with
  | Some (OTake ch _) =>
      modify (set_obj self (OTake ch (Some task))) ;;
      _schedule_take ch task
  | _ => raise AttributeError
  end.
End Take.

(** The [except] clause of [chan.put]:
    [entry = (put.task, value); if entry in self.putters: self.putters.remove(entry)] *)
Definition put_cleanup (self put : ref) (value : pyval) : M unit :=
  o <- get_obj put ;
  match o with
  | Some (OPut _ _ task) =>
      c <- get self ;
      if bool_decide ((task, value) ∈ putters c)
      then set self (mk_chan (remove_first (task, value) (putters c)) (takers c))
      else ret tt
  | _ => raise AttributeError
  end.

(** The [except] clause of [chan.take]:
    [if take.task in self.takers: self.takers.remove(take.task)] *)
Definition take_cleanup (self take : ref) : M unit :=
  o <- get_obj take ;
  match o with
  | Some (OTake _ (Some task)) =>
      c <- get self ;
      if bool_decide (task ∈ takers c)
      then set self (mk_chan (putters c) (remove_first task (takers c)))
      else ret tt
  | Some (OTake _ None) => ret tt
  | _ => raise AttributeError
  end.

(** [put = chan.Put(self, value); try: return (yield put) except: ...; raise] *)
Definition put (self put : ref) (value : pyval) : coro :=
  Yield (VObj put)
        (fun r => match r with
                  | Send v => Return v
                  | Throw e =>
                      Do (PuttersRemove self put value)
                         (fun r1 => match r1 with
                                    | Some e1 => Raise e1
                                    | None => Raise e
                                    end)
                  end).

Definition take (self take : ref) : coro :=
  Yield (VObj take)
        (fun r => match r with
                  | Send v => Return v
                  | Throw e =>
                      Do (TakersRemove self take)
                         (fun r1 => match r1 with
                                    | Some e1 => Raise e1
                                    | None => Raise e
                                    end)
                  end).
End chan.

(** ** Generator objects: [send], [throw] and [close] *)

Module generator.
(** The statements a generator of this module runs against the scheduler. *)
Definition perform (close : ref -> M unit) (op : cleanup) : M unit :=
  match op with
  | QueueDiscard self => utimeq.discard self
  | PausedDiscard self => w <- wait.get self ; paused_discard (msg_iface w) self
  | RaceExit self => race.exit close self None
  | PuttersRemove ch put value => chan.put_cleanup ch put value
  | TakersRemove ch take => chan.take_cleanup ch take
  end.

(** Run a body up to its next suspension point or its end. *)
Fixpoint run_coro (close : ref -> M unit) (c : coro) (st : state)
  : outcome * state :=
  match c with
  | Return v => (Returned v, st)
  | Raise e => (Raised e, st)
  | Yield y k => (Yielded y k, st)
  | Do op k =>
      match perform close op st with
      | (Ok _, st') => run_coro close (k None) st'
      | (Exc e, st') => run_coro close (k (Some e)) st'
      end
  end.

Definition get (self : ref) : M gen_state :=
  o <- get_obj self ;
  match o with
  | Some (OGen g) => ret g
  | _ => raise AttributeError
  end.

(** Resume the frame of [self] with body [c]; the generator is marked as
    executing meanwhile. *)
Definition resume_with (close : ref -> M unit) (self : ref) (c : coro)
  : M resumed :=
  fun st =>
    match run_coro close c (set_obj self (OGen GRunning) st) with
    | (Yielded y k, st') => (Ok (Yields y), set_obj self (OGen (GSuspended k)) st')
    | (Returned v, st') => (Ok (Stops v), set_obj self (OGen GFinished) st')
    | (Raised e, st') => (Exc e, set_obj self (OGen GFinished) st')
    end.

Definition send (close : ref -> M unit) (self : ref) (value : pyval)
  : M resumed :=
  g <- get self ;
  match g with
  | GUnstarted body =>
      if decide (value = VNone) then resume_with close self body
      else raise TypeError
  | GSuspended k => resume_with close self (k (Send value))
  | GRunning => raise ValueError
  | GFinished => ret (Stops VNone)
  end.

Definition throw (close : ref -> M unit) (self : ref) (exception : exn)
  : M resumed :=
  g <- get self ;
  match g with
  | GUnstarted _ => modify (set_obj self (OGen GFinished)) ;; raise exception
  | GSuspended k => resume_with close self (k (Throw exception))
  | GRunning => raise ValueError
  | GFinished => raise exception
  end.

Definition close (close_ : ref -> M unit) (self : ref) : M unit :=
  g <- get self ;
  match g with
  | GUnstarted _ => modify (set_obj self (OGen GFinished))
  | GFinished => ret tt
  | GRunning => raise ValueError
  | GSuspended k =>
      fun st =>
        match run_coro close_ (k (Throw GeneratorExit))
                       (set_obj self (OGen GRunning) st) with
        | (Yielded _ k', st') =>
            (Exc RuntimeError, set_obj self (OGen (GSuspended k')) st')
        | (Returned _, st') => (Ok tt, set_obj self (OGen GFinished) st')
        | (Raised e, st') =>
            (if decide (e = GeneratorExit) then Ok tt else Exc e,
             set_obj self (OGen GFinished) st')
        end
  end.
End generator.

(** ** The scheduler core

    [close] and [_step] call each other through the tasks they drive
    ([race.exit] closes tasks from inside a finalizer, [wait.send] steps its
    callback).  The functions are written once with the recursive calls as
    parameters, and tied together over the depth of the Python call stack:
    running out of depth is Python's [RecursionError]. *)

Module body.
Definition finalize (close : ref -> M unit) (task : ref) (value : pyval)
  : M unit :=
  st <- get_state ;
  match finalizers st !! task with                   (* _finalizers.pop(id(task), None) *)
  | None => ret tt
  | Some fn =>
      modify (fun st => set_finalizers (delete task (finalizers st)) st) ;;
      modify (fun st => set_fin_calls (fin_calls st ++ [(fn, task, value)]) st) ;;
      match fn with                                    (* fn(task, value) *)
      | FinRace self => race._finish close self task value
      | FinExt name => ret tt
      end
  end.

(** [task.close()] *)
Definition task_close (close : ref -> M unit) (task : ref) : M unit :=
  o <- get_obj task ;
  match o with
  | Some (OGen _) => generator.close close task
  | Some (OWait _) => wait.close task
  | _ => raise AttributeError
  end.

(** [task.send(value)] *)
Definition task_send (_step : ref -> pyval -> M unit) (close : ref -> M unit)
           (task : ref) (value : pyval) : M resumed :=
  o <- get_obj task ;
  match o with
  | Some (OGen _) => generator.send close task value
  | Some (OWait _) => y <- wait.send _step task value ; ret (Yields y)
  | _ => raise AttributeError
  end.

(** [task.throw(exception)] *)
Definition task_throw (_step : ref -> pyval -> M unit) (close : ref -> M unit)
           (task : ref) (exception : exn) : M resumed :=
  o <- get_obj task ;
  match o with
  | Some (OGen _) => generator.throw close task exception
  | Some (OWait _) => y <- wait.throw _step task exception ; ret (Yields y)
  | _ => raise AttributeError
  end.

Definition close (close_ : ref -> M unit) (task : ref) : M unit :=
  modify (fun st => set_paused ((fun tasks => tasks ∖ {[task]}) <$> paused st) st) ;;
  utimeq.discard task ;;
  task_close close_ task ;;
  finalize close_ task (VExc GeneratorExit).

(** [result.handle(task)] for a [result] that is a [Syscall]; [None] when
    [result] is no [Syscall]. *)
Definition syscall_handle (result : pyval) (task : ref) : M (option unit) :=
  match result with
  | VDoNotReschedule => Syscall.handle 0%nat task ;; ret (Some tt)
  | VObj r =>
      o <- get_obj r ;
      match o with
      | Some OSyscall => Syscall.handle r task ;; ret (Some tt)
      | Some (OSleep _) => sleep.handle r task ;; ret (Some tt)
      | Some (OWait _) => wait.handle r task ;; ret (Some tt)
      | Some (ORace _) => race.handle r task ;; ret (Some tt)
      | Some (OPut _ _ _) => chan.Put.handle r task ;; ret (Some tt)
      | Some (OTake _ _) => chan.Take.handle r task ;; ret (Some tt)
      | Some (OGen _) | Some (OChan _) | None => ret None
      end
  | _ => ret None
  end.

(** [task.throw(value) if isinstance(value, BaseException) else task.send(value)] *)
Definition resume_task (_step : ref -> pyval -> M unit) (close : ref -> M unit)
           (task : ref) (value : pyval) : M resumed :=
  match value with
  | VExc e => task_throw _step close task e
  | _ => task_send _step close task value
  end.

Definition _step (_step_ : ref -> pyval -> M unit) (close : ref -> M unit)
           (task : ref) (value : pyval) : M unit :=
  fun st =>
    match resume_task _step_ close task value st with
    | (Ok (Stops v), st') =>
        (log (LogDebug "finish: %s" task) ;;
         finalize close task v) st'
    | (Exc e, st') =>
        if is_Exception e then
          (log (LogException e) ;;
           finalize close task (VExc e)) st'
        else (Exc e, st')
    | (Ok (Yields result), st') =>
        (handled <- syscall_handle result task ;
         match handled with
         | Some _ => ret tt
         | None => log (LogError "unknown syscall: %s" result) ;; raise RuntimeError
         end ;;
         st <- get_state ;
         if after_step_hook st
         then modify (fun st => set_hook_calls (S (hook_calls st)) st)
         else ret tt) st'
    end.
End body.

Fixpoint close (depth : nat) (task : ref) : M unit :=
  match depth with
  | O => raise RecursionError
  | S d => body.close (close d) task
  end.

Fixpoint _step (depth : nat) (task : ref) (value : pyval) : M unit :=
  match depth with
  | O => raise RecursionError
  | S d => body._step (_step d) (close d) task value
  end.

Definition finalize (depth : nat) (task : ref) (value : pyval) : M unit :=
  body.finalize (close depth) task value.

(** [bool(_paused)]: a dict is true when it has a key. *)
Definition paused_nonempty (st : state) : bool :=
  bool_decide (paused st <> ∅).

(** One turn of the [while] loop of [run], with the poll it meets. *)
Definition run_turn (depth : nat) (p : poll) : M unit :=
  st <- get_state ;
  delay <- (if utimeq.nonempty st then
              t <- utimeq.peektime ;
              now <- utime.ticks_us ;
              ret (utime.ticks_diff t now)
            else ret 1000000) ;
  (if debug st then
     match synthetic_events st with
     | (iface, event) :: rest =>
         msg_tasks <- paused_pop iface ;
         match msg_tasks with
         | [] => ret tt
         | _ :: _ =>
             modify (set_synthetic_events rest) ;;
             for_each msg_tasks (fun task => _step depth task event)
         end
     | [] => ret tt
     end
   else ret tt) ;;
  msg <- io.poll p delay ;
  match msg with
  | Some (iface, value) =>
      msg_tasks <- paused_pop iface ;
      for_each msg_tasks (fun task => _step depth task value)
  | None =>
      st <- get_state ;
      if utimeq.nonempty st then
        e <- utimeq.pop ;
        _step depth e.1.2 e.2
      else ret tt
  end.

Inductive run_status : Type :=
| Finished         (* the loop test failed: run() returned *)
| Polling.         (* the loop test holds and the driver has not answered yet *)

(** [run()] against the answers [polls] of the driver. *)
Fixpoint run (depth : nat) (polls : list poll) : M run_status :=
  fun st =>
    if utimeq.nonempty st || paused_nonempty st then
      match polls with
      | [] => (Ok Polling, st)
      | p :: polls' => (run_turn depth p ;; run depth polls') st
      end
    else (Ok Finished, st).

Definition clear : M unit :=
  modify (fun st => set_finalizers ∅ (set_paused ∅ (set_queue [] st))).

(** ** Writing tasks

    [yield from inner] / [await inner]: the body of [inner] runs inside the
    awaiting task; its result goes to [k], an exception it lets through goes
    to [h]. *)
Fixpoint yield_from (inner : coro) (k : pyval -> coro) (h : exn -> coro) : coro :=
  match inner with
  | Return v => k v
  | Raise e => h e
  | Yield y kk => Yield y (fun r => yield_from (kk r) k h)
  | Do op kk => Do op (fun r => yield_from (kk r) k h)
  end.

(** [async def task(): await <syscall>], for a syscall whose [__iter__] has
    the body [inner]. *)
Definition awaiting (inner : coro) : coro :=
  yield_from inner (fun _ => Return VNone) Raise.

(** ** Concrete scenarios *)

Module scenario.
(** No driver event: the poll times out. *)
Definition idle (us : Z) : poll := mk_poll us None.

(** A wait object on interface 7 (identity 0) and a task (identity 1)
    that awaits it. *)
Definition waiting (timeout : option Z) : state :=
  set_obj 1%nat (OGen (GUnstarted (awaiting (wait.__iter__ 0%nat))))
    (set_obj 0%nat (OWait (mk_wait 7 timeout None)) (initial true)).

(** The same in a build without assertions ([__debug__] is false). *)
Definition waiting_release : state :=
  set_obj 1%nat (OGen (GUnstarted (awaiting (wait.__iter__ 0%nat))))
    (set_obj 0%nat (OWait (mk_wait 7 None None)) (initial false)).

(** A race object (identity 0) over [children] and a task (identity 1)
    that does [return await race(...)], scheduled with an outside
    finalizer. *)
Definition racing (children : list ref) : state :=
  (schedule 1%nat VNone None (Some (FinExt "on_exit"))
     (set_obj 1%nat (OGen (GUnstarted (yield_from (race.__iter__ 0%nat) Return Raise)))
        (set_obj 0%nat (ORace (mk_race children [] false None)) (initial true)))).2.

(** Task 1 is scheduled with an outside finalizer, is stepped once and
    awaits [wait(7)], and is then closed: every task has left the system. *)
Definition waited_then_closed : state :=
  ((schedule 1%nat VNone None (Some (FinExt "on_exit")) ;;
    run_turn 8 (idle 0) ;;
    close 4 1%nat) (waiting None)).2.

(** A task suspended at a plain [await]: a value sent in is its result, an
    exception thrown in goes through it. *)
Definition suspended : gen_state :=
  GSuspended (fun r => match r with Send v => Return v | Throw e => Raise e end).

(** Task 1, suspended and with an outside finalizer, is scheduled with the
    exception [exc]; task 2, not started yet, is scheduled after it. *)
Definition thrown_into (exc : exn) : state :=
  ((schedule 1%nat (VExc exc) None (Some (FinExt "on_exit")) ;;
    schedule 2%nat VNone None (Some (FinExt "on_exit")))
     (set_obj 2%nat (OGen (GUnstarted (Return (VInt 2))))
        (set_obj 1%nat (OGen suspended) (initial true)))).2.

(** Task 1 awaits [race(child)] (race object 0, child 2) and has been
    stepped once: the race has scheduled its child and holds task 1 as its
    caller. *)
Definition awaiting_race : state :=
  (run_turn 8 (idle 0)
     (set_obj 2%nat (OGen (GUnstarted (Return (VInt 2)))) (racing [2%nat]))).2.

(** A task (identity 1) that has not started, in an otherwise empty system. *)
Definition fresh_task : state :=
  set_obj 1%nat (OGen (GUnstarted (Return VNone))) (initial true).

(** Task 1 awaits [race(child 2, child 3)] (race object 0) and has been
    stepped once: both children are scheduled with [race._finish] as their
    finalizer, none has run yet. *)
Definition racing_pair : state :=
  (run_turn 8 (idle 0)
     (set_obj 3%nat (OGen (GUnstarted (Return (VInt 3))))
        (set_obj 2%nat (OGen (GUnstarted (Return (VInt 2))))
           (racing [2%nat; 3%nat])))).2.
(** A channel (identity 0) on which ["a"] and then ["b"] were published,
    and two tasks, 5 and 6, scheduled in this order, that each do
    [return await ch.take()] (their [Take] syscalls are objects 3 and 4). *)
Definition published_twice : state :=
  ((chan.publish 0%nat (VStr "a") ;; chan.publish 0%nat (VStr "b") ;;
    schedule 5%nat VNone None (Some (FinExt "first")) ;;
    schedule 6%nat VNone None (Some (FinExt "second")))
     (set_obj 6%nat (OGen (GUnstarted (yield_from (chan.take 0%nat 4%nat) Return Raise)))
     (set_obj 5%nat (OGen (GUnstarted (yield_from (chan.take 0%nat 3%nat) Return Raise)))
     (set_obj 4%nat (OTake 0%nat None)
     (set_obj 3%nat (OTake 0%nat None)
     (set_obj 0%nat (OChan (mk_chan [] [])) (initial true))))))).2.
End scenario.

(** ** Channel operations as data *)

Inductive chan_op : Type :=
| Publish (value : pyval)                    (* ch.publish(value) *)
| Put (putter : ref) (value : pyval)         (* ch._schedule_put(putter, value) *)
| Take (taker : ref)                         (* ch._schedule_take(taker) *)
| CancelPut (put : ref) (value : pyval)      (* the except clause of ch.put *)
| CancelTake (take : ref).                   (* the except clause of ch.take *)

Definition chan_apply (ch : ref) (op : chan_op) : M unit :=
  match op with
  | Publish value => chan.publish ch value
  | Put putter value => _ <- chan._schedule_put ch putter value ; ret tt
  | Take taker => chan._schedule_take ch taker
  | CancelPut put value => chan.put_cleanup ch put value
  | CancelTake take => chan.take_cleanup ch take
  end.

(** The operations one after the other; an exception of one of them (a full
    timed queue) goes to its caller and the next one still finds the state
    it left. *)
Definition chan_run (ch : ref) (ops : list chan_op) (st : state) : state :=
  foldl (fun st op => (chan_apply ch op st).2) st ops.

(** At most one of the two queues is non-empty. *)
Definition chan_inv (c : chan_obj) : Prop :=
  putters c = [] \/ takers c = [].

(** Computations that leave the heap alone. *)
Definition heap_neutral {A} (m : M A) : Prop :=
  forall st, heap (m st).2 = heap st.

(** ** What tearing tasks down may change

    [close] and [finalize] run code of arbitrary tasks: clean-up clauses,
    finalizers of races, closes of their children.  The relation [teardown]
    bounds what all of it can do to the state. *)

(** Objects keep their kind; a generator that is executing or has finished
    stays so; a race keeps its attributes and never becomes unfinished. *)
Definition obj_evolves (o o' : option obj) : Prop :=
  match o with
  | Some (OGen GRunning) => o' = Some (OGen GRunning)
  | Some (OGen GFinished) => o' = Some (OGen GFinished)
  | Some (OGen _) => exists g', o' = Some (OGen g')
  | Some (ORace r) =>
      exists r', o' = Some (ORace r') /\
                 children r' = children r /\
                 scheduled r' = scheduled r /\
                 race_callback r' = race_callback r /\
                 (finished r = true -> finished r' = true)
  | Some (OChan _) => exists c', o' = Some (OChan c')
  | _ => o' = o
  end.

Definition heap_evolves (st st' : state) : Prop :=
  forall x, obj_evolves (heap st !! x) (heap st' !! x).

(** The paused table keeps its keys, and no set gains a task. *)
Definition paused_shrinks (st st' : state) : Prop :=
  forall iface,
    match paused st !! iface with
    | Some tasks => exists tasks', paused st' !! iface = Some tasks' /\ tasks' ⊆ tasks
    | None => paused st' !! iface = None
    end.

(** [x] is the caller of a race that has not finished. *)
Definition awaits_race (st : state) (x : ref) : Prop :=
  exists r ro, heap st !! r = Some (ORace ro) /\
               finished ro = false /\ race_callback ro = Some x.

(** The entries of the timed queue for task [x]. *)
Definition entries_of (x : ref) (q : list (Z * ref * pyval)) : list (Z * ref * pyval) :=
  filter (fun e => e.1.2 = x) q.

(** Only the caller of an unfinished race gets a new entry in the queue. *)
Definition queue_shrinks (st st' : state) : Prop :=
  forall x, ~ awaits_race st x ->
            entries_of x (queue st') `sublist_of` entries_of x (queue st).

(** Finalizers are only removed; the calls recorded meanwhile are, one
    each, those of the finalizers removed. *)
Definition finalizers_shrink (ok : ref -> pyval -> Prop) (st st' : state) : Prop :=
  (forall t f, finalizers st' !! t = Some f -> finalizers st !! t = Some f) /\
  exists new,
    fin_calls st' = fin_calls st ++ new /\
    NoDup ((fun c => c.1.2) <$> new) /\
    (forall f t v, (f, t, v) ∈ new ->
                   finalizers st !! t = Some f /\
                   finalizers st' !! t = None /\ ok t v) /\
    (forall t f, finalizers st !! t = Some f ->
                 finalizers st' !! t = None ->
                 exists v, (f, t, v) ∈ new).

Definition teardown (ok : ref -> pyval -> Prop) (st st' : state) : Prop :=
  heap_evolves st st' /\
  paused_shrinks st st' /\
  queue_shrinks st st' /\
  finalizers_shrink ok st st' /\
  clock st' = clock st.

(** The value a finalizer gets from [close]. *)
Definition cancelled (_ : ref) (v : pyval) : Prop := v = VExc GeneratorExit.

(** The values finalizers get while [finalize(task, value)] runs. *)
Definition finalized_with (task : ref) (value : pyval) (t : ref) (v : pyval) : Prop :=
  v = VExc GeneratorExit \/ (t = task /\ v = value).

Create HintDb teardown.

(** Splits a [teardown] goal into its five parts and closes those about
    fields that the step does not touch. *)
Ltac teardown_parts :=
  split; [|split; [|split; [|split]]];
  try (auto with teardown; fail); try reflexivity.

(** ** How a task leaves the system *)

Inductive leave : Type :=
| Terminated (task : ref) (value : pyval)   (* _step: finalize(task, e.value) *)
| Faulted (task : ref) (e : exn)            (* _step: finalize(task, e) *)
| Closed (task : ref).                      (* close(task) *)

Definition leave_op (depth : nat) (ev : leave) : M unit :=
  match ev with
  | Terminated task value => finalize depth task value
  | Faulted task e => finalize depth task (VExc e)
  | Closed task => close depth task
  end.

(** The events one after the other, each on the state the previous one
    left, whether it returned or raised. *)
Definition leave_all (depth : nat) (evs : list leave) (st : state) : state :=
  foldl (fun st ev => (leave_op depth ev st).2) st evs.

(** The recorded calls of finalizers for task [t]. *)
Definition calls_to (t : ref) (calls : list (finalizer * ref * pyval))
  : list (finalizer * ref * pyval) :=
  filter (fun c => c.1.2 = t) calls.

(** [close] on a quiet task runs no code against the scheduler: a generator
    that has not started or has finished, a generator suspended where
    [GeneratorExit] leads straight out, or a wait object. *)
Definition quiet (st : state) (t : ref) : Prop :=
  match heap st !! t with
  | Some (OGen (GUnstarted _)) | Some (OGen GFinished) | Some (OWait _) => True
  | Some (OGen (GSuspended k)) =>
      match k (Throw GeneratorExit) with
      | Raise GeneratorExit | Return _ => True
      | _ => False
      end
  | _ => False
  end.

(** What [close], once it has returned for [c], leaves of [c]. *)
Definition closed (st : state) (c : ref) : Prop :=
  finalizers st !! c = None /\
  (forall iface tasks, paused st !! iface = Some tasks -> c ∉ tasks) /\
  (forall g, heap st !! c = Some (OGen g) -> g = GFinished).

(** A finalizer whose call cannot fail: an outside one, or [_finish] of a
    race that has finished. *)
Definition benign (st : state) (c : ref) : Prop :=
  match finalizers st !! c with
  | None | Some (FinExt _) => True
  | Some (FinRace r) =>
      exists ro, heap st !! r = Some (ORace ro) /\ finished ro = true
  end.

(** The loop of [race.exit]. *)
Definition exit_loop (depth : nat) (except_for : option ref) (tasks : list ref)
  : M unit :=
  for_each tasks (fun task => if decide (Some task = except_for) then ret tt
                              else close depth task).

(** ** Parts of the state a computation leaves alone *)

(** The computation [m] leaves the part [f] of the state as it found it,
    whether it returns or raises. *)
Definition keeps {T A} (f : state -> T) (m : M A) : Prop :=
  forall st, f (m st).2 = f st.

(** The computation [m] never ends with the exception [e]. *)
Definition never_raises {A} (e : exn) (m : M A) : Prop :=
  forall st, (m st).1 <> Exc e.

(** ** What a task hands to [_step] *)

(** [isinstance(result, Syscall)] on a value a task has yielded. *)
Definition yields_syscall (st : state) (result : pyval) : bool :=
  match result with
  | VDoNotReschedule => true
  | VObj r => match heap st !! r with
              | Some o => is_Syscall o
              | None => false
              end
  | _ => false
  end.

(** [if after_step_hook: after_step_hook()] *)
Definition call_hook (st : state) : state :=
  if after_step_hook st then set_hook_calls (S (hook_calls st)) st else st.

(** The generator of a body [c] once it has run up to its first [yield]. *)
Definition at_first_yield (c : coro) : gen_state :=
  match c with
  | Yield _ k => GSuspended k
  | _ => GFinished
  end.

(** [loop.after_step_hook = fn]: a hook is installed. *)
Definition install_hook (st : state) : state :=
  mk_state (queue st) (paused st) (finalizers st) (heap st) (clock st) (debug st)
           (logged st) (fin_calls st) true (hook_calls st) (synthetic_events st).

(** ** The children of a race *)

(** What [race.handle] accepts as a child: a generator, or an object with
    an [__iter__] method. *)
Definition awaitable (st : state) (child : ref) : Prop :=
  match heap st !! child with
  | Some (OChan _) | None => False
  | Some _ => True
  end.

(** [child_task] is the task [race.handle] runs for [child]: the child
    itself when it is a generator; otherwise a generator that did not exist
    in [st] and that, in [st'], is about to run [child.__iter__()]. *)
Definition wraps (st st' : state) (child child_task : ref) : Prop :=
  match heap st !! child with
  | Some (OGen _) => child_task = child
  | Some (OWait _) =>
      heap st !! child_task = None /\
      heap st' !! child_task = Some (OGen (GUnstarted (wait.__iter__ child)))
  | Some (ORace _) =>
      heap st !! child_task = None /\
      heap st' !! child_task = Some (OGen (GUnstarted (race.__iter__ child)))
  | Some (OSyscall | OSleep _ | OPut _ _ _ | OTake _ _) =>
      heap st !! child_task = None /\
      heap st' !! child_task = Some (OGen (GUnstarted (Syscall.__iter__ child)))
  | Some (OChan _) | None => False
  end.

(** The loop body of [race.handle]. *)
Definition handle_child (self child : ref) : M unit :=
  g <- race.is_generator child ;
  child_task <- (if g then ret child else race.iter child) ;
  schedule child_task VNone None (Some (FinRace self)) ;;
  race.update self (fun r => mk_race (children r) (scheduled r ++ [child_task])
                                     (finished r) (race_callback r)).

(** ** Who is paused *)

(** Every task in the paused table is a wait object. *)
Definition only_waits_paused (st : state) : Prop :=
  forall iface tasks t,
    paused st !! iface = Some tasks -> t ∈ tasks ->
    exists w, heap st !! t = Some (OWait w).

(** Wait objects stay as they are, and whatever has joined a paused set is
    a wait object. *)
Definition pauses_waits (st st' : state) : Prop :=
  (forall x w, heap st !! x = Some (OWait w) -> heap st' !! x = Some (OWait w)) /\
  (forall iface tasks' t,
      paused st' !! iface = Some tasks' -> t ∈ tasks' ->
      (exists tasks, paused st !! iface = Some tasks /\ t ∈ tasks) \/
      (exists w, heap st' !! t = Some (OWait w))).

(** * Properties *)

(** ** Basic facts *)

Lemma bind_ok {A B} (m : M A) (k : A -> M B) st a st' :
  m st = (Ok a, st') -> bind m k st = k a st'.
Proof. intros H. unfold bind. now rewrite H. Qed.

Lemma bind_exc {A B} (m : M A) (k : A -> M B) st e st' :
  m st = (Exc e, st') -> bind m k st = (Exc e, st').
Proof. intros H. unfold bind. now rewrite H. Qed.

Lemma wait_get_ok st self w :
  heap st !! self = Some (OWait w) -> wait.get self st = (Ok w, st).
Proof. intros H. unfold wait.get, get_obj, bind. now rewrite H. Qed.

Lemma race_get_ok st self r :
  heap st !! self = Some (ORace r) -> race.get self st = (Ok r, st).
Proof. intros H. unfold race.get, get_obj, bind. now rewrite H. Qed.

Lemma chan_get_ok st self c :
  heap st !! self = Some (OChan c) -> chan.get self st = (Ok c, st).
Proof. intros H. unfold chan.get, get_obj, bind. now rewrite H. Qed.

Lemma finalize_unregistered depth task value st :
  finalizers st !! task = None -> finalize depth task value st = (Ok tt, st).
Proof.
  intros H. unfold finalize, body.finalize, bind, get_state. now rewrite H.
Qed.

Lemma finalize_external depth task value st name :
  finalizers st !! task = Some (FinExt name) ->
  finalize depth task value st
  = (Ok tt, set_fin_calls (fin_calls st ++ [(FinExt name, task, value)])
                          (set_finalizers (delete task (finalizers st)) st)).
Proof.
  intros H. unfold finalize, body.finalize, bind, get_state. now rewrite H.
Qed.

(** ** [wait] *)

Lemma wait_handle_heap st self task :
  heap (wait.handle self task st).2 = heap st.
Proof.
  unfold wait.handle, wait.get, get_obj, bind; simpl.
  destruct (heap st !! self) as [[]|]; simpl; try reflexivity.
  destruct (timeout_us w); reflexivity.
Qed.

(** C1: a [wait] with a timeout never gets its timer.  [handle] pauses
    the wait object on its interface and then fails on
    [wait._TIMEOUT_ERROR], which the class does not have.  The
    [AttributeError] is raised in the [else] branch of [_step], which has no
    handler there: it leaves [_step] (and with it [run]) whenever a task
    yields such a wait object.  The wait object is then in the paused set of
    its interface, the timed queue is as it was, and nobody has been
    scheduled with a [SyscallTimeout]. *)
Theorem wait_handle_timeout_raises (st : state) (self task : ref)
        (w : wait_obj) (timeout : Z) :
  heap st !! self = Some (OWait w) ->
  timeout_us w = Some timeout ->
  let st' := set_paused (paused_with self (msg_iface w) st) st in
  wait.handle self task st = (Exc AttributeError, st') /\
  (forall depth value st0,
      body.resume_task (_step depth) (close depth) task value st0
      = (Ok (Yields (VObj self)), st) ->
      _step (S depth) task value st0 = (Exc AttributeError, st')) /\
  (exists tasks, paused st' !! msg_iface w = Some tasks /\ self ∈ tasks) /\
  queue st' = queue st.
Proof.
  intros Hw Ht st'.
  assert (Hh : wait.handle self task st = (Exc AttributeError, st')).
  { unfold wait.handle.
    rewrite (bind_ok _ _ _ _ _ (wait_get_ok _ _ _ Hw)).
    rewrite Ht. reflexivity. }
  split; [exact Hh|]. split; [|split; [|reflexivity]].
  - intros depth value st0 Hres. cbn [_step]. unfold body._step. rewrite Hres.
    unfold body.syscall_handle, get_obj, bind at 1 2 3. rewrite Hw.
    unfold bind. now rewrite Hh.
  - eexists. split; [apply lookup_insert_eq|].
    apply elem_of_union_r. now apply elem_of_singleton.
Qed.

(** C2: [handle] never writes the [callback] attribute: the heap is the
    same after it as before.  A wait object made by [wait(...)] has
    [callback = None], so once it is resumed the calling task is not
    stepped, in either build.  In a debug build [send] and [throw] stop at
    their assertion, whatever [_step] is, and [_step] of the wait object
    (what [run] does on an event or on the timeout) only logs the
    [AssertionError].  In a build without assertions [send] and [throw]
    go on to [_step(None, value)], which steps nothing, and return
    [_DO_NOT_RESCHEDULE]: [_step] of the wait object returns with the heap,
    the log and the finalizers as they were. *)
Theorem wait_handle_leaves_callback_unset (st : state) (self task : ref)
        (w : wait_obj) :
  heap st !! self = Some (OWait w) ->
  callback w = None ->
  let st' := (wait.handle self task st).2 in
  heap st' !! self = Some (OWait w) /\
  (debug st = true ->
   (forall _step value,
       wait.send _step self value st' = (Exc AssertionError, st')) /\
   (forall _step exception,
       wait.throw _step self exception st' = (Exc AssertionError, st')) /\
   (forall depth value,
       finalizers st' !! self = None ->
       _step (S depth) self value st'
       = (Ok tt, set_logged (logged st' ++ [LogException AssertionError]) st'))) /\
  (debug st = false ->
   (forall _step value,
       (wait.send _step self value st').1 = Ok VDoNotReschedule) /\
   (forall _step exception,
       (wait.throw _step self exception st').1 = Ok VDoNotReschedule) /\
   (forall depth value,
       let r := _step (S depth) self value st' in
       r.1 = Ok tt /\
       heap r.2 = heap st' /\
       logged r.2 = logged st' /\
       finalizers r.2 = finalizers st' /\
       fin_calls r.2 = fin_calls st' /\
       hook_calls r.2 = hook_calls (call_hook st'))).
Proof.
  intros Hw Hc st'.
  assert (Est : st' = set_paused (paused_with self (msg_iface w) st) st).
  { unfold st', wait.handle.
    rewrite (bind_ok _ _ _ _ _ (wait_get_ok _ _ _ Hw)).
    unfold bind, pause, modify. cbn.
    destruct (timeout_us w); reflexivity. }
  assert (Hh : heap st' !! self = Some (OWait w)) by now rewrite Est.
  assert (Hd : debug st' = debug st) by now rewrite Est.
  assert (Hp : exists tasks, paused st' !! msg_iface w = Some tasks).
  { rewrite Est. eexists. apply lookup_insert_eq. }
  clearbody st'. clear Est.
  split; [exact Hh|]. split.
  - intros Hdebug. rewrite <- Hd in Hdebug.
    assert (Hsend : forall _step value,
               wait.send _step self value st' = (Exc AssertionError, st')).
    { intros. unfold wait.send.
      rewrite (bind_ok _ _ _ _ _ (wait_get_ok _ _ _ Hh)).
      unfold bind at 1. unfold assert_. now rewrite Hc, Hdebug. }
    assert (Hthrow : forall _step exception,
               wait.throw _step self exception st' = (Exc AssertionError, st')).
    { intros. unfold wait.throw.
      rewrite (bind_ok _ _ _ _ _ (wait_get_ok _ _ _ Hh)).
      unfold bind at 1. unfold assert_. now rewrite Hc, Hdebug. }
    split; [exact Hsend|]. split; [exact Hthrow|].
    intros depth value Hfin. cbn [_step]. unfold body._step.
    assert (Hres : body.resume_task (_step depth) (close depth) self value st'
                   = (Exc AssertionError, st')).
    { unfold body.resume_task, body.task_throw, body.task_send, get_obj.
      destruct value; unfold bind at 1; rewrite Hh; unfold bind;
        rewrite ?Hsend, ?Hthrow; reflexivity. }
    rewrite Hres. cbn [is_Exception].
    change (body.finalize (close depth)) with (finalize depth).
    unfold bind, log. rewrite Hdebug.
    rewrite finalize_unregistered; [reflexivity|exact Hfin].
  - intros Hdebug. rewrite <- Hd in Hdebug. destruct Hp as [tasks Hp].
    assert (Hsend : forall _step value,
               exists st1,
                 wait.send _step self value st' = (Ok VDoNotReschedule, st1) /\
                 heap st1 = heap st' /\ logged st1 = logged st' /\
                 finalizers st1 = finalizers st' /\
                 fin_calls st1 = fin_calls st' /\
                 after_step_hook st1 = after_step_hook st' /\
                 hook_calls st1 = hook_calls st').
    { intros. unfold wait.send.
      rewrite (bind_ok _ _ _ _ _ (wait_get_ok _ _ _ Hh)).
      unfold bind, assert_, wait.step_callback, log, paused_discard,
        utimeq.discard, modify, ret, wait.getattr.
      rewrite Hc, Hdebug. cbn.
      destruct (decide (value = VTimeoutIndicator)).
      - rewrite Hp. cbn. rewrite Hdebug. eexists. split; [reflexivity|].
        repeat split; reflexivity.
      - destruct (timeout_us w); cbn; rewrite Hdebug; eexists;
          (split; [reflexivity|]); repeat split; reflexivity. }
    assert (Hthrow : forall _step exception,
               exists st1,
                 wait.throw _step self exception st' = (Ok VDoNotReschedule, st1) /\
                 heap st1 = heap st' /\ logged st1 = logged st' /\
                 finalizers st1 = finalizers st' /\
                 fin_calls st1 = fin_calls st' /\
                 after_step_hook st1 = after_step_hook st' /\
                 hook_calls st1 = hook_calls st').
    { intros. unfold wait.throw.
      rewrite (bind_ok _ _ _ _ _ (wait_get_ok _ _ _ Hh)).
      unfold bind, assert_, wait.step_callback, log, paused_discard,
        utimeq.discard, modify, ret, wait.getattr.
      rewrite Hc, Hdebug. cbn. rewrite Hp. cbn. rewrite Hdebug.
      eexists. split; [reflexivity|]. repeat split; reflexivity. }
    split; [|split].
    + intros stp value. destruct (Hsend stp value) as (st1 & E & _).
      now rewrite E.
    + intros stp e. destruct (Hthrow stp e) as (st1 & E & _). now rewrite E.
    + intros depth value.
      assert (Hres : exists st1,
                 body.resume_task (_step depth) (close depth) self value st'
                 = (Ok (Yields VDoNotReschedule), st1) /\
                 heap st1 = heap st' /\ logged st1 = logged st' /\
                 finalizers st1 = finalizers st' /\
                 fin_calls st1 = fin_calls st' /\
                 after_step_hook st1 = after_step_hook st' /\
                 hook_calls st1 = hook_calls st').
      { assert (Hs : forall v, exists st1,
                   body.task_send (_step depth) (close depth) self v st'
                   = (Ok (Yields VDoNotReschedule), st1) /\
                   heap st1 = heap st' /\ logged st1 = logged st' /\
                   finalizers st1 = finalizers st' /\
                   fin_calls st1 = fin_calls st' /\
                   after_step_hook st1 = after_step_hook st' /\
                   hook_calls st1 = hook_calls st').
        { intros v. destruct (Hsend (_step depth) v) as (st1 & E & H).
          exists st1. split; [|exact H].
          unfold body.task_send, get_obj. unfold bind at 1. rewrite Hh.
          unfold bind. now rewrite E. }
        destruct value; try apply Hs.
        destruct (Hthrow (_step depth) e) as (st1 & E & H).
        exists st1. split; [|exact H].
        unfold body.resume_task, body.task_throw, get_obj. unfold bind at 1.
        rewrite Hh. unfold bind. now rewrite E. }
      destruct Hres as (st1 & E & H1 & H2 & H3 & H4 & H5 & H6).
      cbn [_step]. unfold body._step. rewrite E.
      unfold body.syscall_handle, Syscall.handle, bind, ret, get_state, modify,
        call_hook.
      rewrite H5. destruct (after_step_hook st'); cbn;
        rewrite ?H6; repeat split; assumption.
Qed.

Lemma wait_handle_timeout_raises_witness :
  let st := scenario.waiting (Some 500) in
  let w := mk_wait 7 (Some 500) None in
  heap st !! 0%nat = Some (OWait w) /\
  timeout_us w = Some 500 /\
  let st' := set_paused (paused_with 0%nat (msg_iface w) st) st in
  wait.handle 0%nat 1%nat st = (Exc AttributeError, st') /\
  (forall depth value st0,
      body.resume_task (_step depth) (close depth) 1%nat value st0
      = (Ok (Yields (VObj 0%nat)), st) ->
      _step (S depth) 1%nat value st0 = (Exc AttributeError, st')) /\
  (exists tasks, paused st' !! msg_iface w = Some tasks /\ 0%nat ∈ tasks) /\
  queue st' = queue st.
Proof.
  intros st w. split; [reflexivity|]. split; [reflexivity|].
  apply (wait_handle_timeout_raises st 0%nat 1%nat w 500); reflexivity.
Defined.

(** Scenario "wait with timeout fires": task 1 is scheduled and awaits
    [wait(7, 500)], and the driver stays silent.  [run] dies of the
    [AttributeError] on its first turn; the task gets no [SyscallTimeout] and
    is never finalized, the timed queue holds no timer and the wait object
    stays in the paused set of interface 7. *)
Example wait_timeout_scenario :
  let r := (schedule 1%nat VNone None (Some (FinExt "on_exit")) ;;
            run 8 [scenario.idle 0; scenario.idle 500])
             (scenario.waiting (Some 500)) in
  r.1 = Exc AttributeError /\
  queue r.2 = [] /\
  paused r.2 = {[ 7 := {[ 0%nat ]} ]} /\
  finalizers r.2 !! 1%nat = Some (FinExt "on_exit") /\
  fin_calls r.2 = [].
Proof. vm_compute. repeat split; reflexivity. Qed.

Lemma wait_handle_leaves_callback_unset_witness :
  let st := scenario.waiting None in
  let w := mk_wait 7 None None in
  heap st !! 0%nat = Some (OWait w) /\
  callback w = None /\
  let st' := (wait.handle 0%nat 1%nat st).2 in
  heap st' !! 0%nat = Some (OWait w) /\
  (debug st = true ->
   (forall _step value,
       wait.send _step 0%nat value st' = (Exc AssertionError, st')) /\
   (forall _step exception,
       wait.throw _step 0%nat exception st' = (Exc AssertionError, st')) /\
   (forall depth value,
       finalizers st' !! 0%nat = None ->
       _step (S depth) 0%nat value st'
       = (Ok tt, set_logged (logged st' ++ [LogException AssertionError]) st'))) /\
  (debug st = false ->
   (forall _step value,
       (wait.send _step 0%nat value st').1 = Ok VDoNotReschedule) /\
   (forall _step exception,
       (wait.throw _step 0%nat exception st').1 = Ok VDoNotReschedule) /\
   (forall depth value,
       let r := _step (S depth) 0%nat value st' in
       r.1 = Ok tt /\
       heap r.2 = heap st' /\
       logged r.2 = logged st' /\
       finalizers r.2 = finalizers st' /\
       fin_calls r.2 = fin_calls st' /\
       hook_calls r.2 = hook_calls (call_hook st'))).
Proof.
  intros st w. split; [reflexivity|]. split; [reflexivity|].
  apply (wait_handle_leaves_callback_unset st 0%nat 1%nat w); reflexivity.
Defined.

(** Scenario "wait satisfied": task 1 awaits [wait(7)], the driver fires
    interface 7.  The wait object is resumed, its assertion fails, [_step]
    logs the [AssertionError]; the task is neither resumed nor finalized,
    and [run] returns with the task still suspended. *)
Example wait_event_scenario :
  let r := (schedule 1%nat VNone None (Some (FinExt "on_exit")) ;;
            run 8 [scenario.idle 0; mk_poll 100 (Some (7, VStr "evt")); scenario.idle 1])
             (scenario.waiting None) in
  r.1 = Ok Finished /\
  logged r.2 = [LogException AssertionError] /\
  finalizers r.2 !! 1%nat = Some (FinExt "on_exit") /\
  fin_calls r.2 = [] /\
  (exists k, heap r.2 !! 1%nat = Some (OGen (GSuspended k))).
Proof.
  vm_compute. repeat split; try reflexivity. eexists. reflexivity.
Qed.

(** The same scenario in a build without assertions.  The wait object is
    resumed and returns [_DO_NOT_RESCHEDULE] after [_step(None, event)];
    nothing is logged, the task is neither resumed nor finalized, and [run]
    returns with the task still suspended. *)
Example wait_event_scenario_release :
  let r := (schedule 1%nat VNone None (Some (FinExt "on_exit")) ;;
            run 8 [scenario.idle 0; mk_poll 100 (Some (7, VStr "evt")); scenario.idle 1])
             scenario.waiting_release in
  r.1 = Ok Finished /\
  logged r.2 = [] /\
  finalizers r.2 !! 1%nat = Some (FinExt "on_exit") /\
  fin_calls r.2 = [] /\
  (exists k, heap r.2 !! 1%nat = Some (OGen (GSuspended k))).
Proof.
  vm_compute. repeat split; try reflexivity. eexists. reflexivity.
Qed.

(** ** [run] *)

Lemma run_empty (depth : nat) (polls : list poll) (st : state) :
  queue st = [] -> paused st = ∅ -> run depth polls st = (Ok Finished, st).
Proof.
  intros Hq Hp. destruct polls; simpl;
    unfold utimeq.nonempty, paused_nonempty; rewrite Hq, Hp;
    rewrite bool_decide_false by (intros H; now apply H); reflexivity.
Qed.

Lemma run_turn_idle (depth : nat) (p : poll) (st : state) :
  queue st = [] -> synthetic_events st = [] -> message p = None ->
  run_turn depth p st
  = (Ok tt, set_clock (utime.ticks_add (clock st) (elapsed p)) st).
Proof.
  intros Hq Hs Hm. unfold run_turn, bind, get_state, utimeq.nonempty, io.poll, ret.
  simpl. rewrite Hq, Hs, Hm.
  destruct (debug st); simpl; rewrite Hq; reflexivity.
Qed.

Lemma run_idle (depth : nat) (polls : list poll) (st : state) :
  queue st = [] -> paused st <> ∅ -> synthetic_events st = [] ->
  Forall (fun p => message p = None) polls ->
  (run depth polls st).1 = Ok Polling /\
  paused (run depth polls st).2 = paused st /\
  queue (run depth polls st).2 = [].
Proof.
  intros Hq Hp Hs Hall. revert st Hq Hp Hs.
  induction Hall as [|p polls Hm Hall IH]; intros st Hq Hp Hs; simpl;
    unfold paused_nonempty; rewrite (bool_decide_true _ Hp), orb_true_r.
  - auto.
  - rewrite (bind_ok _ _ _ _ _ (run_turn_idle depth p st Hq Hs Hm)).
    exact (IH (set_clock (utime.ticks_add (clock st) (elapsed p)) st) Hq Hp Hs).
Qed.

(** ** [race] without children *)

(** C10: for a race constructed with no children, [handle] stores the
    caller and returns; it pushes nothing on the timed queue, pauses nothing
    and registers no finalizer, so [_finish], the only function that
    schedules the caller of a race, has nothing to be called by.  A task
    that yields such a race is therefore left by [_step] in no table.  When
    the caller was the last entry of the tables, the loop test of [run]
    fails at once and [run] returns with the state as [handle] left it: the
    caller is neither resumed nor finalized. *)
Theorem race_handle_no_children (st : state) (self task : ref) (r : race_obj) :
  heap st !! self = Some (ORace r) ->
  children r = [] ->
  let st' := set_obj self (ORace (mk_race [] [] false (Some task))) st in
  race.handle self task st = (Ok tt, st') /\
  queue st' = queue st /\
  paused st' = paused st /\
  finalizers st' = finalizers st /\
  fin_calls st' = fin_calls st /\
  (forall depth value st0,
      body.resume_task (_step depth) (close depth) task value st0
      = (Ok (Yields (VObj self)), st) ->
      _step (S depth) task value st0
      = (Ok tt, if after_step_hook st'
                then set_hook_calls (S (hook_calls st')) st' else st')) /\
  (forall depth polls,
      queue st = [] -> paused st = ∅ -> run depth polls st' = (Ok Finished, st')).
Proof.
  intros Hr Hc st'.
  assert (Hh : race.handle self task st = (Ok tt, st')).
  { unfold race.handle, race.update, race.get, get_obj, bind, modify, ret, st'.
    simpl. rewrite Hr. simpl. rewrite Hr, Hc. reflexivity. }
  split; [exact Hh|]. repeat split; try reflexivity.
  - intros depth value st0 Hres. cbn [_step]. unfold body._step. rewrite Hres.
    unfold body.syscall_handle, get_obj, bind at 1 2 3. rewrite Hr.
    unfold bind at 1. rewrite Hh. unfold bind, ret, get_state, modify.
    now destruct (after_step_hook st').
  - intros depth polls Hq Hp. now apply run_empty.
Qed.

Lemma race_handle_no_children_witness :
  let st := set_obj 0%nat (ORace (mk_race [] [] false None)) (initial true) in
  heap st !! 0%nat = Some (ORace (mk_race [] [] false None)) /\
  children (mk_race [] [] false None) = [] /\
  let st' := set_obj 0%nat (ORace (mk_race [] [] false (Some 1%nat))) st in
  race.handle 0%nat 1%nat st = (Ok tt, st') /\
  queue st' = queue st /\
  paused st' = paused st /\
  finalizers st' = finalizers st /\
  fin_calls st' = fin_calls st /\
  (forall depth value st0,
      body.resume_task (_step depth) (close depth) 1%nat value st0
      = (Ok (Yields (VObj 0%nat)), st) ->
      _step (S depth) 1%nat value st0
      = (Ok tt, if after_step_hook st'
                then set_hook_calls (S (hook_calls st')) st' else st')) /\
  (forall depth polls,
      queue st = [] -> paused st = ∅ -> run depth polls st' = (Ok Finished, st')).
Proof.
  intros st. split; [reflexivity|]. split; [reflexivity|].
  apply (race_handle_no_children st 0%nat 1%nat (mk_race [] [] false None));
    reflexivity.
Defined.

(** Scenario: task 1 is scheduled with a finalizer and awaits [race()].
    [run] steps it once and returns; the task stays suspended at its
    [await], its finalizer stays registered and is never called. *)
Example race_no_children_scenario :
  let r := run 8 [scenario.idle 0; scenario.idle 1000000] (scenario.racing []) in
  r.1 = Ok Finished /\
  queue r.2 = [] /\ paused r.2 = ∅ /\
  finalizers r.2 !! 1%nat = Some (FinExt "on_exit") /\
  fin_calls r.2 = [] /\
  heap r.2 !! 0%nat = Some (ORace (mk_race [] [] false (Some 1%nat))) /\
  (exists k, heap r.2 !! 1%nat = Some (OGen (GSuspended k))).
Proof.
  vm_compute. repeat split; try reflexivity. eexists. reflexivity.
Qed.

(** ** [schedule] *)

Lemma insert_length e q :
  length (utimeq.insert e q) = S (length q).
Proof.
  induction q as [|e' q IH]; simpl; [reflexivity|].
  destruct (_ <? _); simpl; [reflexivity|]. now rewrite IH.
Qed.

Lemma schedule_plain_ok st task value :
  (length (queue st) < utimeq.capacity)%nat ->
  schedule task value None None st
  = (Ok tt, set_queue (utimeq.insert (clock st, task, value) (queue st)) st).
Proof.
  intros H. unfold schedule, utime.ticks_us, bind, ret, utimeq.push.
  cbn -[Nat.leb].
  destruct (Nat.leb_spec utimeq.capacity (length (queue st))); [lia|reflexivity].
Qed.

Lemma schedule_plain_full st task value :
  (utimeq.capacity <= length (queue st))%nat ->
  schedule task value None None st = (Exc IndexError, st).
Proof.
  intros H. unfold schedule, utime.ticks_us, bind, ret, utimeq.push.
  cbn -[Nat.leb].
  destruct (Nat.leb_spec utimeq.capacity (length (queue st))); [reflexivity|lia].
Qed.

Lemma heap_neutral_ret {A} (a : A) : heap_neutral (ret a).
Proof. intros st. reflexivity. Qed.

Lemma heap_neutral_bind {A B} (m : M A) (k : A -> M B) :
  heap_neutral m -> (forall a, heap_neutral (k a)) -> heap_neutral (bind m k).
Proof.
  intros Hm Hk st. unfold bind. specialize (Hm st).
  destruct (m st) as [[a|e] st']; simpl in *.
  - now rewrite Hk.
  - exact Hm.
Qed.

Lemma heap_neutral_schedule task value : heap_neutral (schedule task value None None).
Proof.
  intros st. destruct (Nat.le_gt_cases utimeq.capacity (length (queue st))) as [H|H].
  - now rewrite schedule_plain_full.
  - now rewrite schedule_plain_ok.
Qed.

Lemma bind_ret_state {A} (m : M A) st :
  ((_ <- m ; ret tt) st).2 = (m st).2.
Proof. unfold bind, ret. now destruct (m st) as [[a|e] st']. Qed.

(** ** [chan] *)

Lemma chan_set_then ch c' {A} (m : M A) st :
  heap_neutral m ->
  heap ((chan.set ch c' ;; m) st).2 !! ch = Some (OChan c').
Proof.
  intros Hm. unfold bind, chan.set, modify. rewrite Hm. simpl.
  apply lookup_insert_eq.
Qed.

Lemma chan_set_last ch c' st :
  heap (chan.set ch c' st).2 !! ch = Some (OChan c').
Proof. apply lookup_insert_eq. Qed.

Lemma remove_first_nil_r {A} `{EqDecision A} (x : A) (l : list A) :
  l = [] -> remove_first x l = [].
Proof. now intros ->. Qed.

Lemma chan_apply_inv ch op st c :
  heap st !! ch = Some (OChan c) -> chan_inv c ->
  exists c', heap (chan_apply ch op st).2 !! ch = Some (OChan c') /\ chan_inv c'.
Proof.
  intros Hc Hinv.
  destruct op as [v|p v|t|p v|t]; simpl.
  - (* publish *)
    unfold chan.publish. rewrite (bind_ok _ _ _ _ _ (chan_get_ok _ _ _ Hc)).
    destruct (takers c) as [|taker rest] eqn:Ht.
    + eexists. split; [apply chan_set_last|]. now right.
    + eexists. split; [apply chan_set_then, heap_neutral_schedule|].
      left. destruct Hinv as [H|H]; [exact H|congruence].
  - (* _schedule_put *)
    rewrite bind_ret_state.
    unfold chan._schedule_put. rewrite (bind_ok _ _ _ _ _ (chan_get_ok _ _ _ Hc)).
    destruct (takers c) as [|taker rest] eqn:Ht.
    + eexists. split; [apply chan_set_then, heap_neutral_ret|]. now right.
    + eexists. split.
      * apply chan_set_then.
        apply heap_neutral_bind; intros; [apply heap_neutral_schedule|].
        apply heap_neutral_bind; intros; [apply heap_neutral_schedule|].
        apply heap_neutral_ret.
      * left. destruct Hinv as [H|H]; [exact H|congruence].
  - (* _schedule_take *)
    unfold chan._schedule_take. rewrite (bind_ok _ _ _ _ _ (chan_get_ok _ _ _ Hc)).
    destruct (putters c) as [|[putter value] rest] eqn:Hp.
    + eexists. split; [apply chan_set_last|]. now left.
    + eexists. split.
      * apply chan_set_then.
        apply heap_neutral_bind; intros; [apply heap_neutral_schedule|].
        destruct putter; [apply heap_neutral_schedule|apply heap_neutral_ret].
      * right. destruct Hinv as [H|H]; [congruence|exact H].
  - (* the clean-up of put *)
    unfold chan.put_cleanup, get_obj, bind. simpl.
    destruct (heap st !! p) as [[]|]; simpl; eauto.
    rewrite (chan_get_ok _ _ _ Hc). case_bool_decide; simpl; eauto.
    eexists. split; [apply lookup_insert_eq|].
    destruct Hinv as [Hi|Hi]; [left|right]; simpl; [|exact Hi].
    now apply remove_first_nil_r.
  - (* the clean-up of take *)
    unfold chan.take_cleanup, get_obj, bind. simpl.
    destruct (heap st !! t) as [[| | | | | | |? [task|]]|]; simpl; eauto.
    rewrite (chan_get_ok _ _ _ Hc). case_bool_decide; simpl; eauto.
    eexists. split; [apply lookup_insert_eq|].
    destruct Hinv as [Hi|Hi]; [left|right]; simpl; [exact Hi|].
    now apply remove_first_nil_r.
Qed.

(** C6: whatever [publish], [_schedule_put] and [_schedule_take] calls (and
    cancellations of parked puts and takes) are made on a channel, in any
    order and whether or not the timed queue has room for the tasks they
    wake, one of [putters] and [takers] is empty afterwards. *)
Theorem chan_one_queue_empty (ch : ref) (ops : list chan_op) (st : state)
        (c : chan_obj) :
  heap st !! ch = Some (OChan c) ->
  chan_inv c ->
  exists c', heap (chan_run ch ops st) !! ch = Some (OChan c')
             /\ (putters c' <> [] -> takers c' = [])
             /\ (takers c' <> [] -> putters c' = []).
Proof.
  revert st c. induction ops as [|op ops IH]; intros st c Hc Hinv; simpl.
  - exists c. split; [exact Hc|].
    destruct Hinv as [H|H]; split; intros; congruence.
  - destruct (chan_apply_inv ch op st c Hc Hinv) as (c1 & Hc1 & Hinv1).
    exact (IH _ c1 Hc1 Hinv1).
Qed.

Lemma chan_one_queue_empty_witness :
  let st := set_obj 0%nat (OChan (mk_chan [] [])) (initial true) in
  let ops := [Take 1%nat; Take 2%nat; Publish (VStr "a"); Put 3%nat (VStr "b");
              Publish (VStr "c"); Put 4%nat (VStr "d"); Take 5%nat] in
  heap st !! 0%nat = Some (OChan (mk_chan [] [])) /\
  chan_inv (mk_chan [] []) /\
  exists c', heap (chan_run 0%nat ops st) !! 0%nat = Some (OChan c')
             /\ (putters c' <> [] -> takers c' = [])
             /\ (takers c' <> [] -> putters c' = []).
Proof.
  intros st ops. split; [reflexivity|]. split; [now left|].
  apply (chan_one_queue_empty 0%nat ops st (mk_chan [] [])); [reflexivity|now left].
Defined.

Lemma set_obj_id st r o :
  heap st !! r = Some o -> set_obj r o st = st.
Proof.
  intros H. destruct st. unfold set_obj, set_heap. simpl in *.
  now rewrite insert_id.
Qed.

Lemma set_queue_id st : set_queue (queue st) st = st.
Proof. now destruct st. Qed.

Lemma set_queue_obj_twice st r o1 o2 q1 q2 :
  set_queue q2 (set_obj r o2 (set_queue q1 (set_obj r o1 st)))
  = set_queue q2 (set_obj r o2 st).
Proof.
  destruct st. unfold set_queue, set_obj, set_heap. simpl.
  now rewrite insert_insert_eq.
Qed.

Lemma set_obj_twice st r o1 o2 :
  set_obj r o2 (set_obj r o1 st) = set_obj r o2 st.
Proof.
  destruct st. unfold set_obj, set_heap. simpl. now rewrite insert_insert_eq.
Qed.

Lemma set_queue_set_obj st r o q :
  set_queue q (set_obj r o st) = set_obj r o (set_queue q st).
Proof. reflexivity. Qed.

(** Publishing with nobody waiting parks the values in order. *)
Lemma publish_all st ch ps vs :
  heap st !! ch = Some (OChan (mk_chan ps [])) ->
  for_each vs (chan.publish ch) st
  = (Ok tt, set_obj ch (OChan (mk_chan (ps ++ map (fun v => (None, v)) vs) [])) st).
Proof.
  revert st ps. induction vs as [|v vs IH]; intros st ps Hc; simpl.
  - rewrite app_nil_r. now rewrite set_obj_id.
  - unfold chan.publish at 1.
    rewrite (bind_ok _ _ st tt
               (set_obj ch (OChan (mk_chan (ps ++ [(None, v)]) [])) st)).
    + rewrite (IH _ (ps ++ [(None, v)])) by apply lookup_insert_eq.
      now rewrite set_obj_twice, <- app_assoc.
    + now rewrite (bind_ok _ _ _ _ _ (chan_get_ok _ _ _ Hc)).
Qed.

(** Takers meet the parked values first come, first served. *)
Lemma take_all st ch vs tk ts :
  heap st !! ch = Some (OChan (mk_chan (map (fun v => (None, v)) vs) tk)) ->
  (length (queue st) + min (length vs) (length ts) <= utimeq.capacity)%nat ->
  for_each ts (chan._schedule_take ch) st
  = (Ok tt,
     set_queue (foldl (fun q tv => utimeq.insert (clock st, tv.1, tv.2) q)
                      (queue st) (zip ts vs))
       (set_obj ch (OChan (mk_chan (map (fun v => (None, v)) (drop (length ts) vs))
                                   (tk ++ drop (length vs) ts))) st)).
Proof.
  revert st vs tk. induction ts as [|t ts IH]; intros st vs tk Hc Hlen.
  - simpl. rewrite drop_0, drop_nil, app_nil_r.
    now rewrite set_queue_set_obj, set_queue_id, set_obj_id.
  - cbn [for_each]. destruct vs as [|v vs].
    + rewrite (bind_ok _ _ st tt
                 (set_obj ch (OChan (mk_chan [] (tk ++ [t]))) st)).
      2:{ unfold chan._schedule_take.
          now rewrite (bind_ok _ _ _ _ _ (chan_get_ok _ _ _ Hc)). }
      rewrite (IH _ [] (tk ++ [t])); [|apply lookup_insert_eq|simpl in *; lia].
      simpl. rewrite drop_nil. simpl.
      rewrite !set_queue_set_obj, set_obj_twice, <- app_assoc. simpl.
      destruct ts; reflexivity.
    + assert (Hroom : (length (queue st) < utimeq.capacity)%nat)
        by (simpl in Hlen; lia).
      rewrite (bind_ok _ _ st tt
                 (set_queue (utimeq.insert (clock st, t, v) (queue st))
                    (set_obj ch (OChan (mk_chan (map (fun v => (None, v)) vs) tk)) st))).
      2:{ unfold chan._schedule_take.
          rewrite (bind_ok _ _ _ _ _ (chan_get_ok _ _ _ Hc)).
          cbn [map putters takers].
          rewrite (bind_ok (chan.set ch _) _ st tt
                     (set_obj ch (OChan (mk_chan (map (fun v => (None, v)) vs) tk)) st))
            by reflexivity.
          rewrite (bind_ok _ _ _ tt _
                     (schedule_plain_ok (set_obj ch _ st) t v Hroom)).
          reflexivity. }
      rewrite (IH _ vs tk).
      * simpl. now rewrite set_queue_obj_twice.
      * apply lookup_insert_eq.
      * simpl in *. rewrite insert_length. lia.
Qed.

Lemma ticks_diff_same d : utime.ticks_diff d d = 0.
Proof. unfold utime.ticks_diff. now rewrite Z.sub_diag. Qed.

(** Entries pushed for one and the same deadline come out in the order in
    which they went in. *)
Lemma insert_same_deadline d (l : list (ref * pyval)) t v :
  utimeq.insert (d, t, v) ((fun tv => (d, tv.1, tv.2)) <$> l)
  = ((fun tv => (d, tv.1, tv.2)) <$> l) ++ [(d, t, v)].
Proof.
  induction l as [|[t' v'] l IH]; [reflexivity|].
  rewrite fmap_cons. cbn [utimeq.insert fst snd].
  rewrite ticks_diff_same. change (0 <? 0) with false. cbv iota.
  now rewrite IH.
Qed.

Lemma foldl_insert_same_deadline d (l0 l : list (ref * pyval)) :
  foldl (fun q tv => utimeq.insert (d, tv.1, tv.2) q)
        ((fun tv => (d, tv.1, tv.2)) <$> l0) l
  = (fun tv => (d, tv.1, tv.2)) <$> (l0 ++ l).
Proof.
  revert l0. induction l as [|[t v] l IH]; intros l0.
  - now rewrite app_nil_r.
  - cbn [foldl fst snd]. rewrite insert_same_deadline.
    replace (((fun tv => (d, tv.1, tv.2)) <$> l0) ++ [(d, t, v)])
      with ((fun tv : ref * pyval => (d, tv.1, tv.2)) <$> (l0 ++ [(t, v)]))
      by now rewrite fmap_app.
    rewrite IH. now rewrite <- app_assoc.
Qed.

(** C7: on a channel with nobody parked, the values [vs] are published and
    then the tasks [ts] take, the timed queue having room for them.  The
    i-th taker is scheduled with the i-th published value, each value goes
    to one taker, values that found no taker stay parked in their order and
    takers that found no value are parked.  Started from an empty timed
    queue, the takers are queued in their order of arrival, which is the
    order in which [run] resumes them. *)
Theorem publish_take_fifo (st : state) (ch : ref) (vs : list pyval)
        (ts : list ref) :
  heap st !! ch = Some (OChan (mk_chan [] [])) ->
  (length (queue st) + min (length vs) (length ts) <= utimeq.capacity)%nat ->
  let st' :=
    set_queue (foldl (fun q tv => utimeq.insert (clock st, tv.1, tv.2) q)
                     (queue st) (zip ts vs))
      (set_obj ch (OChan (mk_chan (map (fun v => (None, v)) (drop (length ts) vs))
                                  (drop (length vs) ts))) st) in
  (for_each vs (chan.publish ch) ;; for_each ts (chan._schedule_take ch)) st
  = (Ok tt, st') /\
  (queue st = [] ->
   queue st' = (fun tv => (clock st, tv.1, tv.2)) <$> zip ts vs).
Proof.
  intros Hc Hlen st'. split.
  - rewrite (bind_ok _ _ _ _ _ (publish_all st ch [] vs Hc)). simpl.
    rewrite (take_all _ ch vs [] ts); [|apply lookup_insert_eq|exact Hlen].
    simpl. unfold st'. now rewrite !set_queue_set_obj, set_obj_twice.
  - intros Hq. unfold st'. simpl. rewrite Hq.
    exact (foldl_insert_same_deadline (clock st) [] (zip ts vs)).
Qed.

Lemma publish_take_fifo_witness :
  let st := set_obj 0%nat (OChan (mk_chan [] [])) (initial true) in
  let vs := [VStr "a"; VStr "b"; VStr "c"] in
  let ts := [5%nat; 6%nat] in
  heap st !! 0%nat = Some (OChan (mk_chan [] [])) /\
  (length (queue st) + min (length vs) (length ts) <= utimeq.capacity)%nat /\
  let st' :=
    set_queue (foldl (fun q tv => utimeq.insert (clock st, tv.1, tv.2) q)
                     (queue st) (zip ts vs))
      (set_obj 0%nat (OChan (mk_chan (map (fun v => (None, v)) (drop (length ts) vs))
                                     (drop (length vs) ts))) st) in
  (for_each vs (chan.publish 0%nat) ;; for_each ts (chan._schedule_take 0%nat)) st
  = (Ok tt, st') /\
  (queue st = [] ->
   queue st' = (fun tv => (clock st, tv.1, tv.2)) <$> zip ts vs).
Proof.
  intros st vs ts. split; [reflexivity|]. split; [vm_compute; lia|].
  apply (publish_take_fifo st 0%nat vs ts); [reflexivity|vm_compute; lia].
Defined.

(** Scenario "publish ordering": [publish("a"); publish("b")], then two
    tasks take.  [run] steps each task to its [take], which finds a value
    parked and schedules the task with it; the first task returns ["a"], the
    second ["b"]. *)
Example publish_ordering_scenario :
  let r := run 8 [scenario.idle 0; scenario.idle 0; scenario.idle 0; scenario.idle 0]
               scenario.published_twice in
  r.1 = Ok Finished /\
  fin_calls r.2 = [(FinExt "first", 5%nat, VStr "a");
                   (FinExt "second", 6%nat, VStr "b")] /\
  heap r.2 !! 0%nat = Some (OChan (mk_chan [] [])).
Proof. vm_compute. repeat split; reflexivity. Qed.

(** ** [_step] *)

(** C8: when resuming a task raises [e], what [_step] does depends on the
    class of [e].  If [e] is an [Exception], [_step] logs it (in a debug
    build), calls [finalize] on the task with [e] as the result and returns
    what [finalize] returns: normally when the task has an outside finalizer
    or none, so that [run] goes on with its loop.  If [e] is not an
    [Exception] ([GeneratorExit], [KeyboardInterrupt]), no [except] clause
    takes it: nothing is logged, [finalize] is not called and [e] leaves
    [_step]. *)
Theorem step_contains_exceptions (depth : nat) (task : ref) (value : pyval)
        (e : exn) (st st1 : state) :
  body.resume_task (_step depth) (close depth) task value st = (Exc e, st1) ->
  let st2 := if debug st1 then set_logged (logged st1 ++ [LogException e]) st1
             else st1 in
  (is_Exception e = true ->
   _step (S depth) task value st = finalize depth task (VExc e) st2 /\
   (forall name,
       finalizers st1 !! task = Some (FinExt name) ->
       _step (S depth) task value st
       = (Ok tt, set_fin_calls (fin_calls st2 ++ [(FinExt name, task, VExc e)])
                               (set_finalizers (delete task (finalizers st2)) st2))) /\
   (finalizers st1 !! task = None ->
    _step (S depth) task value st = (Ok tt, st2))) /\
  (is_Exception e = false ->
   _step (S depth) task value st = (Exc e, st1)).
Proof.
  intros Hres st2.
  assert (Hstep : is_Exception e = true ->
                  _step (S depth) task value st = finalize depth task (VExc e) st2).
  { intros He. cbn [_step]. unfold body._step. rewrite Hres, He.
    unfold bind, log, st2. now destruct (debug st1). }
  assert (Hfin : finalizers st2 = finalizers st1).
  { unfold st2. now destruct (debug st1). }
  split.
  - intros He. split; [now apply Hstep|]. split.
    + intros name Hf. rewrite (Hstep He).
      apply finalize_external. now rewrite Hfin.
    + intros Hf. rewrite (Hstep He).
      apply finalize_unregistered. now rewrite Hfin.
  - intros He. cbn [_step]. unfold body._step. now rewrite Hres, He.
Qed.

Lemma step_contains_exceptions_witness :
  let st := scenario.thrown_into (UserError "boom") in
  let st1 := set_obj 1%nat (OGen GFinished) st in
  body.resume_task (_step 3) (close 3) 1%nat (VExc (UserError "boom")) st
  = (Exc (UserError "boom"), st1) /\
  let st2 := if debug st1
             then set_logged (logged st1 ++ [LogException (UserError "boom")]) st1
             else st1 in
  (is_Exception (UserError "boom") = true ->
   _step 4 1%nat (VExc (UserError "boom")) st
   = finalize 3 1%nat (VExc (UserError "boom")) st2 /\
   (forall name,
       finalizers st1 !! 1%nat = Some (FinExt name) ->
       _step 4 1%nat (VExc (UserError "boom")) st
       = (Ok tt, set_fin_calls (fin_calls st2 ++ [(FinExt name, 1%nat, VExc (UserError "boom"))])
                               (set_finalizers (delete 1%nat (finalizers st2)) st2))) /\
   (finalizers st1 !! 1%nat = None ->
    _step 4 1%nat (VExc (UserError "boom")) st = (Ok tt, st2))) /\
  (is_Exception (UserError "boom") = false ->
   _step 4 1%nat (VExc (UserError "boom")) st = (Exc (UserError "boom"), st1)).
Proof.
  intros st st1.
  assert (H : body.resume_task (_step 3) (close 3) 1%nat (VExc (UserError "boom")) st
              = (Exc (UserError "boom"), st1)) by (vm_compute; reflexivity).
  split; [exact H|].
  exact (step_contains_exceptions 3 1%nat (VExc (UserError "boom"))
                                  (UserError "boom") st st1 H).
Defined.

(** Scenario "task fault": task 1 is resumed with an error it does not
    handle, task 2 is due after it.  The error is logged, the finalizer of
    task 1 gets it, and [run] goes on to task 2, which finishes with 2. *)
Example task_fault_scenario :
  let r := run 8 [scenario.idle 0; scenario.idle 0]
               (scenario.thrown_into (UserError "boom")) in
  r.1 = Ok Finished /\
  logged r.2 = [LogException (UserError "boom"); LogDebug "finish: %s" 2%nat] /\
  fin_calls r.2 = [(FinExt "on_exit", 1%nat, VExc (UserError "boom"));
                   (FinExt "on_exit", 2%nat, VInt 2)].
Proof. vm_compute. repeat split; reflexivity. Qed.

(** The claim C8 as it is worded fails for [GeneratorExit]: task 1 is
    resumed with it (as [race._finish] does with its caller when a child was
    closed) and lets it through.  [_step] neither logs nor finalizes, and
    [run] ends with [GeneratorExit] while task 2 is still in the queue. *)
Lemma step_lets_generator_exit_through :
  let st := scenario.thrown_into GeneratorExit in
  let s := _step 4 1%nat (VExc GeneratorExit) st in
  let r := run 8 [scenario.idle 0; scenario.idle 0] st in
  s.1 = Exc GeneratorExit /\
  logged s.2 = [] /\ fin_calls s.2 = [] /\
  finalizers s.2 !! 1%nat = Some (FinExt "on_exit") /\
  r.1 = Exc GeneratorExit /\
  logged r.2 = [] /\ fin_calls r.2 = [] /\
  queue r.2 = [(0, 2%nat, VNone)].
Proof. vm_compute. repeat split; reflexivity. Qed.

(** ** The tear-down relation is a preorder *)

Lemma obj_evolves_refl o : obj_evolves o o.
Proof.
  destruct o as [[[] | | | | r | c | |]|]; simpl; eauto.
  exists r. repeat split; auto.
Qed.

Lemma obj_evolves_gen g o :
  obj_evolves (Some (OGen g)) o -> exists g', o = Some (OGen g').
Proof. destruct g; simpl; eauto. Qed.

Lemma obj_evolves_trans o1 o2 o3 :
  obj_evolves o1 o2 -> obj_evolves o2 o3 -> obj_evolves o1 o3.
Proof.
  destruct o1 as [[g| | | |r|c| |]|]; simpl; intros H12 H23; subst; auto.
  - destruct g; simpl in *.
    + destruct H12 as [g' ->]. eauto using obj_evolves_gen.
    + destruct H12 as [g' ->]. eauto using obj_evolves_gen.
    + subst. exact H23.
    + subst. exact H23.
  - destruct H12 as (r' & -> & Hc & Hs & Hcb & Hf). simpl in H23.
    destruct H23 as (r'' & -> & Hc' & Hs' & Hcb' & Hf').
    exists r''. repeat split; try congruence. auto.
  - destruct H12 as [c' ->]. exact H23.
Qed.

Lemma heap_evolves_refl st : heap_evolves st st.
Proof. intros x. apply obj_evolves_refl. Qed.

Lemma heap_evolves_trans st1 st2 st3 :
  heap_evolves st1 st2 -> heap_evolves st2 st3 -> heap_evolves st1 st3.
Proof. intros H12 H23 x. eapply obj_evolves_trans; eauto. Qed.

(** A race object of the later state was one in the earlier state, with the
    same caller, and unfinished there if it still is. *)
Lemma heap_evolves_race_inv st st' r ro' :
  heap_evolves st st' -> heap st' !! r = Some (ORace ro') ->
  exists ro, heap st !! r = Some (ORace ro) /\
             scheduled ro' = scheduled ro /\
             race_callback ro' = race_callback ro /\
             (finished ro = true -> finished ro' = true).
Proof.
  intros H Hr. specialize (H r). rewrite Hr in H.
  destruct (heap st !! r) as [[[] | | | | r0 | c | |]|]; simpl in H;
    try discriminate; try (destruct H as [? H]; discriminate).
  destruct H as (r' & [= <-] & Hc & Hs & Hcb & Hf). eauto.
Qed.

Lemma heap_evolves_race st st' r ro :
  heap_evolves st st' -> heap st !! r = Some (ORace ro) ->
  exists ro', heap st' !! r = Some (ORace ro') /\
              children ro' = children ro /\
              scheduled ro' = scheduled ro /\
              race_callback ro' = race_callback ro /\
              (finished ro = true -> finished ro' = true).
Proof. intros H Hr. specialize (H r). now rewrite Hr in H. Qed.

Lemma awaits_race_back st st' x :
  heap_evolves st st' -> awaits_race st' x -> awaits_race st x.
Proof.
  intros H (r & ro' & Hr & Hf & Hcb).
  destruct (heap_evolves_race_inv _ _ _ _ H Hr) as (ro & Hr0 & _ & Hcb0 & Hf0).
  exists r, ro. repeat split; [exact Hr0| |congruence].
  destruct (finished ro); [|reflexivity]. rewrite Hf0 in Hf; [discriminate|reflexivity].
Qed.

Lemma paused_shrinks_refl st : paused_shrinks st st.
Proof. intros i. destruct (paused st !! i); eauto. Qed.

Lemma paused_shrinks_trans st1 st2 st3 :
  paused_shrinks st1 st2 -> paused_shrinks st2 st3 -> paused_shrinks st1 st3.
Proof.
  intros H12 H23 i. specialize (H12 i). specialize (H23 i).
  destruct (paused st1 !! i).
  - destruct H12 as (s2 & E2 & Hs2). rewrite E2 in H23.
    destruct H23 as (s3 & E3 & Hs3). exists s3. split; [exact E3|set_solver].
  - now rewrite H12 in H23.
Qed.

Lemma finalizers_shrink_refl ok st : finalizers_shrink ok st st.
Proof.
  split; [auto|]. exists []. rewrite app_nil_r.
  split; [reflexivity|]. split; [constructor|]. split.
  - intros name t v H. now apply elem_of_nil in H.
  - intros t name H1 H2. congruence.
Qed.

Lemma finalizers_shrink_trans ok st1 st2 st3 :
  finalizers_shrink ok st1 st2 -> finalizers_shrink ok st2 st3 ->
  finalizers_shrink ok st1 st3.
Proof.
  intros (S12 & n1 & E1 & ND1 & In1 & Out1) (S23 & n2 & E2 & ND2 & In2 & Out2).
  assert (Hnone : forall t, finalizers st2 !! t = None -> finalizers st3 !! t = None).
  { intros t Ht. destruct (finalizers st3 !! t) eqn:E; [|reflexivity].
    apply S23 in E. congruence. }
  split; [auto|]. exists (n1 ++ n2).
  split; [now rewrite E2, E1, app_assoc|]. split; [|split].
  - rewrite fmap_app. apply NoDup_app. split; [exact ND1|]. split; [|exact ND2].
    intros t Ht1 Ht2.
    apply list_elem_of_fmap in Ht1 as ([[name1 t1] v1] & -> & H1).
    apply list_elem_of_fmap in Ht2 as ([[name2 t2] v2] & Ht & H2). simpl in *. subst t2.
    apply In1 in H1 as (_ & H1 & _). apply In2 in H2 as (H2 & _). congruence.
  - intros name t v H. apply elem_of_app in H as [H|H].
    + apply In1 in H as (A & B & C). auto.
    + apply In2 in H as (A & B & C). auto.
  - intros t f H1 H3. destruct (finalizers st2 !! t) as [f'|] eqn:E2'.
    + assert (f' = f) as -> by (apply S12 in E2'; congruence).
      destruct (Out2 _ _ E2' H3) as [v Hv]. exists v. apply elem_of_app. now right.
    + destruct (Out1 _ _ H1 E2') as [v Hv]. exists v. apply elem_of_app. now left.
Qed.

Lemma finalizers_shrink_mono (ok ok' : ref -> pyval -> Prop) st st' :
  (forall t v, ok t v -> ok' t v) ->
  finalizers_shrink ok st st' -> finalizers_shrink ok' st st'.
Proof.
  intros Hok (S & n & E & ND & Hin & Hout). split; [exact S|].
  exists n. split; [exact E|]. split; [exact ND|]. split; [|exact Hout].
  intros name t v H. apply Hin in H as (A & B & C). auto.
Qed.

Lemma teardown_refl ok st : teardown ok st st.
Proof.
  split; [apply heap_evolves_refl|]. split; [apply paused_shrinks_refl|].
  split; [intros x _; reflexivity|]. split; [apply finalizers_shrink_refl|reflexivity].
Qed.

Lemma teardown_trans ok st1 st2 st3 :
  teardown ok st1 st2 -> teardown ok st2 st3 -> teardown ok st1 st3.
Proof.
  intros (H12 & P12 & Q12 & F12 & C12) (H23 & P23 & Q23 & F23 & C23).
  split; [eauto using heap_evolves_trans|].
  split; [eauto using paused_shrinks_trans|].
  split; [|split; [eauto using finalizers_shrink_trans|congruence]].
  intros x Hx. etransitivity; [apply Q23|apply Q12; exact Hx].
  intros Hx'. apply Hx. eauto using awaits_race_back.
Qed.

Lemma teardown_mono (ok ok' : ref -> pyval -> Prop) st st' :
  (forall t v, ok t v -> ok' t v) -> teardown ok st st' -> teardown ok' st st'.
Proof.
  intros Hok (H & P & Q & F & C).
  split; [exact H|]. split; [exact P|]. split; [exact Q|]. split; [|exact C].
  eapply finalizers_shrink_mono; eauto.
Qed.

(** ** Elementary steps of a tear-down *)

Lemma heap_evolves_eq st st' : heap st' = heap st -> heap_evolves st st'.
Proof. intros E x. rewrite E. apply obj_evolves_refl. Qed.

Lemma paused_shrinks_eq st st' : paused st' = paused st -> paused_shrinks st st'.
Proof. intros E i. rewrite E. destruct (paused st !! i); eauto. Qed.

Lemma queue_shrinks_eq st st' : queue st' = queue st -> queue_shrinks st st'.
Proof. intros E x _. now rewrite E. Qed.

Lemma finalizers_shrink_eq ok st st' :
  finalizers st' = finalizers st -> fin_calls st' = fin_calls st ->
  finalizers_shrink ok st st'.
Proof.
  intros E1 E2. unfold finalizers_shrink. rewrite E1, E2.
  apply (finalizers_shrink_refl ok st).
Qed.

#[local] Hint Resolve heap_evolves_eq paused_shrinks_eq queue_shrinks_eq
  finalizers_shrink_eq : teardown.

(** Writing a generator, a channel or the [finished] flag of a race. *)
Lemma teardown_set_gen ok st x g0 g :
  heap st !! x = Some (OGen g0) -> g0 <> GRunning -> g0 <> GFinished ->
  teardown ok st (set_obj x (OGen g) st).
Proof.
  intros Hx Hr Hf. teardown_parts.
  intros y. simpl. destruct (decide (x = y)) as [<-|Hne].
  - rewrite Hx, lookup_insert_eq. destruct g0; simpl; eauto; congruence.
  - rewrite lookup_insert_ne by exact Hne. apply obj_evolves_refl.
Qed.

Lemma teardown_set_chan ok st ch c c' :
  heap st !! ch = Some (OChan c) -> teardown ok st (set_obj ch (OChan c') st).
Proof.
  intros Hc. teardown_parts.
  intros y. simpl. destruct (decide (ch = y)) as [<-|Hne].
  - rewrite Hc, lookup_insert_eq. simpl. eauto.
  - rewrite lookup_insert_ne by exact Hne. apply obj_evolves_refl.
Qed.

Lemma teardown_mark_finished ok st r ro :
  heap st !! r = Some (ORace ro) ->
  teardown ok st
    (set_obj r (ORace (mk_race (children ro) (scheduled ro) true (race_callback ro))) st).
Proof.
  intros Hr. teardown_parts.
  intros y. simpl. destruct (decide (r = y)) as [<-|Hne].
  - rewrite Hr, lookup_insert_eq. simpl. eexists. repeat split.
  - rewrite lookup_insert_ne by exact Hne. apply obj_evolves_refl.
Qed.

(** Discarding from the queue and from the paused sets. *)
Lemma entries_of_filter x (P : Z * ref * pyval -> Prop) `{!forall e, Decision (P e)} q :
  entries_of x (filter P q) `sublist_of` entries_of x q.
Proof.
  unfold entries_of. induction q as [|e q IH]; [reflexivity|].
  rewrite !filter_cons. destruct (decide (P e)).
  - rewrite filter_cons. destruct (decide (e.1.2 = x)); [now constructor|exact IH].
  - destruct (decide (e.1.2 = x)); [now constructor|exact IH].
Qed.

Lemma teardown_discard ok st t :
  teardown ok st (set_queue (filter (fun e => e.1.2 <> t) (queue st)) st).
Proof.
  teardown_parts. intros x _. simpl. apply entries_of_filter.
Qed.

Lemma teardown_paused_fmap ok st t :
  teardown ok st (set_paused ((fun tasks => tasks ∖ {[t]}) <$> paused st) st).
Proof.
  teardown_parts. intros i. simpl. rewrite lookup_fmap.
  destruct (paused st !! i) as [s|]; simpl; [|reflexivity].
  eexists. split; [reflexivity|]. now apply subseteq_difference_l.
Qed.

Lemma teardown_paused_discard ok st i s t :
  paused st !! i = Some s ->
  teardown ok st (set_paused (<[i := s ∖ {[t]}]> (paused st)) st).
Proof.
  intros Hi. teardown_parts. intros j. simpl.
  destruct (decide (i = j)) as [<-|Hne].
  - rewrite Hi, lookup_insert_eq. eexists. split; [reflexivity|].
    now apply subseteq_difference_l.
  - rewrite lookup_insert_ne by exact Hne. destruct (paused st !! j); eauto.
Qed.

(** Popping a finalizer and recording its call. *)
Lemma teardown_pop (ok : ref -> pyval -> Prop) st t f v :
  finalizers st !! t = Some f -> ok t v ->
  teardown ok st
    (set_fin_calls (fin_calls st ++ [(f, t, v)])
                   (set_finalizers (delete t (finalizers st)) st)).
Proof.
  intros Ht Hok. teardown_parts. split.
  - simpl. intros t' f' [_ H]%lookup_delete_Some. exact H.
  - exists [(f, t, v)]. simpl. split; [reflexivity|].
    split; [apply NoDup_singleton|]. split.
    + intros f' t' v' H. apply list_elem_of_singleton in H as [= -> -> ->].
      split; [exact Ht|]. split; [apply lookup_delete_eq|exact Hok].
    + intros t' f' H1 H2. apply lookup_delete_None in H2 as [<-|H2]; [|congruence].
      exists v. apply list_elem_of_singleton. congruence.
Qed.

(** Pushing the caller of a race that was unfinished when the tear-down
    began. *)
Lemma entries_of_insert x e q :
  e.1.2 <> x -> entries_of x (utimeq.insert e q) = entries_of x q.
Proof.
  intros Hne. unfold entries_of. induction q as [|e' q IH]; simpl.
  - rewrite filter_cons. now destruct (decide (e.1.2 = x)).
  - destruct (_ <? _).
    + rewrite filter_cons. now destruct (decide (e.1.2 = x)).
    + rewrite !filter_cons. now rewrite IH.
Qed.

Lemma teardown_then_push ok st st' d cb v :
  teardown ok st st' -> awaits_race st cb ->
  teardown ok st (set_queue (utimeq.insert (d, cb, v) (queue st')) st').
Proof.
  intros (H & P & Q & F & C) Hcb.
  split; [exact H|]. split; [exact P|]. split; [|split; [exact F|exact C]].
  intros x Hx. simpl. rewrite entries_of_insert.
  - now apply Q.
  - simpl. intros ->. contradiction.
Qed.

(** A generator runs between the moment it is marked as executing and the
    moment its new state is written. *)
Lemma awaits_race_set_gen st x g0 g y :
  heap st !! x = Some (OGen g0) ->
  awaits_race (set_obj x (OGen g) st) y -> awaits_race st y.
Proof.
  intros Hx (r & ro & Hr & Hf & Hcb). simpl in Hr.
  destruct (decide (x = r)) as [<-|Hne].
  - rewrite lookup_insert_eq in Hr. discriminate.
  - rewrite lookup_insert_ne in Hr by exact Hne. now exists r, ro.
Qed.

Lemma teardown_resume ok st x g0 st' g :
  heap st !! x = Some (OGen g0) -> g0 <> GRunning -> g0 <> GFinished ->
  teardown ok (set_obj x (OGen GRunning) st) st' ->
  teardown ok st (set_obj x (OGen g) st').
Proof.
  intros Hx Hr Hf (H & P & Q & F & C).
  split; [|split; [exact P|split; [|split; [exact F|exact C]]]].
  - intros y. simpl. destruct (decide (x = y)) as [<-|Hne].
    + rewrite Hx, lookup_insert_eq. destruct g0; simpl; eauto; congruence.
    + rewrite lookup_insert_ne by exact Hne. specialize (H y). simpl in H.
      now rewrite lookup_insert_ne in H by exact Hne.
  - intros y Hy. apply Q. intros Hy'. apply Hy.
    eauto using awaits_race_set_gen.
Qed.

(** ** Every path of [close] and [finalize] is a tear-down *)

Lemma teardown_bind ok {A B} (m : M A) (k : A -> M B) st :
  teardown ok st (m st).2 ->
  (forall a st', m st = (Ok a, st') -> teardown ok st' (k a st').2) ->
  teardown ok st (bind m k st).2.
Proof.
  intros Hm Hk. unfold bind. destruct (m st) as [[a|e] st'] eqn:E; simpl in *.
  - eapply teardown_trans; [exact Hm|]. now apply Hk.
  - exact Hm.
Qed.

Lemma for_each_teardown ok {A} (xs : list A) (f : A -> M unit) :
  (forall x st, teardown ok st (f x st).2) ->
  forall st, teardown ok st (for_each xs f st).2.
Proof.
  intros Hf. induction xs as [|x xs IH]; intros st; simpl.
  - apply teardown_refl.
  - apply teardown_bind; [apply Hf|]. intros _ st' _. apply IH.
Qed.

Lemma race_get_cases st self :
  (exists ro, heap st !! self = Some (ORace ro) /\ race.get self st = (Ok ro, st)) \/
  race.get self st = (Exc AttributeError, st).
Proof.
  unfold race.get, get_obj, bind.
  destruct (heap st !! self) as [[]|]; simpl; eauto.
Qed.

Lemma chan_get_cases st self :
  (exists c, heap st !! self = Some (OChan c) /\ chan.get self st = (Ok c, st)) \/
  chan.get self st = (Exc AttributeError, st).
Proof.
  unfold chan.get, get_obj, bind.
  destruct (heap st !! self) as [[]|]; simpl; eauto.
Qed.

Lemma generator_get_cases st self :
  (exists g, heap st !! self = Some (OGen g) /\ generator.get self st = (Ok g, st)) \/
  generator.get self st = (Exc AttributeError, st).
Proof.
  unfold generator.get, get_obj, bind.
  destruct (heap st !! self) as [[]|]; simpl; eauto.
Qed.

Lemma race_update_ok st self ro f :
  heap st !! self = Some (ORace ro) ->
  race.update self f st = (Ok tt, set_obj self (ORace (f ro)) st).
Proof.
  intros H. unfold race.update. now rewrite (bind_ok _ _ _ _ _ (race_get_ok _ _ _ H)).
Qed.

Section Traversal.
Context (ok : ref -> pyval -> Prop) (cl : ref -> M unit).
Hypothesis cl_teardown : forall t st, teardown ok st (cl t st).2.

Lemma race_exit_teardown self except_for st :
  teardown ok st (race.exit cl self except_for st).2.
Proof.
  unfold race.exit. apply teardown_bind.
  - destruct (race_get_cases st self) as [(ro & _ & ->)| ->]; apply teardown_refl.
  - intros ro st' _. apply for_each_teardown. intros t st0.
    destruct (decide (Some t = except_for)); [apply teardown_refl|apply cl_teardown].
Qed.

Lemma race_finish_teardown self task result st :
  teardown ok st (race._finish cl self task result st).2.
Proof.
  unfold race._finish.
  destruct (race_get_cases st self) as [(ro & Hr & E)|E];
    [rewrite (bind_ok _ _ _ _ _ E)|rewrite (bind_exc _ _ _ _ _ E); apply teardown_refl].
  destruct (finished ro) eqn:Hf; [apply teardown_refl|].
  rewrite (bind_ok _ _ _ _ _ (race_update_ok st self ro _ Hr)).
  set (st1 := set_obj self _ st).
  assert (T1 : teardown ok st st1) by now apply teardown_mark_finished.
  assert (T2 := race_exit_teardown self (Some task) st1).
  unfold bind at 1. destruct (race.exit cl self (Some task) st1) as [[[]|e] st2];
    simpl in T2; [|eapply teardown_trans; eassumption].
  assert (T : teardown ok st st2) by (eapply teardown_trans; eassumption).
  destruct (race_get_cases st2 self) as [(ro2 & Hr2 & E2)|E2];
    [rewrite (bind_ok _ _ _ _ _ E2)|rewrite (bind_exc _ _ _ _ _ E2); exact T].
  destruct (race_callback ro2) as [cb|] eqn:Hcb; [|exact T].
  destruct (Nat.le_gt_cases utimeq.capacity (length (queue st2))) as [Hlen|Hlen].
  - rewrite schedule_plain_full by exact Hlen. exact T.
  - rewrite schedule_plain_ok by exact Hlen. apply teardown_then_push; [exact T|].
    destruct T as (H & _).
    destruct (heap_evolves_race _ _ _ _ H Hr) as (ro' & Hr' & _ & _ & Hcb' & _).
    exists self, ro. repeat split; [exact Hr|exact Hf|]. congruence.
Qed.

Lemma finalize_teardown task value st :
  ok task value -> teardown ok st (body.finalize cl task value st).2.
Proof.
  intros Hok. unfold body.finalize, bind, get_state, modify.
  destruct (finalizers st !! task) as [[r|name]|] eqn:Hf; simpl.
  - eapply teardown_trans; [eapply teardown_pop; [exact Hf|exact Hok]|].
    apply race_finish_teardown.
  - now apply teardown_pop.
  - apply teardown_refl.
Qed.

Lemma perform_teardown op st :
  teardown ok st (generator.perform cl op st).2.
Proof.
  destruct op as [self|self|self|ch put value|ch take]; simpl.
  - apply teardown_discard.
  - unfold wait.get, get_obj, bind, paused_discard.
    destruct (heap st !! self) as [[]|]; simpl; try apply teardown_refl.
    destruct (paused st !! msg_iface w) eqn:Hp; simpl; [|apply teardown_refl].
    now apply teardown_paused_discard.
  - apply race_exit_teardown.
  - unfold chan.put_cleanup, get_obj, bind.
    destruct (heap st !! put) as [[]|]; simpl; try apply teardown_refl.
    destruct (chan_get_cases st ch) as [(c & Hc & ->)| ->]; [|apply teardown_refl].
    case_bool_decide; [|apply teardown_refl].
    eapply teardown_set_chan; exact Hc.
  - unfold chan.take_cleanup, get_obj, bind.
    destruct (heap st !! take) as [[| | | | | | |? [task|]]|]; simpl;
      try apply teardown_refl.
    destruct (chan_get_cases st ch) as [(c & Hc & ->)| ->]; [|apply teardown_refl].
    case_bool_decide; [|apply teardown_refl].
    eapply teardown_set_chan; exact Hc.
Qed.

Lemma run_coro_teardown c st :
  teardown ok st (generator.run_coro cl c st).2.
Proof.
  revert st. induction c as [v|e|y k _|op k IH]; intros st; simpl;
    try apply teardown_refl.
  assert (T := perform_teardown op st).
  destruct (generator.perform cl op st) as [[[]|e] st']; simpl in T;
    (eapply teardown_trans; [exact T|apply IH]).
Qed.

Lemma generator_close_teardown self st :
  teardown ok st (generator.close cl self st).2.
Proof.
  unfold generator.close.
  destruct (generator_get_cases st self) as [(g & Hg & E)|E];
    [rewrite (bind_ok _ _ _ _ _ E)|rewrite (bind_exc _ _ _ _ _ E); apply teardown_refl].
  destruct g as [body|k| |]; try apply teardown_refl.
  - eapply teardown_set_gen; [exact Hg|discriminate|discriminate].
  - assert (T := run_coro_teardown (k (Throw GeneratorExit))
                                   (set_obj self (OGen GRunning) st)).
    destruct (generator.run_coro cl _ _) as [[y k'|v|e] st']; simpl in *;
      (eapply teardown_resume; [exact Hg|discriminate|discriminate|exact T]).
Qed.

Lemma task_close_teardown task st :
  teardown ok st (body.task_close cl task st).2.
Proof.
  unfold body.task_close, get_obj, bind. simpl.
  destruct (heap st !! task) as [[]|]; simpl; try apply teardown_refl.
  apply generator_close_teardown.
Qed.

Lemma close_body_teardown task st :
  ok task (VExc GeneratorExit) ->
  teardown ok st (body.close cl task st).2.
Proof.
  intros Hok. unfold body.close.
  apply teardown_bind; [apply teardown_paused_fmap|intros _ st1 _].
  apply teardown_bind; [apply teardown_discard|intros _ st2 _].
  apply teardown_bind; [apply task_close_teardown|intros _ st3 _].
  now apply finalize_teardown.
Qed.
End Traversal.

Lemma close_teardown depth task st :
  teardown cancelled st (close depth task st).2.
Proof.
  revert task st. induction depth as [|d IH]; intros task st; simpl.
  - apply teardown_refl.
  - apply close_body_teardown; [exact IH|reflexivity].
Qed.

Lemma finalize_is_teardown depth task value st :
  teardown (finalized_with task value) st (finalize depth task value st).2.
Proof.
  apply finalize_teardown; [|now right].
  intros t st0. eapply teardown_mono; [|apply close_teardown].
  intros t' v Hv. now left.
Qed.

(** ** What a successful [close] has done *)

Lemma paused_shrinks_dom st st' :
  paused_shrinks st st' -> dom (paused st') = dom (paused st).
Proof.
  intros P. apply set_eq. intros i. rewrite !elem_of_dom. specialize (P i).
  destruct (paused st !! i) as [s|] eqn:E.
  - destruct P as (s' & -> & _). split; eauto.
  - rewrite P. reflexivity.
Qed.

Lemma paused_shrinks_absent st st' t :
  paused_shrinks st st' ->
  (forall i s, paused st !! i = Some s -> t ∉ s) ->
  forall i s, paused st' !! i = Some s -> t ∉ s.
Proof.
  intros P Hst i s' Hi. specialize (P i).
  destruct (paused st !! i) as [s|] eqn:E.
  - destruct P as (s'' & E' & Hsub). assert (s'' = s') as -> by congruence.
    specialize (Hst i s E). set_solver.
  - congruence.
Qed.

Lemma finalize_removes ok cl task value st :
  (forall t st, teardown ok st (cl t st).2) ->
  finalizers (body.finalize cl task value st).2 !! task = None.
Proof.
  intros Hcl. unfold body.finalize, bind, get_state, modify.
  destruct (finalizers st !! task) as [[r|name]|] eqn:Hf; simpl.
  - destruct (race_finish_teardown ok cl Hcl r task value
                (set_fin_calls (fin_calls st ++ [(FinRace r, task, value)])
                   (set_finalizers (delete task (finalizers st)) st)))
      as (_ & _ & _ & (S & _) & _).
    set (stf := (race._finish cl r task value _).2) in *.
    destruct (finalizers stf !! task) eqn:E; [|reflexivity].
    apply S in E. simpl in E. now rewrite lookup_delete_eq in E.
  - apply lookup_delete_eq.
  - exact Hf.
Qed.

Lemma generator_close_ok cl self st st' g :
  heap st !! self = Some (OGen g) ->
  generator.close cl self st = (Ok tt, st') ->
  heap st' !! self = Some (OGen GFinished).
Proof.
  intros Hg. unfold generator.close, generator.get, get_obj, bind. rewrite Hg. simpl.
  destruct g as [body|k| |]; simpl.
  - intros [= <-]. apply lookup_insert_eq.
  - destruct (generator.run_coro cl _ _) as [[y k'|v|e] st2].
    + discriminate.
    + intros [= <-]. apply lookup_insert_eq.
    + destruct (decide (e = GeneratorExit)); [|discriminate].
      intros [= <-]. apply lookup_insert_eq.
  - discriminate.
  - now intros [= <-].
Qed.

Lemma teardown_finished ok st st' x :
  teardown ok st st' -> heap st !! x = Some (OGen GFinished) ->
  heap st' !! x = Some (OGen GFinished).
Proof. intros (H & _) Hx. specialize (H x). now rewrite Hx in H. Qed.

Lemma entries_of_discard x q :
  entries_of x (filter (fun e => e.1.2 <> x) q) = [].
Proof.
  unfold entries_of. rewrite list_filter_filter.
  induction q as [|e q IH]; [reflexivity|].
  rewrite filter_cons. destruct (decide _) as [[H1 H2]|]; [contradiction|exact IH].
Qed.

(** The four statements of [close], with the states between them. *)
Lemma close_unfold depth task st :
  close (S depth) task st
  = (body.task_close (close depth) task ;;
     body.finalize (close depth) task (VExc GeneratorExit))
      (set_queue (filter (fun e => e.1.2 <> task) (queue st))
         (set_paused ((fun tasks => tasks ∖ {[task]}) <$> paused st) st)).
Proof. reflexivity. Qed.

Lemma close_post depth task st :
  let st' := (close (S depth) task st).2 in
  (forall i s, paused st' !! i = Some s -> task ∉ s) /\
  (~ awaits_race st task -> entries_of task (queue st') = []) /\
  ((close (S depth) task st).1 = Ok tt ->
   finalizers st' !! task = None /\
   (forall g, heap st !! task = Some (OGen g) ->
              heap st' !! task = Some (OGen GFinished))).
Proof.
  intros st'. unfold st'. rewrite close_unfold.
  set (st0 := set_queue _ _).
  assert (T : teardown cancelled st0
                ((body.task_close (close depth) task ;;
                  body.finalize (close depth) task (VExc GeneratorExit)) st0).2).
  { apply teardown_bind.
    - apply task_close_teardown, close_teardown.
    - intros _ st1 _. apply finalize_teardown; [apply close_teardown|reflexivity]. }
  split; [|split].
  - destruct T as (_ & P & _). eapply paused_shrinks_absent; [exact P|].
    intros i s. unfold st0. simpl. rewrite lookup_fmap.
    destruct (paused st !! i); simpl; [|discriminate].
    intros [= <-] [_ Hin]%elem_of_difference. apply Hin. now apply elem_of_singleton.
  - intros Hno. destruct T as (_ & _ & Q & _).
    apply sublist_nil_r.
    replace [] with (entries_of task (queue st0)); [apply Q; exact Hno|].
    apply entries_of_discard.
  - unfold bind.
    destruct (body.task_close (close depth) task st0) as [[[]|e] st1] eqn:E1;
      [|discriminate].
    intros Hok. split.
    + apply (finalize_removes cancelled). apply close_teardown.
    + intros g Hg.
      assert (Hg0 : heap st0 !! task = Some (OGen g)) by exact Hg.
      unfold body.task_close, get_obj, bind in E1. rewrite Hg0 in E1. simpl in E1.
      eapply teardown_finished.
      * apply (finalize_teardown cancelled); [apply close_teardown|reflexivity].
      * eapply generator_close_ok; eassumption.
Qed.

(** On a quiet task [task.close()] returns. *)
Lemma task_close_quiet cl task st :
  quiet st task -> (body.task_close cl task st).1 = Ok tt.
Proof.
  unfold quiet, body.task_close, get_obj, bind. simpl.
  destruct (heap st !! task) as [[[body|k| |]| | |w| | | |]|] eqn:E; simpl;
    try contradiction; try reflexivity;
    unfold generator.close, generator.get, get_obj, bind; rewrite E; simpl;
    try reflexivity.
  destruct (k (Throw GeneratorExit)) as [v|[]| |]; simpl; try contradiction;
    reflexivity.
Qed.

(** ** Finalizers run once *)

Lemma calls_to_app t l1 l2 :
  calls_to t (l1 ++ l2) = calls_to t l1 ++ calls_to t l2.
Proof. unfold calls_to. now rewrite filter_app. Qed.

Lemma filter_nothing {A} (P : A -> Prop) `{!forall x, Decision (P x)} (l : list A) :
  (forall x, x ∈ l -> ~ P x) -> filter P l = [].
Proof.
  induction l as [|x l IH]; intros Hl; [reflexivity|].
  rewrite filter_cons_False by (apply Hl; left).
  apply IH. intros y Hy. apply Hl. now right.
Qed.

Lemma calls_to_cons t c l :
  calls_to t (c :: l) = if decide (c.1.2 = t) then c :: calls_to t l else calls_to t l.
Proof. unfold calls_to. now rewrite filter_cons. Qed.

Lemma calls_to_at_most_one t (new : list (finalizer * ref * pyval)) :
  NoDup ((fun c => c.1.2) <$> new) -> (length (calls_to t new) <= 1)%nat.
Proof.
  unfold calls_to. induction new as [|c new IH]; [simpl; lia|].
  rewrite fmap_cons, NoDup_cons. intros [Hc ND]. rewrite filter_cons.
  destruct (decide (c.1.2 = t)) as [<-|]; [|auto].
  replace (filter _ new) with (@nil (finalizer * ref * pyval)); [simpl; lia|].
  symmetry. apply filter_nothing. intros c' Hc' E.
  apply Hc. apply list_elem_of_fmap. eauto.
Qed.

Lemma calls_to_none t (new : list (finalizer * ref * pyval)) :
  (forall name v, (name, t, v) ∉ new) -> calls_to t new = [].
Proof.
  intros H. apply filter_nothing. intros [[name t'] v] Hc E.
  simpl in E. subst t'. now apply (H name v).
Qed.

Lemma calls_to_single t name v (new : list (finalizer * ref * pyval)) :
  NoDup ((fun c => c.1.2) <$> new) -> (name, t, v) ∈ new ->
  calls_to t new = [(name, t, v)].
Proof.
  intros ND Hin. apply list_elem_of_split in Hin as (l1 & l2 & ->).
  rewrite fmap_app, fmap_cons in ND. simpl in ND.
  apply NoDup_app in ND as (_ & H1 & ND2). apply NoDup_cons in ND2 as (H2 & _).
  rewrite calls_to_app, calls_to_cons. simpl.
  destruct (decide (t = t)) as [_|]; [|contradiction].
  rewrite !calls_to_none; [reflexivity| |].
  - intros n' v' Hin. apply H2. apply list_elem_of_fmap. now exists (n', t, v').
  - intros n' v' Hin. apply (H1 t); [|left].
    apply list_elem_of_fmap. now exists (n', t, v').
Qed.

Lemma leave_op_teardown depth ev st :
  teardown (fun _ _ => True) st (leave_op depth ev st).2.
Proof.
  destruct ev as [t v|t e|t]; simpl;
    (eapply teardown_mono; [|first [apply finalize_is_teardown|apply close_teardown]]);
    auto.
Qed.

Lemma leave_all_teardown depth evs st :
  teardown (fun _ _ => True) st (leave_all depth evs st).
Proof.
  revert st. induction evs as [|ev evs IH]; intros st; simpl.
  - apply teardown_refl.
  - eapply teardown_trans; [apply leave_op_teardown|apply IH].
Qed.

(** A [close] that returns has called the finalizer of the task once, with
    [GeneratorExit]. *)
Lemma close_calls_finalizer depth st t f st1 :
  finalizers st !! t = Some f ->
  close depth t st = (Ok tt, st1) ->
  finalizers st1 !! t = None /\
  calls_to t (fin_calls st1)
  = calls_to t (fin_calls st) ++ [(f, t, VExc GeneratorExit)].
Proof.
  intros Hreg Hclose.
  destruct depth as [|depth]; [discriminate|].
  destruct (close_post depth t st) as (_ & _ & Hpost).
  rewrite Hclose in Hpost. destruct (Hpost eq_refl) as (Hnone & _). simpl in Hnone.
  split; [exact Hnone|].
  pose proof (close_teardown (S depth) t st) as T1. rewrite Hclose in T1.
  destruct T1 as (_ & _ & _ & (_ & new1 & E1 & ND1 & Hin1 & Hout1) & _).
  simpl in E1, Hin1, Hout1.
  destruct (Hout1 t f Hreg Hnone) as (v & Hv).
  assert (v = VExc GeneratorExit) as -> by (apply Hin1 in Hv as (_ & _ & Hv); exact Hv).
  rewrite E1, calls_to_app. f_equal. now apply calls_to_single.
Qed.

(** A [close] of a task without a finalizer calls nothing for it. *)
Lemma close_calls_nothing depth st t :
  finalizers st !! t = None ->
  calls_to t (fin_calls (close depth t st).2) = calls_to t (fin_calls st).
Proof.
  intros Hnone.
  destruct (close_teardown depth t st)
    as (_ & _ & _ & (_ & new2 & E2 & _ & Hin2 & _) & _).
  rewrite E2, calls_to_app, (calls_to_none t new2), app_nil_r; [reflexivity|].
  intros n' v' Hc. apply Hin2 in Hc as (Hc & _). congruence.
Qed.

(** C4: a task is registered with the finalizer [f] (an outside callable
    or [_finish] of a race).  However tasks then leave the system (any
    tasks, by termination, fault or [close], in any order and number,
    returning or raising), [finalize] calls [f] at most once for the task
    and calls nothing else for it.  In particular, when a first [close] of
    the task returns, it has called the finalizer once, with
    [GeneratorExit], and a second [close] calls nothing. *)
Theorem finalizer_at_most_once (depth : nat) (st : state) (t : ref)
        (f : finalizer) :
  finalizers st !! t = Some f ->
  (forall evs, exists new,
      fin_calls (leave_all depth evs st) = fin_calls st ++ new /\
      (length (calls_to t new) <= 1)%nat /\
      (forall c, c ∈ calls_to t new -> c.1.1 = f)) /\
  (forall st1,
      close depth t st = (Ok tt, st1) ->
      calls_to t (fin_calls st1)
      = calls_to t (fin_calls st) ++ [(f, t, VExc GeneratorExit)] /\
      calls_to t (fin_calls (close depth t st1).2) = calls_to t (fin_calls st1)).
Proof.
  intros Hreg. split.
  - intros evs.
    destruct (leave_all_teardown depth evs st)
      as (_ & _ & _ & (_ & new & E & ND & Hin & _) & _).
    exists new. split; [exact E|]. split; [now apply calls_to_at_most_one|].
    intros [[f' t'] v] Hc. apply list_elem_of_filter in Hc as [Et Hc].
    simpl in *. subst t'. apply Hin in Hc as (Hc & _). congruence.
  - intros st1 Hclose.
    destruct (close_calls_finalizer depth st t f st1 Hreg Hclose) as [Hnone Hcalls].
    split; [exact Hcalls|]. now apply close_calls_nothing.
Qed.

Lemma finalizer_at_most_once_witness :
  let st := (schedule 1%nat VNone None (Some (FinExt "on_exit")) scenario.fresh_task).2 in
  let st1 := (close 2 1%nat st).2 in
  finalizers st !! 1%nat = Some (FinExt "on_exit") /\
  close 2 1%nat st = (Ok tt, st1) /\
  (forall evs, exists new,
      fin_calls (leave_all 2 evs st) = fin_calls st ++ new /\
      (length (calls_to 1%nat new) <= 1)%nat /\
      (forall c, c ∈ calls_to 1%nat new -> c.1.1 = FinExt "on_exit")) /\
  calls_to 1%nat (fin_calls st1)
  = calls_to 1%nat (fin_calls st) ++ [(FinExt "on_exit", 1%nat, VExc GeneratorExit)] /\
  calls_to 1%nat (fin_calls (close 2 1%nat st1).2) = calls_to 1%nat (fin_calls st1).
Proof.
  intros st st1.
  assert (Hreg : finalizers st !! 1%nat = Some (FinExt "on_exit")) by reflexivity.
  assert (Hclose : close 2 1%nat st = (Ok tt, st1)) by (vm_compute; reflexivity).
  destruct (finalizer_at_most_once 2 st 1%nat (FinExt "on_exit") Hreg) as [Hall Htwice].
  split; [exact Hreg|]. split; [exact Hclose|]. split; [exact Hall|].
  exact (Htwice st1 Hclose).
Defined.

(** ** [schedule] then [close] *)

Lemma schedule_with_finalizer t value deadline f st st1 :
  schedule t value deadline (Some f) st = (Ok tt, st1) ->
  heap st1 = heap st /\ fin_calls st1 = fin_calls st /\
  finalizers st1 !! t = Some f.
Proof.
  unfold schedule, bind, modify, utimeq.push.
  assert (E : exists d, (match deadline with
                         | Some d => ret d
                         | None => utime.ticks_us
                         end) st = (Ok d, st)).
  { destruct deadline; eexists; reflexivity. }
  destruct E as [d ->]. cbn -[Nat.leb].
  destruct (Nat.leb _ _); [discriminate|].
  intros [= <-]. simpl. split; [reflexivity|]. split; [reflexivity|].
  apply lookup_insert_eq.
Qed.

Lemma finalize_external_returns cl t value st :
  (forall f, finalizers st !! t = Some f -> exists name, f = FinExt name) ->
  (body.finalize cl t value st).1 = Ok tt.
Proof.
  intros H. unfold body.finalize, bind, get_state, modify.
  destruct (finalizers st !! t) as [f|]; [|reflexivity].
  destruct (H f eq_refl) as [name ->]. reflexivity.
Qed.

(** Where the round trip of [schedule] and [close] holds: [t] is not the
    caller of an unfinished race, and [schedule(t, value, deadline,
    finalizer)], with an outside callable as the finalizer, found room in the
    queue.  After [close(t)], whether it returned or raised, [t] has no entry
    in the timed queue and is in no paused set.  On a quiet task ([quiet])
    [close] returns; and when [close] returns, the finalizer has been called
    exactly once for [t], with [GeneratorExit]. *)
Theorem schedule_close_roundtrip (depth : nat) (st st1 : state) (t : ref)
        (value : pyval) (deadline : option Z) (name : string) :
  ~ awaits_race st t ->
  schedule t value deadline (Some (FinExt name)) st = (Ok tt, st1) ->
  let r := close (S depth) t st1 in
  entries_of t (queue r.2) = [] /\
  (forall iface tasks, paused r.2 !! iface = Some tasks -> t ∉ tasks) /\
  (quiet st t -> r.1 = Ok tt) /\
  (r.1 = Ok tt ->
   calls_to t (fin_calls r.2)
   = calls_to t (fin_calls st) ++ [(FinExt name, t, VExc GeneratorExit)]).
Proof.
  intros Hno Hsched r.
  destruct (schedule_with_finalizer _ _ _ _ _ _ Hsched) as (Hheap & Hcalls & Hreg).
  assert (Hno1 : ~ awaits_race st1 t).
  { intros (r0 & ro & Hr & Hf & Hcb). apply Hno. exists r0, ro.
    now rewrite <- Hheap. }
  destruct (close_post depth t st1) as (Hp & Hq & _). fold r in Hp, Hq.
  split; [now apply Hq|]. split; [exact Hp|]. split.
  - intros Hquiet. unfold r. rewrite close_unfold. set (st0 := set_queue _ _).
    assert (Hq0 : quiet st0 t) by (unfold quiet in *; simpl; now rewrite Hheap).
    pose proof (task_close_quiet (close depth) t st0 Hq0) as Hok.
    pose proof (task_close_teardown cancelled (close depth)
                  (close_teardown depth) t st0) as T.
    unfold bind. destruct (body.task_close (close depth) t st0) as [[[]|e] st2];
      [|discriminate]. simpl in T.
    apply finalize_external_returns. intros f Hf.
    destruct T as (_ & _ & _ & (S & _) & _). apply S in Hf. simpl in Hf.
    exists name. congruence.
  - intros Hok. destruct (close (S depth) t st1) as [[[]|e] st2] eqn:E;
      [|discriminate].
    unfold r. simpl. rewrite <- Hcalls.
    now apply (close_calls_finalizer (S depth) st1 t (FinExt name) st2).
Qed.

Lemma schedule_close_roundtrip_witness :
  let st := scenario.fresh_task in
  let st1 := (schedule 1%nat VNone None (Some (FinExt "on_exit")) st).2 in
  ~ awaits_race st 1%nat /\
  schedule 1%nat VNone None (Some (FinExt "on_exit")) st = (Ok tt, st1) /\
  quiet st 1%nat /\
  let r := close 2 1%nat st1 in
  r.1 = Ok tt /\
  entries_of 1%nat (queue r.2) = [] /\
  (forall iface tasks, paused r.2 !! iface = Some tasks -> 1%nat ∉ tasks) /\
  calls_to 1%nat (fin_calls r.2)
  = calls_to 1%nat (fin_calls st) ++ [(FinExt "on_exit", 1%nat, VExc GeneratorExit)].
Proof.
  intros st st1.
  assert (Hno : ~ awaits_race st 1%nat).
  { intros (r0 & ro & Hr & _). unfold st, scenario.fresh_task in Hr. simpl in Hr.
    destruct (decide (r0 = 1%nat)) as [->|Hne].
    - rewrite lookup_insert_eq in Hr. discriminate.
    - rewrite lookup_insert_ne in Hr by auto. discriminate. }
  assert (Hs : schedule 1%nat VNone None (Some (FinExt "on_exit")) st = (Ok tt, st1))
    by (vm_compute; reflexivity).
  assert (Hquiet : quiet st 1%nat) by exact I.
  destruct (schedule_close_roundtrip 1 st st1 1%nat VNone None "on_exit" Hno Hs)
    as (Hq & Hp & Hret & Hcall).
  split; [exact Hno|]. split; [exact Hs|]. split; [exact Hquiet|].
  intros r. split; [exact (Hret Hquiet)|]. split; [exact Hq|]. split; [exact Hp|].
  exact (Hcall (Hret Hquiet)).
Defined.

(** Scenario "closed while racing": task 1 awaits [race(child)] and the
    child is still due.  After [schedule(task 1, finalizer)] and
    [close(task 1)], the clean-up of [race.__iter__] has closed the child,
    whose finalizer [race._finish] took the race as finished by this child
    and scheduled the caller: task 1 is in the timed queue again, with
    [GeneratorExit] as its value. *)
Lemma schedule_close_requeues_caller_of_race :
  let st := scenario.awaiting_race in
  let r := (schedule 1%nat VNone None (Some (FinExt "on_exit")) ;; close 4 1%nat) st in
  heap st !! 0%nat = Some (ORace (mk_race [2%nat] [2%nat] false (Some 1%nat))) /\
  queue st = [(0, 2%nat, VNone)] /\
  r.1 = Ok tt /\
  queue r.2 = [(0, 1%nat, VExc GeneratorExit)] /\
  entries_of 1%nat (queue r.2) <> [] /\
  fin_calls r.2 = [(FinRace 0%nat, 2%nat, VExc GeneratorExit);
                   (FinExt "on_exit", 1%nat, VExc GeneratorExit)].
Proof. vm_compute. repeat split; try reflexivity. discriminate. Qed.

(** ** When [run] returns *)

Lemma run_finished_inv depth polls st st' :
  run depth polls st = (Ok Finished, st') -> queue st' = [] /\ paused st' = ∅.
Proof.
  revert st. induction polls as [|p polls IH]; intros st; simpl;
    destruct (utimeq.nonempty st || paused_nonempty st) eqn:Htest.
  - discriminate.
  - intros [= <-]. apply orb_false_elim in Htest as [Hq Hp].
    unfold utimeq.nonempty in Hq. unfold paused_nonempty in Hp.
    apply bool_decide_eq_false in Hp.
    split; [now destruct (queue st)|]. destruct (decide (paused st = ∅)); tauto.
  - unfold bind. destruct (run_turn depth p st) as [[[]|e] st1]; [apply IH|discriminate].
  - intros [= <-]. apply orb_false_elim in Htest as [Hq Hp].
    unfold utimeq.nonempty in Hq. unfold paused_nonempty in Hp.
    apply bool_decide_eq_false in Hp.
    split; [now destruct (queue st)|]. destruct (decide (paused st = ∅)); tauto.
Qed.

Lemma leave_all_keeps_keys depth evs st :
  dom (paused (leave_all depth evs st)) = dom (paused st).
Proof.
  apply paused_shrinks_dom. now destruct (leave_all_teardown depth evs st) as (_ & P & _).
Qed.

(** C9, amended: [run] returns only from a state in which the timed queue
    has no entry and the paused table has no key, and it does return from
    such a state.  Tasks leaving the system (termination, fault, [close],
    with all the clean-up these run) discard tasks from the paused sets but
    never remove a key: the table has the same keys afterwards.  A table with
    a key, be its set empty, keeps the loop going: with nothing due and a
    silent driver [run] is still polling, however long the driver is
    asked. *)
Theorem run_returns_without_keys (depth : nat) (polls : list poll) (st : state) :
  (forall st', run depth polls st = (Ok Finished, st') ->
               queue st' = [] /\ paused st' = ∅) /\
  (queue st = [] -> paused st = ∅ -> run depth polls st = (Ok Finished, st)) /\
  (forall evs, dom (paused (leave_all depth evs st)) = dom (paused st)) /\
  (queue st = [] -> paused st <> ∅ -> synthetic_events st = [] ->
   Forall (fun p => message p = None) polls ->
   (run depth polls st).1 = Ok Polling).
Proof.
  split; [intros st'; apply run_finished_inv|].
  split; [apply run_empty|].
  split; [intros evs; apply leave_all_keeps_keys|].
  intros Hq Hp Hs Hall. now destruct (run_idle depth polls st Hq Hp Hs Hall).
Qed.

(** The claim C9 as it is worded fails after a [close]: task 1 awaited
    [wait(7)] and was closed.  Its finalizer has run, no task is left in any
    table, the clean-up of [wait.__iter__] has discarded the wait object
    from the set of interface 7, and yet the table has the key 7: [run]
    does not return, as long as the driver stays silent. *)
Lemma run_keeps_polling_after_close :
  let st := scenario.waited_then_closed in
  queue st = [] /\
  paused st = {[ 7 := ∅ ]} /\
  finalizers st = ∅ /\
  fin_calls st = [(FinExt "on_exit", 1%nat, VExc GeneratorExit)] /\
  heap st !! 1%nat = Some (OGen GFinished) /\
  ~ (exists n, (run 4 (replicate n (scenario.idle 1000000)) st).1 = Ok Finished).
Proof.
  intros st.
  assert (Hq : queue st = []) by (vm_compute; reflexivity).
  assert (Hp : paused st = {[ 7 := ∅ ]}) by (vm_compute; reflexivity).
  split; [exact Hq|]. split; [exact Hp|].
  split; [vm_compute; reflexivity|]. split; [vm_compute; reflexivity|].
  split; [vm_compute; reflexivity|].
  intros [n Hn].
  destruct (run_idle 4 (replicate n (scenario.idle 1000000)) st Hq) as (Hr & _).
  - rewrite Hp. intros E. apply (f_equal (fun m => m !! 7)) in E.
    rewrite lookup_singleton_eq, lookup_empty in E. discriminate.
  - reflexivity.
  - apply Forall_replicate. reflexivity.
  - rewrite Hr in Hn. discriminate.
Qed.

(** ** [race] *)

Lemma closed_stable ok st st' c :
  teardown ok st st' -> closed st c -> closed st' c.
Proof.
  intros (H & P & _ & (S & _) & _) (Hf & Hp & Hg). split; [|split].
  - destruct (finalizers st' !! c) eqn:E; [|reflexivity]. apply S in E. congruence.
  - eapply paused_shrinks_absent; eassumption.
  - intros g Hc. specialize (H c). rewrite Hc in H.
    destruct (heap st !! c) as [[g0| | | |r|ch| |]|] eqn:E; simpl in H;
      try discriminate;
      try (destruct H as (? & ? & _); discriminate);
      try (destruct H as (? & ?); discriminate).
    specialize (Hg g0 eq_refl). subst g0. simpl in H. congruence.
Qed.

Lemma close_closes depth c st st' :
  close depth c st = (Ok tt, st') -> closed st' c.
Proof.
  intros Hc. destruct depth as [|depth]; [discriminate|].
  destruct (close_post depth c st) as (Hp & _ & Hpost).
  pose proof (close_teardown (S depth) c st) as (H & _).
  rewrite Hc in Hp, Hpost, H. cbn [fst snd] in Hp, Hpost, H.
  destruct (Hpost eq_refl) as (Hf & Hg).
  split; [exact Hf|]. split; [exact Hp|].
  intros g Hc'. specialize (H c). rewrite Hc' in H.
  destruct (heap st !! c) as [[g0| | | |r|ch| |]|] eqn:E; simpl in H;
    try discriminate;
    try (destruct H as (? & ? & _); discriminate);
    try (destruct H as (? & ?); discriminate).
  specialize (Hg g0 eq_refl). congruence.
Qed.

Lemma exit_loop_teardown depth except_for tasks st :
  teardown cancelled st (exit_loop depth except_for tasks st).2.
Proof.
  apply for_each_teardown. intros t st0.
  destruct (decide _); [apply teardown_refl|apply close_teardown].
Qed.

Lemma exit_loop_closes depth child tasks st st' :
  exit_loop depth (Some child) tasks st = (Ok tt, st') ->
  forall c, c ∈ tasks -> c <> child -> closed st' c.
Proof.
  revert st. induction tasks as [|t tasks IH]; intros st Hloop c Hin Hne.
  - now apply elem_of_nil in Hin.
  - unfold exit_loop in Hloop. cbn [for_each] in Hloop. unfold bind at 1 in Hloop.
    destruct ((if decide (Some t = Some child) then ret tt else close depth t) st)
      as [[[]|e] st1] eqn:E1; [|discriminate].
    fold (exit_loop depth (Some child) tasks st1) in Hloop.
    destruct (decide (c ∈ tasks)) as [Hin'|Hin']; [now apply (IH st1)|].
    apply elem_of_cons in Hin as [->|Hin]; [|contradiction].
    destruct (decide (Some t = Some child)) as [[= ->]|_]; [contradiction|].
    eapply closed_stable.
    + pose proof (exit_loop_teardown depth (Some child) tasks st1) as T.
      rewrite Hloop in T. exact T.
    + eapply close_closes. exact E1.
Qed.

Lemma bind_congr {A B} (m1 m2 : M A) (k : A -> M B) st :
  m1 st = m2 st -> bind m1 k st = bind m2 k st.
Proof. intros E. unfold bind. now rewrite E. Qed.

Lemma finalize_race_unfold depth st self ro child result :
  heap st !! self = Some (ORace ro) ->
  finished ro = false ->
  finalizers st !! child = Some (FinRace self) ->
  finalize depth child result st
  = (exit_loop depth (Some child) (scheduled ro) ;;
     r <- race.get self ;
     match race_callback r with
     | Some cb => schedule cb result None None
     | None => raise AttributeError
     end)
      (set_obj self (ORace (mk_race (children ro) (scheduled ro) true (race_callback ro)))
         (set_fin_calls (fin_calls st ++ [(FinRace self, child, result)])
            (set_finalizers (delete child (finalizers st)) st))).
Proof.
  intros Hr Hf Hreg.
  unfold finalize, body.finalize, bind at 1, get_state. rewrite Hreg.
  unfold bind at 1, modify. unfold bind at 1.
  set (st1 := set_fin_calls _ (set_finalizers _ st)).
  assert (Hr1 : heap st1 !! self = Some (ORace ro)) by exact Hr.
  unfold race._finish. rewrite (bind_ok _ _ _ _ _ (race_get_ok _ _ _ Hr1)), Hf.
  rewrite (bind_ok _ _ _ _ _ (race_update_ok _ _ _ _ Hr1)).
  set (st2 := set_obj self _ st1).
  apply bind_congr. unfold race.exit.
  assert (Hr2 : heap st2 !! self
                = Some (ORace (mk_race (children ro) (scheduled ro) true (race_callback ro))))
    by apply lookup_insert_eq.
  now rewrite (bind_ok _ _ _ _ _ (race_get_ok _ _ _ Hr2)).
Qed.

(** Closing a quiet task with a benign finalizer returns, touches no other
    object and does not lengthen the queue. *)
Lemma task_close_quiet_effect cl t st :
  quiet st t ->
  exists st1, body.task_close cl t st = (Ok tt, st1) /\
              queue st1 = queue st /\ finalizers st1 = finalizers st /\
              (forall c, c <> t -> heap st1 !! c = heap st !! c) /\
              (heap st1 !! t = heap st !! t \/ heap st1 !! t = Some (OGen GFinished)).
Proof.
  unfold quiet, body.task_close, get_obj, bind. simpl.
  destruct (heap st !! t) as [[[body|k| |]| | |w| | | |]|] eqn:E; simpl;
    try contradiction;
    try (unfold generator.close, generator.get, get_obj, bind; rewrite E; simpl).
  - intros _. eexists. split; [reflexivity|]. simpl.
    split; [reflexivity|]. split; [reflexivity|]. split.
    + intros c Hc. now rewrite lookup_insert_ne.
    + right. apply lookup_insert_eq.
  - intros Hk.
    assert (Hrun : exists o, generator.run_coro cl (k (Throw GeneratorExit))
                               (set_obj t (OGen GRunning) st)
                             = (o, set_obj t (OGen GRunning) st) /\
                             (o = Raised GeneratorExit \/ exists v, o = Returned v)).
    { destruct (k (Throw GeneratorExit)) as [v|[]| |]; try contradiction;
        eexists; (split; [reflexivity|eauto]). }
    destruct Hrun as (o & -> & [->|[v ->]]); simpl;
      (eexists; split; [reflexivity|]; simpl;
       split; [reflexivity|]; split; [reflexivity|]; split;
       [intros c Hc; now rewrite !lookup_insert_ne|right; apply lookup_insert_eq]).
  - intros _. exists st. repeat split; auto.
  - intros _. exists st. repeat split; auto.
Qed.

Lemma finalize_benign_effect cl t value st :
  benign st t ->
  exists st1, body.finalize cl t value st = (Ok tt, st1) /\
              queue st1 = queue st /\ heap st1 = heap st /\
              (forall c f, finalizers st1 !! c = Some f -> finalizers st !! c = Some f).
Proof.
  unfold benign, body.finalize, bind, get_state, modify.
  destruct (finalizers st !! t) as [[r|name]|] eqn:E; simpl.
  - intros (ro & Hr & Hf). unfold race._finish.
    rewrite (bind_ok _ _ _ _ _
               (race_get_ok (set_fin_calls _ (set_finalizers _ st)) r ro Hr)), Hf.
    eexists. split; [reflexivity|]. simpl. repeat split.
    intros c f [_ H]%lookup_delete_Some. exact H.
  - intros _. eexists. split; [reflexivity|]. simpl. repeat split.
    intros c f [_ H]%lookup_delete_Some. exact H.
  - intros _. exists st. repeat split; auto.
Qed.

Lemma close_quiet_effect depth t st :
  quiet st t -> benign st t ->
  exists st', close (S depth) t st = (Ok tt, st') /\
              (length (queue st') <= length (queue st))%nat /\
              (forall c, c <> t -> heap st' !! c = heap st !! c) /\
              (heap st' !! t = heap st !! t \/ heap st' !! t = Some (OGen GFinished)) /\
              (forall c f, finalizers st' !! c = Some f -> finalizers st !! c = Some f).
Proof.
  intros Hq Hb. rewrite close_unfold. set (st0 := set_queue _ _).
  destruct (task_close_quiet_effect (close depth) t st0 Hq)
    as (st1 & E1 & Hq1 & Hf1 & Hh1 & Ht1).
  rewrite (bind_ok _ _ _ _ _ E1).
  assert (Hb1 : benign st1 t).
  { unfold benign in *. rewrite Hf1. simpl.
    destruct (finalizers st !! t) as [[r|]|]; auto.
    destruct Hb as (ro & Hr & Hfin). exists ro. split; [|exact Hfin].
    rewrite Hh1; [exact Hr|]. intros ->. unfold quiet in Hq. now rewrite Hr in Hq. }
  destruct (finalize_benign_effect (close depth) t (VExc GeneratorExit) st1 Hb1)
    as (st2 & E2 & Hq2 & Hh2 & Hf2).
  exists st2. split; [exact E2|]. split; [|split; [|split]].
  - rewrite Hq2, Hq1. unfold st0. simpl. apply length_filter.
  - intros c Hc. rewrite Hh2. now apply Hh1.
  - rewrite Hh2. exact Ht1.
  - intros c f Hc. apply Hf2 in Hc. now rewrite Hf1 in Hc.
Qed.

Lemma quiet_after st st' t c :
  (forall c, c <> t -> heap st' !! c = heap st !! c) ->
  (heap st' !! t = heap st !! t \/ heap st' !! t = Some (OGen GFinished)) ->
  quiet st c -> quiet st' c.
Proof.
  intros Hh Ht. unfold quiet. destruct (decide (c = t)) as [->|Hne].
  - destruct Ht as [-> | ->]; auto.
  - now rewrite Hh.
Qed.

Lemma benign_after st st' t c :
  quiet st t ->
  (forall c, c <> t -> heap st' !! c = heap st !! c) ->
  (forall c f, finalizers st' !! c = Some f -> finalizers st !! c = Some f) ->
  benign st c -> benign st' c.
Proof.
  intros Hq Hh Hf. unfold benign.
  destruct (finalizers st' !! c) as [[r|]|] eqn:E; auto.
  rewrite (Hf _ _ E). intros (ro & Hr & Hfin). exists ro. split; [|exact Hfin].
  rewrite Hh; [exact Hr|]. intros ->. unfold quiet in Hq. now rewrite Hr in Hq.
Qed.

Lemma exit_loop_quiet depth child tasks st :
  (forall c, c ∈ tasks -> c <> child -> quiet st c /\ benign st c) ->
  exists st', exit_loop (S depth) (Some child) tasks st = (Ok tt, st') /\
              (length (queue st') <= length (queue st))%nat.
Proof.
  revert st. induction tasks as [|t tasks IH]; intros st Hall.
  - exists st. split; [reflexivity|lia].
  - unfold exit_loop. cbn [for_each].
    destruct (decide (Some t = Some child)) as [[= ->]|Hne].
    + destruct (IH st) as (st' & E & Hlen).
      { intros c Hc. apply Hall. now right. }
      exists st'. split; [exact E|exact Hlen].
    + assert (Hne' : t <> child) by congruence.
      destruct (Hall t (list_elem_of_here _ _) Hne') as [Hq Hb].
      destruct (close_quiet_effect depth t st Hq Hb)
        as (st1 & E1 & Hlen1 & Hh & Ht & Hf).
      rewrite (bind_ok _ _ _ _ _ E1).
      destruct (IH st1) as (st' & E & Hlen).
      { intros c Hc Hcne.
        destruct (Hall c (list_elem_of_further _ _ _ Hc) Hcne) as [Hqc Hbc].
        split; [exact (quiet_after st st1 t c Hh Ht Hqc)|].
        exact (benign_after st st1 t c Hq Hh Hf Hbc). }
      exists st'. split; [exact E|lia].
Qed.
(** C3: [child] is a scheduled child of the race [self], which has not
    finished and whose caller is [caller]; no other unfinished race has the
    same caller.  The child finalizes with [result].

    - The race is marked as finished, whatever happens next.
    - When the finalization returns, every other scheduled child has been
      closed, and the timed queue is what was left of it with one entry
      added, [(now, caller, result)]: of the entries for [caller], all but
      this one were there before.
    - The finalization does return when the other children are quiet tasks
      whose finalizers, if they are of a race, are of this race, and the
      queue is not full.
    - Whatever tasks leave the system afterwards, among them the children
      that were closed, the queue gets no further entry for [caller]. *)
Theorem race_resumes_caller_once (depth : nat) (st : state) (self : ref)
        (ro : race_obj) (child caller : ref) (result : pyval) :
  heap st !! self = Some (ORace ro) ->
  finished ro = false ->
  race_callback ro = Some caller ->
  finalizers st !! child = Some (FinRace self) ->
  (forall r' ro', r' <> self -> heap st !! r' = Some (ORace ro') ->
                  race_callback ro' = Some caller -> finished ro' = true) ->
  let r := finalize (S depth) child result st in
  (exists ro', heap r.2 !! self = Some (ORace ro') /\ finished ro' = true) /\
  (r.1 = Ok tt ->
   (exists q, queue r.2 = utimeq.insert (clock st, caller, result) q /\
              entries_of caller q `sublist_of` entries_of caller (queue st)) /\
   (forall c, c ∈ scheduled ro -> c <> child -> closed r.2 c)) /\
  ((forall c, c ∈ scheduled ro -> c <> child ->
              quiet st c /\
              (forall r', finalizers st !! c = Some (FinRace r') -> r' = self)) ->
   (length (queue st) < utimeq.capacity)%nat ->
   r.1 = Ok tt) /\
  (forall evs,
      entries_of caller (queue (leave_all (S depth) evs r.2))
        `sublist_of` entries_of caller (queue r.2)).
Proof.
  intros Hr Hf Hcb Hreg Hothers r.
  unfold r. rewrite (finalize_race_unfold _ _ _ _ _ _ Hr Hf Hreg).
  set (st2 := set_obj self _ _).
  assert (Hr2 : heap st2 !! self
                = Some (ORace (mk_race (children ro) (scheduled ro) true (race_callback ro))))
    by apply lookup_insert_eq.
  assert (Hno2 : ~ awaits_race st2 caller).
  { intros (r' & ro' & Hr' & Hf' & Hcb'). destruct (decide (r' = self)) as [->|Hne].
    - rewrite Hr2 in Hr'. injection Hr' as <-. discriminate.
    - unfold st2 in Hr'. simpl in Hr'. rewrite lookup_insert_ne in Hr' by auto.
      rewrite (Hothers r' ro' Hne Hr' Hcb') in Hf'. discriminate. }
  pose proof (exit_loop_teardown (S depth) (Some child) (scheduled ro) st2) as T23.
  assert (Hlater : forall st4, heap st4 = heap (exit_loop (S depth) (Some child) (scheduled ro) st2).2 ->
             forall evs, entries_of caller (queue (leave_all (S depth) evs st4))
                           `sublist_of` entries_of caller (queue st4)).
  { intros st4 Hh evs.
    destruct (leave_all_teardown (S depth) evs st4) as (_ & _ & Q & _).
    apply Q. intros (r' & ro' & Hr' & Hrest). rewrite Hh in Hr'.
    apply Hno2. eapply awaits_race_back; [apply T23|]. now exists r', ro'. }
  destruct (exit_loop (S depth) (Some child) (scheduled ro) st2) as [[[]|e] st3] eqn:Eloop;
    cbn [fst snd] in T23, Hlater.
  2:{ (* a child could not be closed *)
    rewrite (bind_exc _ _ _ _ _ Eloop). cbn [fst snd].
    split; [|split; [discriminate|split; [|now apply Hlater]]].
    - destruct T23 as (H & _).
      destruct (heap_evolves_race _ _ _ _ H Hr2) as (ro' & Hr' & _ & _ & _ & Hf').
      exists ro'. split; [exact Hr'|now apply Hf'].
    - intros Hquiet _. exfalso.
      destruct (exit_loop_quiet depth child (scheduled ro) st2) as (st' & E & _);
        [|congruence].
      intros c Hc Hne. destruct (Hquiet c Hc Hne) as [Hq Hfin].
      assert (Hcs : c <> self) by (intros ->; unfold quiet in Hq; now rewrite Hr in Hq).
      split.
      + unfold quiet, st2. simpl. now rewrite lookup_insert_ne by auto.
      + unfold benign, st2. simpl. rewrite lookup_delete_ne by auto.
        destruct (finalizers st !! c) as [[r'|]|] eqn:E'; auto.
        rewrite (Hfin r' eq_refl). eexists. split; [apply lookup_insert_eq|reflexivity]. }
  rewrite (bind_ok _ _ _ _ _ Eloop).
  destruct T23 as (H23 & P23 & Q23 & F23 & C23).
  destruct (heap_evolves_race _ _ _ _ H23 Hr2) as (ro3 & Hr3 & _ & _ & Hcb3 & Hf3).
  simpl in Hcb3, Hf3. specialize (Hf3 eq_refl).
  rewrite (bind_ok _ _ _ _ _ (race_get_ok _ _ _ Hr3)), Hcb3, Hcb.
  assert (Hclosed : forall c, c ∈ scheduled ro -> c <> child -> closed st3 c)
    by (eapply exit_loop_closes; exact Eloop).
  assert (Hsub : entries_of caller (queue st3) `sublist_of` entries_of caller (queue st))
    by (apply (Q23 caller Hno2)).
  destruct (Nat.le_gt_cases utimeq.capacity (length (queue st3))) as [Hlen|Hlen].
  - (* no room for the caller *)
    rewrite schedule_plain_full by exact Hlen. cbn [fst snd].
    split; [eauto|]. split; [discriminate|]. split; [|now apply Hlater].
    intros Hquiet Hroom. exfalso.
    destruct (exit_loop_quiet depth child (scheduled ro) st2) as (st' & E & Hlen').
    + intros c Hc Hne. destruct (Hquiet c Hc Hne) as [Hq Hfin].
      assert (Hcs : c <> self) by (intros ->; unfold quiet in Hq; now rewrite Hr in Hq).
      split.
      * unfold quiet, st2. simpl. now rewrite lookup_insert_ne by auto.
      * unfold benign, st2. simpl. rewrite lookup_delete_ne by auto.
        destruct (finalizers st !! c) as [[r'|]|] eqn:E'; auto.
        rewrite (Hfin r' eq_refl). eexists. split; [apply lookup_insert_eq|reflexivity].
    + rewrite Eloop in E. injection E as <-. simpl in Hlen'. lia.
  - rewrite schedule_plain_ok by exact Hlen. cbn [fst snd].
    split; [eauto|]. split; [|split; [reflexivity|now apply Hlater]].
    intros _. split.
    + exists (queue st3). split; [|exact Hsub]. simpl. now rewrite C23.
    + exact Hclosed.
Qed.
Lemma race_resumes_caller_once_witness :
  let st := scenario.racing_pair in
  let ro := mk_race [2%nat; 3%nat] [2%nat; 3%nat] false (Some 1%nat) in
  heap st !! 0%nat = Some (ORace ro) /\
  finished ro = false /\
  race_callback ro = Some 1%nat /\
  finalizers st !! 2%nat = Some (FinRace 0%nat) /\
  (forall r' ro', r' <> 0%nat -> heap st !! r' = Some (ORace ro') ->
                  race_callback ro' = Some 1%nat -> finished ro' = true) /\
  (forall c, c ∈ scheduled ro -> c <> 2%nat ->
             quiet st c /\
             (forall r', finalizers st !! c = Some (FinRace r') -> r' = 0%nat)) /\
  (length (queue st) < utimeq.capacity)%nat /\
  let r := finalize 3 2%nat (VInt 2) st in
  r.1 = Ok tt /\
  (exists ro', heap r.2 !! 0%nat = Some (ORace ro') /\ finished ro' = true) /\
  (exists q, queue r.2 = utimeq.insert (clock st, 1%nat, VInt 2) q /\
             entries_of 1%nat q `sublist_of` entries_of 1%nat (queue st)) /\
  (forall c, c ∈ scheduled ro -> c <> 2%nat -> closed r.2 c) /\
  (forall evs,
      entries_of 1%nat (queue (leave_all 3 evs r.2))
        `sublist_of` entries_of 1%nat (queue r.2)).
Proof.
  intros st ro.
  assert (Hr : heap st !! 0%nat = Some (ORace ro)) by (vm_compute; reflexivity).
  assert (Hreg : finalizers st !! 2%nat = Some (FinRace 0%nat)) by (vm_compute; reflexivity).
  assert (Hothers : forall r' ro', r' <> 0%nat -> heap st !! r' = Some (ORace ro') ->
                                   race_callback ro' = Some 1%nat -> finished ro' = true).
  { intros r' ro' Hne Hr' _. exfalso.
    assert (Hall : map_Forall (fun r' o => r' <> 0%nat -> is_Syscall o = false) (heap st)).
    { apply map_Forall_to_list. vm_compute. repeat constructor; congruence. }
    specialize (Hall r' _ Hr' Hne). discriminate. }
  assert (Hquiet : forall c, c ∈ scheduled ro -> c <> 2%nat ->
             quiet st c /\
             (forall r', finalizers st !! c = Some (FinRace r') -> r' = 0%nat)).
  { intros c Hc Hne. simpl in Hc.
    apply elem_of_cons in Hc as [->|Hc]; [contradiction|].
    apply list_elem_of_singleton in Hc as ->.
    split; [vm_compute; exact I|]. vm_compute. congruence. }
  assert (Hroom : (length (queue st) < utimeq.capacity)%nat) by (vm_compute; lia).
  destruct (race_resumes_caller_once 2 st 0%nat ro 2%nat 1%nat (VInt 2)
              Hr eq_refl eq_refl Hreg Hothers) as (Hfin & Hok & Hret & Hlater).
  split; [exact Hr|]. split; [reflexivity|]. split; [reflexivity|].
  split; [exact Hreg|]. split; [exact Hothers|]. split; [exact Hquiet|].
  split; [exact Hroom|]. intros r.
  pose proof (Hret Hquiet Hroom) as Hres.
  split; [exact Hres|]. split; [exact Hfin|].
  destruct (Hok Hres) as [Hq Hc]. split; [exact Hq|]. split; [exact Hc|exact Hlater].
Defined.

(** Scenario "race picks the winner": the caller awaits a race of two
    tasks.  [run] steps the first child, which returns 2: the race closes the
    second child and schedules the caller with 2; the caller is resumed,
    returns it, and its finalizer gets it; the second child never
    runs. *)
Example race_winner_scenario :
  let r := run 8 [scenario.idle 0; scenario.idle 0; scenario.idle 0]
               scenario.racing_pair in
  r.1 = Ok Finished /\
  queue r.2 = [] /\
  fin_calls r.2 = [(FinRace 0%nat, 2%nat, VInt 2);
                   (FinRace 0%nat, 3%nat, VExc GeneratorExit);
                   (FinExt "on_exit", 1%nat, VInt 2)] /\
  heap r.2 !! 0%nat
  = Some (ORace (mk_race [2%nat; 3%nat] [2%nat; 3%nat] true (Some 1%nat))) /\
  heap r.2 !! 3%nat = Some (OGen GFinished).
Proof. vm_compute. repeat split; reflexivity. Qed.

(** ** What the scheduler leaves alone *)

Lemma keeps_ret {T A} (f : state -> T) (a : A) : keeps f (ret a).
Proof. intros st. reflexivity. Qed.

Lemma keeps_raise {T A} (f : state -> T) (e : exn) : keeps f (@raise A e).
Proof. intros st. reflexivity. Qed.

Lemma keeps_bind {T A B} (f : state -> T) (m : M A) (k : A -> M B) :
  keeps f m -> (forall a, keeps f (k a)) -> keeps f (bind m k).
Proof.
  intros Hm Hk st. unfold bind. specialize (Hm st).
  destruct (m st) as [[a|e] st']; simpl in *; [|exact Hm].
  now rewrite Hk.
Qed.

Lemma keeps_modify {T} (f : state -> T) (g : state -> state) :
  (forall st, f (g st) = f st) -> keeps f (modify g).
Proof. intros H st. apply H. Qed.

Lemma keeps_for_each {T A} (f : state -> T) (xs : list A) (body : A -> M unit) :
  (forall x, keeps f (body x)) -> keeps f (for_each xs body).
Proof.
  intros H. induction xs as [|x xs IH]; simpl.
  - apply keeps_ret.
  - apply keeps_bind; [apply H|intros _; exact IH].
Qed.

Lemma keeps_get_obj {T} (f : state -> T) r : keeps f (get_obj r).
Proof. intros st. reflexivity. Qed.

Lemma keeps_get_state {T} (f : state -> T) : keeps f get_state.
Proof. intros st. reflexivity. Qed.

Lemma keeps_ticks_us {T} (f : state -> T) : keeps f utime.ticks_us.
Proof. intros st. reflexivity. Qed.

Lemma keeps_wait_getattr {T} (f : state -> T) name : keeps f (wait.getattr name).
Proof. intros st. unfold wait.getattr. now destruct (wait.class_attr name). Qed.

Lemma keeps_assert {T} (f : state -> T) cond : keeps f (assert_ cond).
Proof. intros st. unfold assert_. now destruct (debug st && negb cond). Qed.

Create HintDb keeps.
#[local] Hint Resolve keeps_ret keeps_raise keeps_get_obj keeps_get_state keeps_ticks_us
  keeps_wait_getattr keeps_assert : keeps.

(** Splits a computation along its [bind]s and case distinctions. *)
Ltac keeps_step :=
  first
    [ solve [auto with keeps]
    | match goal with
      | |- keeps _ (bind _ _) => apply keeps_bind; [|intros ?]
      | |- keeps _ (for_each _ _) => apply keeps_for_each; intros ?
      | |- keeps _ (match ?x with _ => _ end) => destruct x
      | |- keeps _ (if ?b then _ else _) => destruct b
      end ].

Section Frame.
Context {T : Type} (f : state -> T).
Hypothesis f_queue : forall q st, f (set_queue q st) = f st.
Hypothesis f_paused : forall p st, f (set_paused p st) = f st.
Hypothesis f_finalizers : forall fs st, f (set_finalizers fs st) = f st.
Hypothesis f_heap : forall h st, f (set_heap h st) = f st.
Hypothesis f_fin_calls : forall l st, f (set_fin_calls l st) = f st.

Lemma f_obj r o st : f (set_obj r o st) = f st.
Proof. apply f_heap. Qed.

Lemma keeps_set_obj r o : keeps f (modify (set_obj r o)).
Proof. apply keeps_modify. intros st. apply f_obj. Qed.

Lemma keeps_push deadline task value : keeps f (utimeq.push deadline task value).
Proof.
  intros st. unfold utimeq.push.
  destruct (utimeq.capacity <=? length (queue st))%nat; [reflexivity|apply f_queue].
Qed.

Lemma keeps_discard task : keeps f (utimeq.discard task).
Proof. apply keeps_modify. intros st. apply f_queue. Qed.

Lemma keeps_pop : keeps f utimeq.pop.
Proof. intros st. unfold utimeq.pop. destruct (queue st); [reflexivity|apply f_queue]. Qed.

Lemma keeps_peektime : keeps f utimeq.peektime.
Proof. intros st. unfold utimeq.peektime. now destruct (queue st). Qed.

Lemma keeps_schedule task value deadline fin : keeps f (schedule task value deadline fin).
Proof.
  unfold schedule. apply keeps_bind; [destruct deadline; auto with keeps|intros d].
  apply keeps_bind; [|intros _; apply keeps_push].
  destruct fin; [|apply keeps_ret]. apply keeps_modify. intros st. apply f_finalizers.
Qed.

Lemma keeps_pause task iface : keeps f (pause task iface).
Proof. apply keeps_modify. intros st. apply f_paused. Qed.

Lemma keeps_paused_discard iface task : keeps f (paused_discard iface task).
Proof.
  intros st. unfold paused_discard. destruct (paused st !! iface); [apply f_paused|reflexivity].
Qed.

Lemma keeps_paused_pop iface : keeps f (paused_pop iface).
Proof.
  intros st. unfold paused_pop. destruct (paused st !! iface); [apply f_paused|reflexivity].
Qed.

Lemma keeps_alloc o : keeps f (alloc o).
Proof. intros st. apply f_obj. Qed.

Lemma keeps_wait_get self : keeps f (wait.get self).
Proof. unfold wait.get. repeat keeps_step. Qed.

Lemma keeps_race_get self : keeps f (race.get self).
Proof. unfold race.get. repeat keeps_step. Qed.

Lemma keeps_chan_get self : keeps f (chan.get self).
Proof. unfold chan.get. repeat keeps_step. Qed.

Lemma keeps_generator_get self : keeps f (generator.get self).
Proof. unfold generator.get. repeat keeps_step. Qed.

Lemma keeps_race_update self g : keeps f (race.update self g).
Proof.
  unfold race.update. apply keeps_bind; [apply keeps_race_get|intros r].
  apply keeps_set_obj.
Qed.

Lemma keeps_chan_set self c : keeps f (chan.set self c).
Proof. apply keeps_set_obj. Qed.

Hint Resolve keeps_set_obj keeps_push keeps_discard keeps_pop keeps_peektime
  keeps_schedule keeps_pause keeps_paused_discard keeps_paused_pop keeps_alloc
  keeps_wait_get keeps_race_get keeps_chan_get keeps_generator_get
  keeps_race_update keeps_chan_set : keeps.

(** *** The [handle] methods *)

Lemma keeps_sleep_handle self task : keeps f (sleep.handle self task).
Proof. unfold sleep.handle. repeat keeps_step. Qed.

Lemma keeps_wait_handle self task : keeps f (wait.handle self task).
Proof. unfold wait.handle. repeat keeps_step. Qed.

Lemma keeps_race_iter child : keeps f (race.iter child).
Proof. unfold race.iter. repeat keeps_step. Qed.

Lemma keeps_race_handle self task : keeps f (race.handle self task).
Proof.
  unfold race.handle, race.is_generator.
  pose proof keeps_race_iter. repeat keeps_step.
Qed.

Lemma keeps_schedule_put self putter value : keeps f (chan._schedule_put self putter value).
Proof. unfold chan._schedule_put. repeat keeps_step. Qed.

Lemma keeps_schedule_take self taker : keeps f (chan._schedule_take self taker).
Proof. unfold chan._schedule_take. repeat keeps_step. Qed.

Lemma keeps_put_handle self task : keeps f (chan.Put.handle self task).
Proof.
  unfold chan.Put.handle. pose proof keeps_schedule_put. repeat keeps_step.
Qed.

Lemma keeps_take_handle self task : keeps f (chan.Take.handle self task).
Proof.
  unfold chan.Take.handle. pose proof keeps_schedule_take. repeat keeps_step.
Qed.

Lemma keeps_syscall_handle result task : keeps f (body.syscall_handle result task).
Proof.
  unfold body.syscall_handle, Syscall.handle.
  pose proof keeps_sleep_handle. pose proof keeps_wait_handle.
  pose proof keeps_race_handle. pose proof keeps_put_handle.
  pose proof keeps_take_handle.
  repeat keeps_step.
Qed.

Lemma keeps_put_cleanup self put value : keeps f (chan.put_cleanup self put value).
Proof. unfold chan.put_cleanup. repeat keeps_step. Qed.

Lemma keeps_take_cleanup self take : keeps f (chan.take_cleanup self take).
Proof. unfold chan.take_cleanup. repeat keeps_step. Qed.

(** *** Closing and finalizing, over what [close] does to a task *)

Section Closing.
Context (cl : ref -> M unit).
Hypothesis cl_keeps : forall t, keeps f (cl t).

Lemma keeps_race_exit self except_for : keeps f (race.exit cl self except_for).
Proof. unfold race.exit. repeat keeps_step. Qed.

Lemma keeps_race_finish self task result : keeps f (race._finish cl self task result).
Proof.
  unfold race._finish. pose proof keeps_race_exit. repeat keeps_step.
Qed.

Lemma keeps_finalize task value : keeps f (body.finalize cl task value).
Proof.
  unfold body.finalize. pose proof keeps_race_finish.
  apply keeps_bind; [apply keeps_get_state|intros st0].
  destruct (finalizers st0 !! task) as [fn|]; [|apply keeps_ret].
  apply keeps_bind; [apply keeps_modify; intros st; apply f_finalizers|intros _].
  apply keeps_bind; [apply keeps_modify; intros st; apply f_fin_calls|intros _].
  destruct fn; auto with keeps.
Qed.

Lemma keeps_perform op : keeps f (generator.perform cl op).
Proof.
  pose proof keeps_race_exit. pose proof keeps_put_cleanup. pose proof keeps_take_cleanup.
  destruct op; simpl; repeat keeps_step.
Qed.

Lemma run_coro_keeps c st : f (generator.run_coro cl c st).2 = f st.
Proof.
  revert st. induction c as [v|e|y k _|op k IH]; intros st; simpl; try reflexivity.
  pose proof (keeps_perform op st) as Hp.
  destruct (generator.perform cl op st) as [[[]|e] st']; simpl in Hp;
    now rewrite IH.
Qed.

Lemma keeps_resume_with self c : keeps f (generator.resume_with cl self c).
Proof.
  intros st. unfold generator.resume_with.
  pose proof (run_coro_keeps c (set_obj self (OGen GRunning) st)) as H.
  destruct (generator.run_coro cl c _) as [[y k|v|e] st']; simpl in *;
    now rewrite f_obj, H, f_obj.
Qed.

Lemma keeps_generator_send self value : keeps f (generator.send cl self value).
Proof.
  unfold generator.send. pose proof keeps_resume_with. repeat keeps_step.
Qed.

Lemma keeps_generator_throw self exception : keeps f (generator.throw cl self exception).
Proof.
  unfold generator.throw. pose proof keeps_resume_with. repeat keeps_step.
Qed.

Lemma keeps_generator_close self : keeps f (generator.close cl self).
Proof.
  unfold generator.close.
  apply keeps_bind; [apply keeps_generator_get|intros g].
  destruct g as [body|k| |]; auto with keeps.
  intros st.
  pose proof (run_coro_keeps (k (Throw GeneratorExit)) (set_obj self (OGen GRunning) st)) as H.
  destruct (generator.run_coro cl _ _) as [[y k'|v|e] st']; simpl in *;
    now rewrite f_obj, H, f_obj.
Qed.

Lemma keeps_task_close task : keeps f (body.task_close cl task).
Proof.
  unfold body.task_close, wait.close. pose proof keeps_generator_close.
  repeat keeps_step.
Qed.

Lemma keeps_close_body task : keeps f (body.close cl task).
Proof.
  unfold body.close. pose proof keeps_task_close. pose proof keeps_finalize.
  apply keeps_bind; [apply keeps_modify; intros st; apply f_paused|intros _].
  repeat keeps_step.
Qed.
End Closing.

Lemma keeps_close depth task : keeps f (close depth task).
Proof.
  revert task. induction depth as [|d IH]; intros task; simpl.
  - apply keeps_raise.
  - now apply keeps_close_body.
Qed.

Lemma keeps_finalize_at depth task value : keeps f (finalize depth task value).
Proof. apply keeps_finalize. intros t. apply keeps_close. Qed.
End Frame.

(** ** Closing steps no task *)

(** X1: [close] and [finalize] resume no task.  Whatever clean-up clauses
    and finalizers they run, and whether they return or raise, nothing is
    written to the log, the after-step hook is not called, the clock is not
    advanced and no synthetic event is consumed: an exception that a task
    raises while it is closed is reported by nothing but the exception
    [close] itself may raise. *)
Theorem close_steps_no_task (depth : nat) (task : ref) (value : pyval) (st : state) :
  let untouched st' :=
    logged st' = logged st /\ hook_calls st' = hook_calls st /\
    clock st' = clock st /\ synthetic_events st' = synthetic_events st in
  untouched (close depth task st).2 /\
  untouched (finalize depth task value st).2.
Proof.
  intros untouched. unfold untouched. split.
  - repeat split; apply keeps_close; reflexivity.
  - repeat split; apply keeps_finalize_at; reflexivity.
Qed.

(** ** [_step]: what the task yields *)

Lemma syscall_handle_none st result task :
  yields_syscall st result = false ->
  body.syscall_handle result task st = (Ok None, st).
Proof.
  unfold yields_syscall, body.syscall_handle, get_obj, bind.
  destruct result as [| | |r| | | |]; try reflexivity; [|discriminate].
  destruct (heap st !! r) as [[]|]; simpl; try discriminate; reflexivity.
Qed.

(** X2: when the task yields something that is no [Syscall] ([None]
    included), [_step] logs the value in a debug build and raises
    [RuntimeError].  The task stays suspended where it yielded: it is
    neither rescheduled nor paused, its finalizer is not called, and the
    after-step hook is skipped. *)
Theorem step_rejects_non_syscall (depth : nat) (task : ref) (value result : pyval)
        (st st1 : state) :
  body.resume_task (_step depth) (close depth) task value st = (Ok (Yields result), st1) ->
  yields_syscall st1 result = false ->
  _step (S depth) task value st
  = (Exc RuntimeError,
     if debug st1
     then set_logged (logged st1 ++ [LogError "unknown syscall: %s" result]) st1
     else st1).
Proof.
  intros Hres Hno. cbn [_step]. unfold body._step. rewrite Hres.
  rewrite (bind_ok _ _ _ _ _ (syscall_handle_none st1 result task Hno)).
  unfold bind, log, raise. now destruct (debug st1).
Qed.

Lemma step_rejects_non_syscall_witness :
  let st := set_obj 1%nat (OGen (GUnstarted (Yield VNone (fun _ => Return VNone))))
                    (initial true) in
  let st1 := set_obj 1%nat (OGen (GSuspended (fun _ => Return VNone)))
                     (set_obj 1%nat (OGen GRunning) st) in
  body.resume_task (_step 0) (close 0) 1%nat VNone st = (Ok (Yields VNone), st1) /\
  yields_syscall st1 VNone = false /\
  _step 1 1%nat VNone st
  = (Exc RuntimeError,
     if debug st1
     then set_logged (logged st1 ++ [LogError "unknown syscall: %s" VNone]) st1
     else st1).
Proof.
  intros st st1. split; [reflexivity|]. split; [reflexivity|].
  apply (step_rejects_non_syscall 0 1%nat VNone VNone st st1); reflexivity.
Defined.

Lemma syscall_handle_plain st result task :
  result = VDoNotReschedule \/
  (exists r, result = VObj r /\ heap st !! r = Some OSyscall) ->
  body.syscall_handle result task st = (Ok (Some tt), st).
Proof.
  intros [->|(r & -> & Hr)]; [reflexivity|].
  unfold body.syscall_handle, get_obj, bind. now rewrite Hr.
Qed.

(** X3: a task that yields a bare [Syscall()] (or the marker
    [wait._DO_NOT_RESCHEDULE]) is parked for good: [handle] does nothing, so
    [_step] returns with the task suspended and in no table; only the
    after-step hook runs.  Nothing in the module resumes it, and [run] does
    not wait for it. *)
Theorem step_parks_plain_syscall (depth : nat) (task : ref) (value result : pyval)
        (st st1 : state) (polls : list poll) :
  body.resume_task (_step depth) (close depth) task value st = (Ok (Yields result), st1) ->
  result = VDoNotReschedule \/
  (exists r, result = VObj r /\ heap st1 !! r = Some OSyscall) ->
  _step (S depth) task value st = (Ok tt, call_hook st1) /\
  (queue st1 = [] -> paused st1 = ∅ ->
   run depth polls (call_hook st1) = (Ok Finished, call_hook st1)).
Proof.
  intros Hres Hplain. split.
  - cbn [_step]. unfold body._step. rewrite Hres.
    rewrite (bind_ok _ _ _ _ _ (syscall_handle_plain st1 result task Hplain)).
    unfold bind, ret, get_state, modify, call_hook. now destruct (after_step_hook st1).
  - intros Hq Hp. apply run_empty.
    + unfold call_hook. now destruct (after_step_hook st1).
    + unfold call_hook. now destruct (after_step_hook st1).
Qed.

Lemma step_parks_plain_syscall_witness :
  let st := set_obj 1%nat (OGen (GUnstarted (awaiting (Syscall.__iter__ 0%nat))))
                    (set_obj 0%nat OSyscall (initial true)) in
  exists st1,
    body.resume_task (_step 0) (close 0) 1%nat VNone st = (Ok (Yields (VObj 0%nat)), st1) /\
    heap st1 !! 0%nat = Some OSyscall /\
    _step 1 1%nat VNone st = (Ok tt, call_hook st1) /\
    run 0 [] (call_hook st1) = (Ok Finished, call_hook st1).
Proof.
  intros st. eexists. split; [reflexivity|]. split; [reflexivity|].
  match goal with
  | |- _ = (_, call_hook ?s) /\ _ =>
      destruct (step_parks_plain_syscall 0 1%nat VNone (VObj 0%nat) st s [] eq_refl) as [H1 H2];
        [right; exists 0%nat; split; reflexivity|]
  end.
  split; [exact H1|]. apply H2; reflexivity.
Defined.

Lemma resume_generator_keeps {T} (f : state -> T) depth task value st g :
  (forall q st, f (set_queue q st) = f st) ->
  (forall p st, f (set_paused p st) = f st) ->
  (forall fs st, f (set_finalizers fs st) = f st) ->
  (forall h st, f (set_heap h st) = f st) ->
  (forall l st, f (set_fin_calls l st) = f st) ->
  heap st !! task = Some (OGen g) ->
  f (body.resume_task (_step depth) (close depth) task value st).2 = f st.
Proof.
  intros Hq Hp Hf Hh Hc Hg.
  assert (Hs : forall v, f (body.task_send (_step depth) (close depth) task v st).2 = f st).
  { intros v. unfold body.task_send, get_obj, bind. rewrite Hg.
    apply keeps_generator_send; auto. intros t. now apply keeps_close. }
  destruct value; try apply Hs.
  unfold body.resume_task, body.task_throw, get_obj, bind. rewrite Hg.
  apply keeps_generator_throw; auto. intros t. now apply keeps_close.
Qed.

Lemma log_keeps {T} (f : state -> T) entry :
  (forall l st, f (set_logged l st) = f st) -> keeps f (log entry).
Proof. intros H st. unfold log. destruct (debug st); [apply H|reflexivity]. Qed.

(** X4: the after-step hook and the steps of a generator task.  The hook
    is called once, after [handle], when the task has yielded a syscall and
    [handle] has returned.  It is not called when the task returns or
    raises (the finalizer runs instead), nor when [handle] or [_step] itself
    raises; closing tasks and running finalizers never calls it. *)
Theorem after_step_hook_follows_handle (depth : nat) (task : ref) (value : pyval)
        (st : state) (g : gen_state) :
  heap st !! task = Some (OGen g) ->
  let r := _step (S depth) task value st in
  hook_calls r.2 =
    match body.resume_task (_step depth) (close depth) task value st, r.1 with
    | (Ok (Yields _), _), Ok _ => hook_calls (call_hook st)
    | _, _ => hook_calls st
    end.
Proof.
  intros Hg r. unfold r. cbn [_step]. unfold body._step.
  pose proof (resume_generator_keeps hook_calls depth task value st g
                (fun _ _ => eq_refl) (fun _ _ => eq_refl) (fun _ _ => eq_refl)
                (fun _ _ => eq_refl) (fun _ _ => eq_refl) Hg) as Hc.
  pose proof (resume_generator_keeps after_step_hook depth task value st g
                (fun _ _ => eq_refl) (fun _ _ => eq_refl) (fun _ _ => eq_refl)
                (fun _ _ => eq_refl) (fun _ _ => eq_refl) Hg) as Hh.
  destruct (body.resume_task _ _ task value st) as [[[y|v]|e] st1];
    cbn [fst snd] in Hc, Hh.
  - (* the task yields *)
    pose proof (keeps_syscall_handle hook_calls (fun _ _ => eq_refl) (fun _ _ => eq_refl)
                  (fun _ _ => eq_refl) (fun _ _ => eq_refl) y task st1) as Hc2.
    pose proof (keeps_syscall_handle after_step_hook (fun _ _ => eq_refl)
                  (fun _ _ => eq_refl) (fun _ _ => eq_refl) (fun _ _ => eq_refl)
                  y task st1) as Hh2.
    unfold bind, ret, get_state, modify, log, raise, call_hook.
    destruct (body.syscall_handle y task st1) as [[[[]|]|e] st2];
      cbn [fst snd] in Hc2, Hh2 |- *.
    + rewrite Hh2, Hh. destruct (after_step_hook st); cbn; congruence.
    + destruct (debug st2); cbn; congruence.
    + congruence.
  - (* the task returns *)
    assert (E : hook_calls ((log (LogDebug "finish: %s" task) ;;
                             finalize depth task v) st1).2 = hook_calls st1).
    { apply keeps_bind; [now apply log_keeps|intros _].
      now apply keeps_finalize_at. }
    fold (finalize depth task v). rewrite E, Hc.
    now destruct ((log (LogDebug "finish: %s" task) ;; finalize depth task v) st1).1.
  - (* the task raises *)
    destruct (is_Exception e); [|exact Hc].
    assert (E : hook_calls ((log (LogException e) ;;
                             finalize depth task (VExc e)) st1).2 = hook_calls st1).
    { apply keeps_bind; [now apply log_keeps|intros _].
      now apply keeps_finalize_at. }
    fold (finalize depth task (VExc e)). rewrite E, Hc.
    now destruct ((log (LogException e) ;; finalize depth task (VExc e)) st1).1.
Qed.

Lemma after_step_hook_follows_handle_witness :
  let g := GUnstarted (awaiting (Syscall.__iter__ 0%nat)) in
  let st := set_obj 1%nat (OGen g)
                    (set_obj 0%nat (OSleep 1000) (install_hook (initial true))) in
  heap st !! 1%nat = Some (OGen g) /\
  hook_calls (_step 1 1%nat VNone st).2 =
    match body.resume_task (_step 0) (close 0) 1%nat VNone st,
          (_step 1 1%nat VNone st).1 with
    | (Ok (Yields _), _), Ok _ => hook_calls (call_hook st)
    | _, _ => hook_calls st
    end.
Proof.
  intros g st. split; [reflexivity|].
  apply (after_step_hook_follows_handle 0 1%nat VNone st g). reflexivity.
Defined.

(** ** [clear] *)

(** X5: [clear()] forgets every task without closing it.  It empties the
    three tables and touches nothing else: no object changes (a suspended
    generator stays suspended, its clean-up clause does not run) and no
    finalizer is called, then or later; [finalize] finds nothing, and [run]
    returns at once. *)
Theorem clear_forgets_tasks (depth : nat) (polls : list poll) (st : state) :
  exists st',
    clear st = (Ok tt, st') /\
    queue st' = [] /\ paused st' = ∅ /\ finalizers st' = ∅ /\
    heap st' = heap st /\ fin_calls st' = fin_calls st /\ logged st' = logged st /\
    (forall task value, finalize depth task value st' = (Ok tt, st')) /\
    run depth polls st' = (Ok Finished, st').
Proof.
  exists (set_finalizers ∅ (set_paused ∅ (set_queue [] st))).
  do 7 (split; [reflexivity|]). split.
  - intros task value. apply finalize_unregistered. apply lookup_empty.
  - now apply run_empty.
Qed.

(** ** [close] of a task whose own [close()] raises *)

(** X6: [close] calls the finalizer only after [task.close()] has returned.
    When the task answers [GeneratorExit] with another exception [e],
    [close] raises [e]; when it answers by yielding again, [close] raises
    the [RuntimeError] of a generator that ignored [GeneratorExit].  In both
    cases the task has left the queue and the paused sets, but its finalizer
    has not been called and stays registered. *)
Theorem close_raises_before_finalizing (depth : nat) (task : ref) (st : state)
        (k : resume -> coro) (e : exn) :
  heap st !! task = Some (OGen (GSuspended k)) ->
  match k (Throw GeneratorExit) with
  | Raise e' => e' = e /\ e <> GeneratorExit
  | Yield _ _ => e = RuntimeError
  | _ => False
  end ->
  let r := close (S depth) task st in
  r.1 = Exc e /\
  finalizers r.2 = finalizers st /\
  fin_calls r.2 = fin_calls st /\
  entries_of task (queue r.2) = [] /\
  (forall iface tasks, paused r.2 !! iface = Some tasks -> task ∉ tasks).
Proof.
  intros Hg Hk r. unfold r. rewrite close_unfold. set (st0 := set_queue _ _).
  assert (Hg0 : heap st0 !! task = Some (OGen (GSuspended k))) by exact Hg.
  assert (Hq : entries_of task (queue st0) = []) by apply entries_of_discard.
  assert (Hp : forall iface tasks, paused st0 !! iface = Some tasks -> task ∉ tasks).
  { intros iface tasks. unfold st0. simpl. rewrite lookup_fmap.
    destruct (paused st !! iface); simpl; [|discriminate].
    intros [= <-] [_ Hin]%elem_of_difference. apply Hin. now apply elem_of_singleton. }
  unfold body.task_close, get_obj, bind. rewrite Hg0. simpl.
  unfold generator.close, generator.get, get_obj, bind. rewrite Hg0. simpl.
  destruct (k (Throw GeneratorExit)) as [v|e'|y k'|op k']; try contradiction; simpl.
  - destruct Hk as [-> Hne]. destruct (decide (e = GeneratorExit)); [contradiction|].
    simpl. repeat split; auto.
  - subst e. simpl. repeat split; auto.
Qed.

Lemma close_raises_before_finalizing_witness :
  let k := fun r => match r with
                    | Send v => Return v
                    | Throw _ => Raise (UserError "busy")
                    end in
  let st := (schedule 1%nat VNone None (Some (FinExt "on_exit"))
               (set_obj 1%nat (OGen (GSuspended k)) (initial true))).2 in
  heap st !! 1%nat = Some (OGen (GSuspended k)) /\
  let r := close 1 1%nat st in
  r.1 = Exc (UserError "busy") /\
  finalizers r.2 = finalizers st /\
  fin_calls r.2 = fin_calls st /\
  entries_of 1%nat (queue r.2) = [] /\
  (forall iface tasks, paused r.2 !! iface = Some tasks -> 1%nat ∉ tasks).
Proof.
  intros k st. split; [reflexivity|].
  apply (close_raises_before_finalizing 0 1%nat st k (UserError "busy")).
  - reflexivity.
  - simpl. split; [reflexivity|discriminate].
Defined.

(** ** Closing a task that awaits a [wait] *)

(** [task.close()] on a generator suspended in [await wait(...)], the
    interface of the wait object being a key of the paused table. *)
Lemma task_close_awaited_wait cl st t w wo k tasks :
  heap st !! t = Some (OGen (at_first_yield (yield_from (wait.__iter__ w) k Raise))) ->
  heap st !! w = Some (OWait wo) ->
  paused st !! msg_iface wo = Some tasks ->
  body.task_close cl t st
  = (Ok tt,
     set_obj t (OGen GFinished)
       (set_paused (<[msg_iface wo := tasks ∖ {[w]}]> (paused st))
          (set_queue (filter (fun e => e.1.2 <> w) (queue st))
             (set_obj t (OGen GRunning) st)))).
Proof.
  intros Ht Hw Hp.
  assert (Hne : w <> t) by (intros ->; rewrite Ht in Hw; discriminate).
  unfold body.task_close, get_obj, bind. rewrite Ht.
  cbn [at_first_yield yield_from wait.__iter__].
  unfold generator.close, generator.get, get_obj, bind. rewrite Ht.
  cbn [at_first_yield yield_from wait.__iter__ ret generator.run_coro generator.perform
       utimeq.discard modify].
  unfold wait.get, get_obj, bind. cbn [heap set_queue set_obj set_heap].
  rewrite lookup_insert_ne by (intros E; now apply Hne). rewrite Hw.
  unfold paused_discard. cbn [paused set_queue set_obj set_heap set_paused msg_iface ret].
  rewrite Hp.
  cbn [generator.run_coro yield_from]. destruct (decide (GeneratorExit = GeneratorExit));
    [reflexivity|contradiction].
Qed.

Lemma task_close_awaited_wait_no_key cl st t w wo k :
  heap st !! t = Some (OGen (at_first_yield (yield_from (wait.__iter__ w) k Raise))) ->
  heap st !! w = Some (OWait wo) ->
  paused st !! msg_iface wo = None ->
  body.task_close cl t st
  = (Exc KeyError,
     set_obj t (OGen GFinished)
       (set_queue (filter (fun e => e.1.2 <> w) (queue st))
          (set_obj t (OGen GRunning) st))).
Proof.
  intros Ht Hw Hp.
  assert (Hne : w <> t) by (intros ->; rewrite Ht in Hw; discriminate).
  unfold body.task_close, get_obj, bind. rewrite Ht.
  cbn [at_first_yield yield_from wait.__iter__].
  unfold generator.close, generator.get, get_obj, bind. rewrite Ht.
  cbn [at_first_yield yield_from wait.__iter__ ret generator.run_coro generator.perform
       utimeq.discard modify].
  unfold wait.get, get_obj, bind. cbn [heap set_queue set_obj set_heap].
  rewrite lookup_insert_ne by (intros E; now apply Hne). rewrite Hw.
  unfold paused_discard. cbn [paused set_queue set_obj set_heap set_paused msg_iface ret].
  rewrite Hp.
  cbn [generator.run_coro yield_from]. destruct (decide (KeyError = GeneratorExit));
    [discriminate|reflexivity].
Qed.

(** What [finalize] does with a finalizer that cannot fail. *)
Lemma finalize_benign_exact cl t value st :
  benign st t ->
  body.finalize cl t value st
  = (Ok tt,
     match finalizers st !! t with
     | Some f => set_fin_calls (fin_calls st ++ [(f, t, value)])
                   (set_finalizers (delete t (finalizers st)) st)
     | None => st
     end).
Proof.
  unfold benign, body.finalize, bind, get_state, modify.
  destruct (finalizers st !! t) as [[r|name]|] eqn:E; simpl; try reflexivity.
  intros (ro & Hr & Hf). unfold race._finish.
  now rewrite (bind_ok _ _ _ _ _
                 (race_get_ok (set_fin_calls _ (set_finalizers _ st)) r ro Hr)), Hf.
Qed.

(** X7: closing a task that is suspended in [await wait(...)] cancels the
    wait.  The interface of the wait object is a key of the paused table,
    and the finalizer of the task, if it has one, cannot fail (an outside
    callable, or [_finish] of a finished race).  The clean-up clause of
    [wait.__iter__] takes the wait object out of the timed queue (its
    timeout) and out of the paused set of its interface, the task itself
    leaves both tables, it is closed and its finalizer is called once with
    [GeneratorExit].  The interface stays a key of the paused table. *)
Theorem close_cancels_awaited_wait (depth : nat) (st : state) (t w : ref)
        (wo : wait_obj) (k : pyval -> coro) (tasks : gset ref) :
  heap st !! t = Some (OGen (at_first_yield (yield_from (wait.__iter__ w) k Raise))) ->
  heap st !! w = Some (OWait wo) ->
  paused st !! msg_iface wo = Some tasks ->
  benign st t ->
  exists st',
    close (S depth) t st = (Ok tt, st') /\
    paused st' = <[msg_iface wo := tasks ∖ {[t]} ∖ {[w]}]>
                   ((fun s => s ∖ {[t]}) <$> paused st) /\
    queue st' = filter (fun e => e.1.2 <> w) (filter (fun e => e.1.2 <> t) (queue st)) /\
    heap st' = <[t := OGen GFinished]> (heap st) /\
    finalizers st' = delete t (finalizers st) /\
    fin_calls st' = fin_calls st ++ match finalizers st !! t with
                                    | Some f => [(f, t, VExc GeneratorExit)]
                                    | None => []
                                    end.
Proof.
  intros Ht Hw Hp Hb. rewrite close_unfold. set (st0 := set_queue _ _).
  assert (Hp0 : paused st0 !! msg_iface wo = Some (tasks ∖ {[t]})).
  { unfold st0. simpl. now rewrite lookup_fmap, Hp. }
  rewrite (bind_ok _ _ _ _ _
             (task_close_awaited_wait (close depth) st0 t w wo k _ Ht Hw Hp0)).
  set (st3 := set_obj t _ _).
  assert (Hb3 : benign st3 t).
  { unfold benign in *. change (finalizers st3) with (finalizers st).
    destruct (finalizers st !! t) as [[r|]|]; auto.
    destruct Hb as (ro & Hr & Hfin). exists ro. split; [|exact Hfin].
    assert (Hne : r <> t) by (intros ->; rewrite Ht in Hr; discriminate).
    unfold st3. simpl. now rewrite !lookup_insert_ne by auto. }
  rewrite (finalize_benign_exact _ _ _ _ Hb3).
  eexists. split; [reflexivity|].
  change (finalizers st3) with (finalizers st).
  assert (Hh : heap st3 = <[t := OGen GFinished]> (heap st)).
  { unfold st3. simpl. apply insert_insert_eq. }
  destruct (finalizers st !! t) as [f|] eqn:Ef; simpl.
  - repeat split; auto.
  - repeat split; auto.
    + symmetry. now apply delete_id.
    + now rewrite app_nil_r.
Qed.

Lemma close_cancels_awaited_wait_witness :
  let st := ((schedule 1%nat VNone None (Some (FinExt "on_exit")) ;;
              run_turn 8 (scenario.idle 0)) (scenario.waiting None)).2 in
  let wo := mk_wait 7 None None in
  heap st !! 1%nat
  = Some (OGen (at_first_yield (yield_from (wait.__iter__ 0%nat)
                                           (fun _ => Return VNone) Raise))) /\
  heap st !! 0%nat = Some (OWait wo) /\
  paused st !! 7 = Some {[0%nat]} /\
  benign st 1%nat /\
  exists st',
    close 1 1%nat st = (Ok tt, st') /\
    paused st' = <[7 := {[0%nat]} ∖ {[1%nat]} ∖ {[0%nat]}]>
                   ((fun s => s ∖ {[1%nat]}) <$> paused st) /\
    queue st' = filter (fun e => e.1.2 <> 0%nat)
                       (filter (fun e => e.1.2 <> 1%nat) (queue st)) /\
    heap st' = <[1%nat := OGen GFinished]> (heap st) /\
    finalizers st' = delete 1%nat (finalizers st) /\
    fin_calls st' = fin_calls st ++ match finalizers st !! 1%nat with
                                    | Some f => [(f, 1%nat, VExc GeneratorExit)]
                                    | None => []
                                    end.
Proof.
  intros st wo.
  assert (Ht : heap st !! 1%nat
               = Some (OGen (at_first_yield (yield_from (wait.__iter__ 0%nat)
                                                        (fun _ => Return VNone) Raise))))
    by (vm_compute; reflexivity).
  assert (Hw : heap st !! 0%nat = Some (OWait wo)) by (vm_compute; reflexivity).
  assert (Hp : paused st !! msg_iface wo = Some {[0%nat]}) by (vm_compute; reflexivity).
  assert (Hb : benign st 1%nat) by (vm_compute; exact I).
  split; [exact Ht|]. split; [exact Hw|]. split; [exact Hp|]. split; [exact Hb|].
  exact (close_cancels_awaited_wait 0 st 1%nat 0%nat wo (fun _ => Return VNone)
           {[0%nat]} Ht Hw Hp Hb).
Defined.

(** X8: the clean-up clause of [wait.__iter__] looks the interface up with
    [_paused[self.msg_iface]].  Once [run] has popped the interface on an
    I/O event (or when the wait was never handled) the key is missing:
    closing the task then raises [KeyError].  The task is closed and the
    wait object has left the queue, but the finalizer of the task is not
    called and stays registered. *)
Theorem close_awaited_wait_without_key (depth : nat) (st : state) (t w : ref)
        (wo : wait_obj) (k : pyval -> coro) :
  heap st !! t = Some (OGen (at_first_yield (yield_from (wait.__iter__ w) k Raise))) ->
  heap st !! w = Some (OWait wo) ->
  paused st !! msg_iface wo = None ->
  exists st',
    close (S depth) t st = (Exc KeyError, st') /\
    heap st' = <[t := OGen GFinished]> (heap st) /\
    queue st' = filter (fun e => e.1.2 <> w) (filter (fun e => e.1.2 <> t) (queue st)) /\
    finalizers st' = finalizers st /\
    fin_calls st' = fin_calls st.
Proof.
  intros Ht Hw Hp. rewrite close_unfold. set (st0 := set_queue _ _).
  assert (Hp0 : paused st0 !! msg_iface wo = None).
  { unfold st0. simpl. now rewrite lookup_fmap, Hp. }
  rewrite (bind_exc _ _ _ _ _
             (task_close_awaited_wait_no_key (close depth) st0 t w wo k Ht Hw Hp0)).
  eexists. split; [reflexivity|]. simpl. repeat split. apply insert_insert_eq.
Qed.

Lemma close_awaited_wait_without_key_witness :
  let st := ((schedule 1%nat VNone None (Some (FinExt "on_exit")) ;;
              run_turn 8 (scenario.idle 0) ;;
              run_turn 8 (mk_poll 10 (Some (7, VStr "touch")))) (scenario.waiting None)).2 in
  let wo := mk_wait 7 None None in
  heap st !! 1%nat
  = Some (OGen (at_first_yield (yield_from (wait.__iter__ 0%nat)
                                           (fun _ => Return VNone) Raise))) /\
  heap st !! 0%nat = Some (OWait wo) /\
  paused st !! 7 = None /\
  exists st',
    close 1 1%nat st = (Exc KeyError, st') /\
    heap st' = <[1%nat := OGen GFinished]> (heap st) /\
    queue st' = filter (fun e => e.1.2 <> 0%nat)
                       (filter (fun e => e.1.2 <> 1%nat) (queue st)) /\
    finalizers st' = finalizers st /\
    fin_calls st' = fin_calls st.
Proof.
  intros st wo.
  assert (Ht : heap st !! 1%nat
               = Some (OGen (at_first_yield (yield_from (wait.__iter__ 0%nat)
                                                        (fun _ => Return VNone) Raise))))
    by (vm_compute; reflexivity).
  assert (Hw : heap st !! 0%nat = Some (OWait wo)) by (vm_compute; reflexivity).
  assert (Hp : paused st !! msg_iface wo = None) by (vm_compute; reflexivity).
  split; [exact Ht|]. split; [exact Hw|]. split; [exact Hp|].
  exact (close_awaited_wait_without_key 0 st 1%nat 0%nat wo (fun _ => Return VNone)
           Ht Hw Hp).
Defined.

(** ** [race.handle] with children *)

Lemma fresh_absent (st : state) : heap st !! fresh (dom (heap st)) = None.
Proof. apply not_elem_of_dom. apply is_fresh. Qed.

Lemma schedule_now_with_finalizer st task value f :
  (length (queue st) < utimeq.capacity)%nat ->
  schedule task value None (Some f) st
  = (Ok tt, set_queue (utimeq.insert (clock st, task, value) (queue st))
              (set_finalizers (<[task := f]> (finalizers st)) st)).
Proof.
  intros H. unfold schedule, utime.ticks_us, bind, modify, utimeq.push.
  cbn -[Nat.leb].
  destruct (Nat.leb_spec utimeq.capacity (length (queue st))); [lia|reflexivity].
Qed.

(** One child: the task that is scheduled for it. *)
Lemma handle_child_effect st self child rs :
  heap st !! self = Some (ORace rs) ->
  awaitable st child ->
  (length (queue st) < utimeq.capacity)%nat ->
  exists g st1,
    handle_child self child st = (Ok tt, st1) /\
    heap st1 !! self
    = Some (ORace (mk_race (children rs) (scheduled rs ++ [g]) (finished rs)
                           (race_callback rs))) /\
    (forall x, x <> self -> is_Some (heap st !! x) -> heap st1 !! x = heap st !! x) /\
    wraps st st1 child g /\
    finalizers st1 = <[g := FinRace self]> (finalizers st) /\
    queue st1 = utimeq.insert (clock st, g, VNone) (queue st) /\
    paused st1 = paused st /\ clock st1 = clock st.
Proof.
  intros Hself Haw Hroom.
  unfold awaitable in Haw. unfold handle_child, race.is_generator, get_obj, bind at 1.
  cbn [ret]. unfold bind at 1.
  destruct (heap st !! child) as [o|] eqn:Hc; [|contradiction].
  assert (Hcases : (exists g0, o = OGen g0) \/ ~ (exists g0, o = OGen g0)).
  { destruct o; eauto; right; intros [g0 Hg0]; discriminate. }
  destruct Hcases as [[g0 ->]|Hnot].
  - (* a generator is its own task *)
    set (s1 := set_queue (utimeq.insert (clock st, child, VNone) (queue st))
                 (set_finalizers (<[child := FinRace self]> (finalizers st)) st)).
    assert (Hs1 : heap s1 !! self = Some (ORace rs)) by exact Hself.
    exists child. eexists. split.
    { unfold bind at 1. cbn [ret].
      rewrite (bind_ok _ _ _ _ _ (schedule_now_with_finalizer st child VNone _ Hroom)).
      fold s1. apply (race_update_ok _ _ _ _ Hs1). }
    simpl. split; [apply lookup_insert_eq|]. split.
    { intros x Hx _. now rewrite lookup_insert_ne by auto. }
    split; [unfold wraps; now rewrite Hc|]. repeat split.
  - (* anything else is wrapped in a new generator *)
    set (g := fresh (dom (heap st))).
    assert (Hg : heap st !! g = None) by apply fresh_absent.
    assert (Hgs : g <> self) by (intros E; rewrite E, Hself in Hg; discriminate).
    assert (Hiter : exists body,
               race.iter child st = (Ok g, set_obj g (OGen (GUnstarted body)) st) /\
               (forall s', heap s' !! g = Some (OGen (GUnstarted body)) ->
                           wraps st s' child g)).
    { unfold race.iter, get_obj, bind, alloc, wraps. rewrite Hc. fold g.
      destruct o; try contradiction;
        try (exfalso; apply Hnot; eexists; reflexivity);
        (eexists; split; [reflexivity|intros s' Hs'; now split]). }
    destruct Hiter as (body & Eiter & Hwr).
    assert (Hgen : match o with OGen _ => true | _ => false end = false).
    { destruct o; try reflexivity. exfalso. apply Hnot. eexists. reflexivity. }
    rewrite Hgen.
    set (s0 := set_obj g (OGen (GUnstarted body)) st) in *.
    assert (Hroom0 : (length (queue s0) < utimeq.capacity)%nat) by exact Hroom.
    set (s1 := set_queue (utimeq.insert (clock s0, g, VNone) (queue s0))
                 (set_finalizers (<[g := FinRace self]> (finalizers s0)) s0)).
    assert (Hs1 : heap s1 !! self = Some (ORace rs)).
    { unfold s1, s0. simpl. now rewrite lookup_insert_ne by auto. }
    exists g. eexists. split.
    { cbn [ret]. rewrite (bind_ok _ _ _ _ _ Eiter).
      rewrite (bind_ok _ _ _ _ _ (schedule_now_with_finalizer s0 g VNone _ Hroom0)).
      fold s1. apply (race_update_ok _ _ _ _ Hs1). }
    simpl. split; [apply lookup_insert_eq|]. split.
    { intros x Hx [ox Hox]. rewrite lookup_insert_ne by auto.
      rewrite lookup_insert_ne; [reflexivity|]. intros <-. congruence. }
    split; [|repeat split].
    apply Hwr. simpl. rewrite lookup_insert_ne by auto. apply lookup_insert_eq.
Qed.

Lemma wraps_earlier st s1 s' self child g :
  (forall x, x <> self -> is_Some (heap st !! x) -> heap s1 !! x = heap st !! x) ->
  (exists r r1, heap st !! self = Some (ORace r) /\ heap s1 !! self = Some (ORace r1)) ->
  awaitable st child ->
  wraps s1 s' child g -> wraps st s' child g.
Proof.
  intros H1 (r & r1 & Hr & Hr1) Haw. unfold wraps, awaitable in *.
  assert (Hfresh : heap s1 !! g = None -> heap st !! g = None).
  { intros Hg. destruct (heap st !! g) as [o|] eqn:E; [|reflexivity]. exfalso.
    destruct (decide (g = self)) as [->|Hne]; [congruence|].
    rewrite H1 in Hg by eauto. congruence. }
  destruct (decide (child = self)) as [->|Hne].
  - rewrite Hr. rewrite Hr1. intros [Hg Hb]. split; auto.
  - destruct (heap st !! child) as [o|] eqn:Hc; [|contradiction].
    rewrite H1, Hc by eauto.
    destruct o; auto; intros [Hg Hb]; split; auto.
Qed.

Lemma wraps_later st s1 s' self child g :
  (forall x, x <> self -> is_Some (heap s1 !! x) -> heap s' !! x = heap s1 !! x) ->
  is_Some (heap st !! self) ->
  wraps st s1 child g -> wraps st s' child g.
Proof.
  intros H2 [os Hs]. unfold wraps.
  assert (Hkeep : forall b, heap st !! g = None -> heap s1 !! g = Some b ->
                            heap s' !! g = Some b).
  { intros b Hg Hb. rewrite H2; [exact Hb| |eauto]. intros ->. congruence. }
  destruct (heap st !! child) as [[]|]; auto; intros [Hg Hb]; split; auto.
Qed.

Lemma Forall2_impl_Forall {A B} (P Q : A -> B -> Prop) (R : A -> Prop) l k :
  Forall R l -> Forall2 P l k -> (forall x y, R x -> P x y -> Q x y) -> Forall2 Q l k.
Proof.
  intros HR HP Himp. induction HP as [|x y l k Hxy HP IH]; [constructor|].
  apply Forall_cons in HR as [Hx HR]. constructor; auto.
Qed.

Lemma handle_children_effect self cs : forall st rs,
  heap st !! self = Some (ORace rs) ->
  Forall (awaitable st) cs ->
  (length (queue st) + length cs <= utimeq.capacity)%nat ->
  exists new st',
    for_each cs (handle_child self) st = (Ok tt, st') /\
    heap st' !! self
    = Some (ORace (mk_race (children rs) (scheduled rs ++ new) (finished rs)
                           (race_callback rs))) /\
    (forall x, x <> self -> is_Some (heap st !! x) -> heap st' !! x = heap st !! x) /\
    Forall2 (wraps st st') cs new /\
    finalizers st' = foldl (fun fs g => <[g := FinRace self]> fs) (finalizers st) new /\
    queue st' = foldl (fun q g => utimeq.insert (clock st, g, VNone) q) (queue st) new /\
    paused st' = paused st /\ clock st' = clock st.
Proof.
  induction cs as [|c cs IH]; intros st rs Hself Haw Hroom.
  - exists [], st. split; [reflexivity|]. rewrite app_nil_r.
    split; [now destruct rs|]. repeat split; auto.
  - apply Forall_cons in Haw as [Hc Hcs]. cbn [length] in Hroom.
    destruct (handle_child_effect st self c rs Hself Hc ltac:(lia))
      as (g & s1 & E1 & Hs1 & Hk1 & Hw1 & Hf1 & Hq1 & Hp1 & Hc1).
    assert (Haw1 : Forall (awaitable s1) cs).
    { eapply Forall_impl; [exact Hcs|]. intros x Hx. unfold awaitable in *.
      destruct (decide (x = self)) as [->|Hne]; [now rewrite Hs1|].
      destruct (heap st !! x) as [o|] eqn:Ex; [|contradiction].
      rewrite Hk1, Ex by eauto. exact Hx. }
    destruct (IH s1 _ Hs1 Haw1) as (new & st' & E & Hs' & Hk' & Hw' & Hf' & Hq' & Hp' & Hc').
    { rewrite Hq1, insert_length. lia. }
    exists (g :: new), st'. cbn [for_each]. rewrite (bind_ok _ _ _ _ _ E1).
    split; [exact E|]. cbn in Hs'. rewrite <- app_assoc in Hs'.
    split; [exact Hs'|]. split.
    { intros x Hx Hsome. rewrite Hk'; [now apply Hk1|exact Hx|].
      rewrite Hk1 by auto. exact Hsome. }
    split.
    { constructor.
      - eapply wraps_later; [exact Hk'|eauto|exact Hw1].
      - eapply Forall2_impl_Forall; [exact Hcs|exact Hw'|]. intros x y Hx Hxy.
        eapply wraps_earlier; [exact Hk1|eauto|exact Hx|exact Hxy]. }
    cbn [foldl]. rewrite Hf', Hf1, Hq', Hq1, Hc1, Hp', Hp1. repeat split. exact (eq_trans Hc' Hc1).
Qed.

(** X9: [race.handle] with children.  Every child is a generator or an
    object with an [__iter__] method, and the timed queue has room for all
    of them.  Then [handle] returns; the race holds [task] as its caller, is
    unfinished, and lists one task per child, in the order of the children:
    the child itself when it is a generator, a new generator running
    [child.__iter__()] otherwise.  Each of these tasks has [_finish] of this
    race as its finalizer and one entry in the queue, due now, with the
    value [None].  No other object changes and nothing is paused. *)
Theorem race_handle_schedules_children (st : state) (self task : ref) (ro : race_obj) :
  heap st !! self = Some (ORace ro) ->
  Forall (awaitable st) (children ro) ->
  (length (queue st) + length (children ro) <= utimeq.capacity)%nat ->
  exists st' tasks,
    race.handle self task st = (Ok tt, st') /\
    heap st' !! self = Some (ORace (mk_race (children ro) tasks false (Some task))) /\
    Forall2 (wraps st st') (children ro) tasks /\
    finalizers st' = foldl (fun fs g => <[g := FinRace self]> fs) (finalizers st) tasks /\
    queue st' = foldl (fun q g => utimeq.insert (clock st, g, VNone) q) (queue st) tasks /\
    paused st' = paused st /\
    (forall x, x <> self -> is_Some (heap st !! x) -> heap st' !! x = heap st !! x).
Proof.
  intros Hself Haw Hroom.
  set (s0 := set_obj self (ORace (mk_race (children ro) [] false (Some task))) st).
  assert (Hs0 : heap s0 !! self
                = Some (ORace (mk_race (children ro) [] false (Some task))))
    by apply lookup_insert_eq.
  assert (Hk0 : forall x, x <> self -> is_Some (heap st !! x) ->
                          heap s0 !! x = heap st !! x).
  { intros x Hx _. unfold s0. simpl. now rewrite lookup_insert_ne by auto. }
  assert (Haw0 : Forall (awaitable s0) (children ro)).
  { eapply Forall_impl; [exact Haw|]. intros x Hx. unfold awaitable in *.
    destruct (decide (x = self)) as [->|Hne]; [now rewrite Hs0|].
    destruct (heap st !! x) as [o|] eqn:Ex; [|contradiction].
    rewrite Hk0, Ex by eauto. exact Hx. }
  destruct (handle_children_effect self (children ro) s0 _ Hs0 Haw0 Hroom)
    as (tasks & st' & E & Hs' & Hk' & Hw' & Hf' & Hq' & Hp' & Hc').
  exists st', tasks. split.
  { unfold race.handle. rewrite (bind_ok _ _ _ _ _ (race_get_ok _ _ _ Hself)).
    rewrite (bind_ok _ _ _ _ _ (race_update_ok _ _ _ _ Hself)). exact E. }
  split; [exact Hs'|]. split.
  { eapply Forall2_impl_Forall; [exact Haw|exact Hw'|]. intros x y Hx Hxy.
    eapply wraps_earlier; [exact Hk0|eauto|exact Hx|exact Hxy]. }
  split; [exact Hf'|]. split; [exact Hq'|]. split; [exact Hp'|].
  intros x Hx Hsome. rewrite Hk'; [now apply Hk0|exact Hx|].
  rewrite Hk0 by auto. exact Hsome.
Qed.

Lemma race_handle_schedules_children_witness :
  let ro := mk_race [2%nat; 3%nat] [] false None in
  let st := set_obj 3%nat (OWait (mk_wait 7 None None))
              (set_obj 2%nat (OGen (GUnstarted (Return (VInt 2))))
                 (set_obj 0%nat (ORace ro) (initial true))) in
  heap st !! 0%nat = Some (ORace ro) /\
  Forall (awaitable st) (children ro) /\
  (length (queue st) + length (children ro) <= utimeq.capacity)%nat /\
  exists st' tasks,
    race.handle 0%nat 1%nat st = (Ok tt, st') /\
    heap st' !! 0%nat = Some (ORace (mk_race (children ro) tasks false (Some 1%nat))) /\
    Forall2 (wraps st st') (children ro) tasks /\
    finalizers st' = foldl (fun fs g => <[g := FinRace 0%nat]> fs) (finalizers st) tasks /\
    queue st' = foldl (fun q g => utimeq.insert (clock st, g, VNone) q) (queue st) tasks /\
    paused st' = paused st /\
    (forall x, x <> 0%nat -> is_Some (heap st !! x) -> heap st' !! x = heap st !! x).
Proof.
  intros ro st.
  assert (Hself : heap st !! 0%nat = Some (ORace ro)) by (vm_compute; reflexivity).
  assert (Haw : Forall (awaitable st) (children ro)).
  { repeat constructor; vm_compute; exact I. }
  assert (Hroom : (length (queue st) + length (children ro) <= utimeq.capacity)%nat)
    by (vm_compute; lia).
  split; [exact Hself|]. split; [exact Haw|]. split; [exact Hroom|].
  exact (race_handle_schedules_children st 0%nat 1%nat ro Hself Haw Hroom).
Defined.

(** ** [chan]: the two ends meet *)

Lemma state_ext (s1 s2 : state) :
  queue s1 = queue s2 -> paused s1 = paused s2 -> finalizers s1 = finalizers s2 ->
  heap s1 = heap s2 -> clock s1 = clock s2 -> debug s1 = debug s2 ->
  logged s1 = logged s2 -> fin_calls s1 = fin_calls s2 ->
  after_step_hook s1 = after_step_hook s2 -> hook_calls s1 = hook_calls s2 ->
  synthetic_events s1 = synthetic_events s2 -> s1 = s2.
Proof. destruct s1, s2; simpl; intros; subst; reflexivity. Qed.

(** Two heaps built by inserting at keys known to differ. *)
Ltac heap_eq :=
  apply map_eq; intros ?x;
  repeat match goal with
         | |- context [<[?i := _]> _ !! ?j] =>
             first [ rewrite (lookup_insert_eq _ i)
                   | rewrite (lookup_insert_ne _ i j) by congruence
                   | destruct (decide (i = j)) as [<-|?] ]
         end;
  reflexivity.

Lemma schedule_two st t1 v1 t2 v2 :
  (length (queue st) + 2 <= utimeq.capacity)%nat ->
  (schedule t1 v1 None None ;; schedule t2 v2 None None) st
  = (Ok tt, set_queue (utimeq.insert (clock st, t2, v2)
                         (utimeq.insert (clock st, t1, v1) (queue st))) st).
Proof.
  intros H. rewrite (bind_ok _ _ _ _ _ (schedule_plain_ok st t1 v1 ltac:(lia))).
  rewrite schedule_plain_ok by (simpl; rewrite insert_length; lia).
  reflexivity.
Qed.

(** [Put.handle] with no taker waiting: the putter is parked. *)
Lemma put_handle_parks st ch put p v tp c :
  heap st !! put = Some (OPut ch v tp) ->
  heap st !! ch = Some (OChan c) ->
  takers c = [] ->
  chan.Put.handle put p st
  = (Ok tt, set_obj ch (OChan (mk_chan (putters c ++ [(Some p, v)]) []))
              (set_obj put (OPut ch v (Some p)) st)).
Proof.
  intros Hput Hch Ht.
  assert (Hne : put <> ch) by (intros ->; rewrite Hch in Hput; discriminate).
  unfold chan.Put.handle, get_obj, bind at 1. rewrite Hput.
  unfold bind at 1, modify. unfold chan._schedule_put.
  set (s1 := set_obj put _ st).
  assert (Hch1 : heap s1 !! ch = Some (OChan c)).
  { unfold s1. simpl. now rewrite lookup_insert_ne by auto. }
  unfold bind at 1. rewrite (bind_ok _ _ _ _ _ (chan_get_ok _ _ _ Hch1)), Ht.
  reflexivity.
Qed.

(** [Take.handle] with nothing to take: the taker is parked. *)
Lemma take_handle_parks st ch take t tk c :
  heap st !! take = Some (OTake ch tk) ->
  heap st !! ch = Some (OChan c) ->
  putters c = [] ->
  chan.Take.handle take t st
  = (Ok tt, set_obj ch (OChan (mk_chan [] (takers c ++ [t])))
              (set_obj take (OTake ch (Some t)) st)).
Proof.
  intros Htake Hch Hp.
  assert (Hne : take <> ch) by (intros ->; rewrite Hch in Htake; discriminate).
  unfold chan.Take.handle, get_obj, bind at 1. rewrite Htake.
  unfold bind at 1, modify. unfold chan._schedule_take.
  set (s1 := set_obj take _ st).
  assert (Hch1 : heap s1 !! ch = Some (OChan c)).
  { unfold s1. simpl. now rewrite lookup_insert_ne by auto. }
  rewrite (bind_ok _ _ _ _ _ (chan_get_ok _ _ _ Hch1)), Hp.
  reflexivity.
Qed.

(** [Put.handle] with a taker waiting: both are scheduled, the taker first. *)
Lemma put_handle_meets st ch put p v tp c t rest :
  heap st !! put = Some (OPut ch v tp) ->
  heap st !! ch = Some (OChan c) ->
  takers c = t :: rest ->
  (length (queue st) + 2 <= utimeq.capacity)%nat ->
  chan.Put.handle put p st
  = (Ok tt, set_queue (utimeq.insert (clock st, p, VNone)
                         (utimeq.insert (clock st, t, v) (queue st)))
              (set_obj ch (OChan (mk_chan (putters c) rest))
                 (set_obj put (OPut ch v (Some p)) st))).
Proof.
  intros Hput Hch Ht Hroom.
  assert (Hne : put <> ch) by (intros ->; rewrite Hch in Hput; discriminate).
  unfold chan.Put.handle, get_obj, bind at 1. rewrite Hput.
  unfold bind at 1, modify. unfold chan._schedule_put.
  set (s1 := set_obj put _ st).
  assert (Hch1 : heap s1 !! ch = Some (OChan c)).
  { unfold s1. simpl. now rewrite lookup_insert_ne by auto. }
  unfold bind at 1. rewrite (bind_ok _ _ _ _ _ (chan_get_ok _ _ _ Hch1)), Ht.
  unfold bind at 1, chan.set, modify.
  set (s2 := set_obj ch _ s1).
  assert (Hroom2 : (length (queue s2) + 2 <= utimeq.capacity)%nat) by exact Hroom.
  pose proof (schedule_two s2 t v p VNone Hroom2) as E.
  unfold bind in E |- *. destruct (schedule t v None None s2) as [[[]|e] s3];
    [|discriminate].
  destruct (schedule p VNone None None s3) as [[[]|e] s4]; [|discriminate].
  injection E as ->. reflexivity.
Qed.

(** [Take.handle] with a putter waiting: both are scheduled, the taker first. *)
Lemma take_handle_meets st ch take t tk c p v rest :
  heap st !! take = Some (OTake ch tk) ->
  heap st !! ch = Some (OChan c) ->
  putters c = (Some p, v) :: rest ->
  (length (queue st) + 2 <= utimeq.capacity)%nat ->
  chan.Take.handle take t st
  = (Ok tt, set_queue (utimeq.insert (clock st, p, VNone)
                         (utimeq.insert (clock st, t, v) (queue st)))
              (set_obj ch (OChan (mk_chan rest (takers c)))
                 (set_obj take (OTake ch (Some t)) st))).
Proof.
  intros Htake Hch Hp Hroom.
  assert (Hne : take <> ch) by (intros ->; rewrite Hch in Htake; discriminate).
  unfold chan.Take.handle, get_obj, bind at 1. rewrite Htake.
  unfold bind at 1, modify. unfold chan._schedule_take.
  set (s1 := set_obj take _ st).
  assert (Hch1 : heap s1 !! ch = Some (OChan c)).
  { unfold s1. simpl. now rewrite lookup_insert_ne by auto. }
  rewrite (bind_ok _ _ _ _ _ (chan_get_ok _ _ _ Hch1)), Hp.
  unfold bind at 1, chan.set, modify.
  set (s2 := set_obj ch _ s1).
  assert (Hroom2 : (length (queue s2) + 2 <= utimeq.capacity)%nat) by exact Hroom.
  exact (schedule_two s2 t v p VNone Hroom2).
Qed.

(** X10: a putter and a taker meet on an empty channel.  Whichever of
    [await ch.put(v)] and [await ch.take()] is handled first is parked, and
    the other one wakes both: the state is the same in both orders.  The
    taker is queued with the value and the putter, after it, with [None],
    both due now; the channel is empty again, and each syscall object
    remembers its task. *)
Theorem chan_rendezvous_symmetric (st : state) (ch put take p t : ref) (v : pyval)
        (tp tk : option ref) :
  heap st !! ch = Some (OChan (mk_chan [] [])) ->
  heap st !! put = Some (OPut ch v tp) ->
  heap st !! take = Some (OTake ch tk) ->
  (length (queue st) + 2 <= utimeq.capacity)%nat ->
  exists st',
    (chan.Put.handle put p ;; chan.Take.handle take t) st = (Ok tt, st') /\
    (chan.Take.handle take t ;; chan.Put.handle put p) st = (Ok tt, st') /\
    queue st' = utimeq.insert (clock st, p, VNone)
                  (utimeq.insert (clock st, t, v) (queue st)) /\
    heap st' = <[ch := OChan (mk_chan [] [])]>
                 (<[take := OTake ch (Some t)]>
                    (<[put := OPut ch v (Some p)]> (heap st))) /\
    paused st' = paused st /\ finalizers st' = finalizers st.
Proof.
  intros Hch Hput Htake Hroom.
  assert (Hpc : put <> ch) by (intros ->; rewrite Hch in Hput; discriminate).
  assert (Htc : take <> ch) by (intros ->; rewrite Hch in Htake; discriminate).
  assert (Hpt : put <> take) by (intros ->; rewrite Htake in Hput; discriminate).
  exists (set_queue (utimeq.insert (clock st, p, VNone)
                       (utimeq.insert (clock st, t, v) (queue st)))
            (set_heap (<[ch := OChan (mk_chan [] [])]>
                         (<[take := OTake ch (Some t)]>
                            (<[put := OPut ch v (Some p)]> (heap st)))) st)).
  split; [|split; [|repeat split]].
  - rewrite (bind_ok _ _ _ _ _
               (put_handle_parks st ch put p v tp _ Hput Hch eq_refl)).
    set (s1 := set_obj ch _ _).
    erewrite (take_handle_meets s1 ch take t tk _ p v []); cycle 1.
    { unfold s1. simpl. rewrite !lookup_insert_ne by auto. exact Htake. }
    { unfold s1. simpl. apply lookup_insert_eq. }
    { reflexivity. }
    { exact Hroom. }
    f_equal. apply state_ext; try reflexivity. simpl. heap_eq.
  - rewrite (bind_ok _ _ _ _ _
               (take_handle_parks st ch take t tk _ Htake Hch eq_refl)).
    set (s1 := set_obj ch _ _).
    erewrite (put_handle_meets s1 ch put p v tp _ t []); cycle 1.
    { unfold s1. simpl. rewrite !lookup_insert_ne by auto. exact Hput. }
    { unfold s1. simpl. apply lookup_insert_eq. }
    { reflexivity. }
    { exact Hroom. }
    f_equal. apply state_ext; try reflexivity. simpl. heap_eq.
Qed.

Lemma chan_rendezvous_symmetric_witness :
  let st := set_obj 2%nat (OTake 0%nat None)
              (set_obj 1%nat (OPut 0%nat (VStr "v") None)
                 (set_obj 0%nat (OChan (mk_chan [] [])) (initial true))) in
  heap st !! 0%nat = Some (OChan (mk_chan [] [])) /\
  heap st !! 1%nat = Some (OPut 0%nat (VStr "v") None) /\
  heap st !! 2%nat = Some (OTake 0%nat None) /\
  (length (queue st) + 2 <= utimeq.capacity)%nat /\
  exists st',
    (chan.Put.handle 1%nat 5%nat ;; chan.Take.handle 2%nat 6%nat) st = (Ok tt, st') /\
    (chan.Take.handle 2%nat 6%nat ;; chan.Put.handle 1%nat 5%nat) st = (Ok tt, st') /\
    queue st' = utimeq.insert (clock st, 5%nat, VNone)
                  (utimeq.insert (clock st, 6%nat, VStr "v") (queue st)) /\
    heap st' = <[0%nat := OChan (mk_chan [] [])]>
                 (<[2%nat := OTake 0%nat (Some 6%nat)]>
                    (<[1%nat := OPut 0%nat (VStr "v") (Some 5%nat)]> (heap st))) /\
    paused st' = paused st /\ finalizers st' = finalizers st.
Proof.
  intros st.
  assert (Hroom : (length (queue st) + 2 <= utimeq.capacity)%nat) by (vm_compute; lia).
  split; [reflexivity|]. split; [reflexivity|]. split; [reflexivity|].
  split; [exact Hroom|].
  exact (chan_rendezvous_symmetric st 0%nat 1%nat 2%nat 5%nat 6%nat (VStr "v")
           None None eq_refl eq_refl eq_refl Hroom).
Defined.

(** ** [chan]: closing a parked task *)

Lemma remove_first_absent {A} `{EqDecision A} (x : A) (l : list A) :
  x ∉ l -> remove_first x l = l.
Proof.
  induction l as [|y l IH]; [reflexivity|]. intros Hx. simpl.
  destruct (decide (x = y)) as [->|Hne].
  - exfalso. apply Hx. apply list_elem_of_here.
  - f_equal. apply IH. intros Hin. apply Hx. now apply list_elem_of_further.
Qed.

Lemma remove_first_NoDup {A} `{EqDecision A} (x : A) (l : list A) :
  NoDup l -> x ∉ remove_first x l.
Proof.
  induction 1 as [|y l Hy Hl IH]; simpl.
  - apply not_elem_of_nil.
  - destruct (decide (x = y)) as [->|Hne]; [exact Hy|].
    intros [->|Hin]%elem_of_cons; [contradiction|now apply IH].
Qed.

(** [close] of a generator whose clean-up is one statement [op] that
    returns, followed by [raise]. *)
Lemma close_after_cleanup depth st t op k' kk st2 :
  heap st !! t = Some (OGen (GSuspended k')) ->
  k' (Throw GeneratorExit) = Do op kk ->
  kk None = Raise GeneratorExit ->
  benign st t ->
  let st0 := set_obj t (OGen GRunning)
               (set_queue (filter (fun e => e.1.2 <> t) (queue st))
                  (set_paused ((fun tasks => tasks ∖ {[t]}) <$> paused st) st)) in
  generator.perform (close depth) op st0 = (Ok tt, st2) ->
  finalizers st2 = finalizers st ->
  fin_calls st2 = fin_calls st ->
  (forall r ro, r <> t -> heap st !! r = Some (ORace ro) ->
                heap st2 !! r = Some (ORace ro)) ->
  exists st',
    close (S depth) t st = (Ok tt, st') /\
    heap st' = <[t := OGen GFinished]> (heap st2) /\
    queue st' = queue st2 /\ paused st' = paused st2 /\
    finalizers st' = delete t (finalizers st) /\
    fin_calls st' = fin_calls st ++ match finalizers st !! t with
                                    | Some f => [(f, t, VExc GeneratorExit)]
                                    | None => []
                                    end.
Proof.
  intros Ht Hk Hkk Hb st0 Hop Hf2 Hc2 Hraces. rewrite close_unfold.
  set (s0 := set_queue _ _).
  assert (Ht0 : heap s0 !! t = Some (OGen (GSuspended k'))) by exact Ht.
  assert (E1 : body.task_close (close depth) t s0
               = (Ok tt, set_obj t (OGen GFinished) st2)).
  { unfold body.task_close, get_obj, bind. rewrite Ht0.
    unfold generator.close, generator.get, get_obj, bind. rewrite Ht0.
    cbn [ret]. rewrite Hk. cbn [generator.run_coro].
    change (set_obj t (OGen GRunning) s0) with st0. rewrite Hop, Hkk.
    cbn [generator.run_coro].
    destruct (decide (GeneratorExit = GeneratorExit)); [reflexivity|contradiction]. }
  rewrite (bind_ok _ _ _ _ _ E1). set (st3 := set_obj t _ st2).
  assert (Hf3 : finalizers st3 = finalizers st) by exact Hf2.
  assert (Hb3 : benign st3 t).
  { unfold benign in *. rewrite Hf3.
    destruct (finalizers st !! t) as [[r|]|] eqn:Ef; auto.
    destruct Hb as (ro & Hr & Hfin). exists ro. split; [|exact Hfin].
    assert (Hne : r <> t) by (intros ->; rewrite Ht in Hr; discriminate).
    unfold st3. simpl. rewrite lookup_insert_ne by auto. now apply Hraces. }
  rewrite (finalize_benign_exact _ _ _ _ Hb3). rewrite Hf3.
  eexists. split; [reflexivity|].
  destruct (finalizers st !! t) as [f|] eqn:Ef; simpl.
  - repeat split; auto. now rewrite Hc2.
  - repeat split; auto.
    + rewrite Hf2. symmetry. now apply delete_id.
    + now rewrite Hc2, app_nil_r.
Qed.

(** X11: closing a task that is parked in [await ch.take()] withdraws it.
    The finalizer of the task, if it has one, cannot fail.  The clean-up
    clause of [chan.take] removes the task from the takers of the channel
    (its first occurrence; nothing when it is not parked any more), the
    putters are left alone, the task is closed and its finalizer is called
    once with [GeneratorExit].  A task that was parked once is in the list
    no longer, so that no later value is handed to it. *)
Theorem close_withdraws_taker (depth : nat) (st : state) (ch take t : ref)
        (c : chan_obj) (k : pyval -> coro) :
  heap st !! t = Some (OGen (at_first_yield (yield_from (chan.take ch take) k Raise))) ->
  heap st !! take = Some (OTake ch (Some t)) ->
  heap st !! ch = Some (OChan c) ->
  benign st t ->
  exists st',
    close (S depth) t st = (Ok tt, st') /\
    heap st' !! ch = Some (OChan (mk_chan (putters c) (remove_first t (takers c)))) /\
    (NoDup (takers c) -> t ∉ remove_first t (takers c)) /\
    heap st' !! t = Some (OGen GFinished) /\
    queue st' = filter (fun e => e.1.2 <> t) (queue st) /\
    finalizers st' = delete t (finalizers st) /\
    fin_calls st' = fin_calls st ++ match finalizers st !! t with
                                    | Some f => [(f, t, VExc GeneratorExit)]
                                    | None => []
                                    end.
Proof.
  intros Ht Htake Hch Hb.
  assert (Htt : take <> t) by (intros ->; rewrite Ht in Htake; discriminate).
  assert (Hct : ch <> t) by (intros ->; rewrite Ht in Hch; discriminate).
  set (st0 := set_obj t (OGen GRunning)
                (set_queue (filter (fun e => e.1.2 <> t) (queue st))
                   (set_paused ((fun tasks => tasks ∖ {[t]}) <$> paused st) st))).
  assert (Htake0 : heap st0 !! take = Some (OTake ch (Some t))).
  { unfold st0. simpl. now rewrite lookup_insert_ne by auto. }
  assert (Hch0 : heap st0 !! ch = Some (OChan c)).
  { unfold st0. simpl. now rewrite lookup_insert_ne by auto. }
  assert (Hop : exists st2,
             generator.perform (close depth) (TakersRemove ch take) st0 = (Ok tt, st2) /\
             heap st2 !! ch = Some (OChan (mk_chan (putters c) (remove_first t (takers c)))) /\
             (forall x, x <> ch -> heap st2 !! x = heap st0 !! x) /\
             queue st2 = queue st0 /\ paused st2 = paused st0 /\
             finalizers st2 = finalizers st /\ fin_calls st2 = fin_calls st).
  { cbn [generator.perform]. unfold chan.take_cleanup, get_obj, bind at 1.
    rewrite Htake0. rewrite (bind_ok _ _ _ _ _ (chan_get_ok _ _ _ Hch0)).
    case_bool_decide as Hin.
    - eexists. split; [reflexivity|]. simpl.
      split; [apply lookup_insert_eq|]. split; [|repeat split].
      intros x Hx. now rewrite lookup_insert_ne by auto.
    - exists st0. split; [reflexivity|]. split; [|repeat split].
      rewrite remove_first_absent by exact Hin. rewrite Hch0. now destruct c. }
  destruct Hop as (st2 & Hop & Hch2 & Hk2 & Hq2 & Hp2 & Hf2 & Hc2).
  destruct (close_after_cleanup depth st t (TakersRemove ch take) _ _ st2 Ht eq_refl
              eq_refl Hb Hop Hf2 Hc2) as (st' & E & Hh & Hq & Hp & Hf & Hc).
  { intros r ro Hr Hro.
    assert (Hrc : r <> ch) by (intros ->; rewrite Hch in Hro; discriminate).
    rewrite Hk2 by exact Hrc. unfold st0. simpl. now rewrite lookup_insert_ne by auto. }
  exists st'. split; [exact E|]. rewrite Hh, Hq, Hq2.
  split; [now rewrite lookup_insert_ne by auto|].
  split; [apply remove_first_NoDup|].
  split; [apply lookup_insert_eq|]. repeat split; auto.
Qed.

Lemma close_withdraws_taker_witness :
  let c := mk_chan [] [5%nat; 1%nat] in
  let st := set_obj 1%nat (OGen (at_first_yield
                                   (yield_from (chan.take 0%nat 2%nat) Return Raise)))
              (set_obj 2%nat (OTake 0%nat (Some 1%nat))
                 (set_obj 0%nat (OChan c) (initial true))) in
  benign st 1%nat /\
  exists st',
    close 1 1%nat st = (Ok tt, st') /\
    heap st' !! 0%nat
    = Some (OChan (mk_chan (putters c) (remove_first 1%nat (takers c)))) /\
    (NoDup (takers c) -> 1%nat ∉ remove_first 1%nat (takers c)) /\
    heap st' !! 1%nat = Some (OGen GFinished) /\
    queue st' = filter (fun e => e.1.2 <> 1%nat) (queue st) /\
    finalizers st' = delete 1%nat (finalizers st) /\
    fin_calls st' = fin_calls st ++ match finalizers st !! 1%nat with
                                    | Some f => [(f, 1%nat, VExc GeneratorExit)]
                                    | None => []
                                    end.
Proof.
  intros c st.
  assert (Hb : benign st 1%nat) by (vm_compute; exact I).
  split; [exact Hb|].
  exact (close_withdraws_taker 0 st 0%nat 2%nat 1%nat c Return
           eq_refl eq_refl eq_refl Hb).
Defined.

(** X12: closing a task that is parked in [await ch.put(v)] withdraws its
    value.  The finalizer of the task, if it has one, cannot fail.  The
    clean-up clause of [chan.put] removes the entry [(task, v)] from the
    putters of the channel (its first occurrence; nothing when a taker has
    had it already), the takers are left alone, the task is closed and its
    finalizer is called once with [GeneratorExit]. *)
Theorem close_withdraws_putter (depth : nat) (st : state) (ch put t : ref)
        (v : pyval) (c : chan_obj) (k : pyval -> coro) :
  heap st !! t = Some (OGen (at_first_yield (yield_from (chan.put ch put v) k Raise))) ->
  heap st !! put = Some (OPut ch v (Some t)) ->
  heap st !! ch = Some (OChan c) ->
  benign st t ->
  exists st',
    close (S depth) t st = (Ok tt, st') /\
    heap st' !! ch
    = Some (OChan (mk_chan (remove_first (Some t, v) (putters c)) (takers c))) /\
    (NoDup (putters c) -> (Some t, v) ∉ remove_first (Some t, v) (putters c)) /\
    heap st' !! t = Some (OGen GFinished) /\
    queue st' = filter (fun e => e.1.2 <> t) (queue st) /\
    finalizers st' = delete t (finalizers st) /\
    fin_calls st' = fin_calls st ++ match finalizers st !! t with
                                    | Some f => [(f, t, VExc GeneratorExit)]
                                    | None => []
                                    end.
Proof.
  intros Ht Hput Hch Hb.
  assert (Hpt : put <> t) by (intros ->; rewrite Ht in Hput; discriminate).
  assert (Hct : ch <> t) by (intros ->; rewrite Ht in Hch; discriminate).
  set (st0 := set_obj t (OGen GRunning)
                (set_queue (filter (fun e => e.1.2 <> t) (queue st))
                   (set_paused ((fun tasks => tasks ∖ {[t]}) <$> paused st) st))).
  assert (Hput0 : heap st0 !! put = Some (OPut ch v (Some t))).
  { unfold st0. simpl. now rewrite lookup_insert_ne by auto. }
  assert (Hch0 : heap st0 !! ch = Some (OChan c)).
  { unfold st0. simpl. now rewrite lookup_insert_ne by auto. }
  assert (Hop : exists st2,
             generator.perform (close depth) (PuttersRemove ch put v) st0 = (Ok tt, st2) /\
             heap st2 !! ch
             = Some (OChan (mk_chan (remove_first (Some t, v) (putters c)) (takers c))) /\
             (forall x, x <> ch -> heap st2 !! x = heap st0 !! x) /\
             queue st2 = queue st0 /\ paused st2 = paused st0 /\
             finalizers st2 = finalizers st /\ fin_calls st2 = fin_calls st).
  { cbn [generator.perform]. unfold chan.put_cleanup, get_obj, bind at 1.
    rewrite Hput0. rewrite (bind_ok _ _ _ _ _ (chan_get_ok _ _ _ Hch0)).
    case_bool_decide as Hin.
    - eexists. split; [reflexivity|]. simpl.
      split; [apply lookup_insert_eq|]. split; [|repeat split].
      intros x Hx. now rewrite lookup_insert_ne by auto.
    - exists st0. split; [reflexivity|]. split; [|repeat split].
      rewrite remove_first_absent by exact Hin. rewrite Hch0. now destruct c. }
  destruct Hop as (st2 & Hop & Hch2 & Hk2 & Hq2 & Hp2 & Hf2 & Hc2).
  destruct (close_after_cleanup depth st t (PuttersRemove ch put v) _ _ st2 Ht eq_refl
              eq_refl Hb Hop Hf2 Hc2) as (st' & E & Hh & Hq & Hp & Hf & Hc).
  { intros r ro Hr Hro.
    assert (Hrc : r <> ch) by (intros ->; rewrite Hch in Hro; discriminate).
    rewrite Hk2 by exact Hrc. unfold st0. simpl. now rewrite lookup_insert_ne by auto. }
  exists st'. split; [exact E|]. rewrite Hh, Hq, Hq2.
  split; [now rewrite lookup_insert_ne by auto|].
  split; [apply remove_first_NoDup|].
  split; [apply lookup_insert_eq|]. repeat split; auto.
Qed.

Lemma close_withdraws_putter_witness :
  let c := mk_chan [(None, VStr "a"); (Some 1%nat, VStr "b")] [] in
  let st := set_obj 1%nat (OGen (at_first_yield
                                   (yield_from (chan.put 0%nat 2%nat (VStr "b"))
                                               Return Raise)))
              (set_obj 2%nat (OPut 0%nat (VStr "b") (Some 1%nat))
                 (set_obj 0%nat (OChan c) (initial true))) in
  benign st 1%nat /\
  exists st',
    close 1 1%nat st = (Ok tt, st') /\
    heap st' !! 0%nat
    = Some (OChan (mk_chan (remove_first (Some 1%nat, VStr "b") (putters c))
                           (takers c))) /\
    (NoDup (putters c) ->
     (Some 1%nat, VStr "b") ∉ remove_first (Some 1%nat, VStr "b") (putters c)) /\
    heap st' !! 1%nat = Some (OGen GFinished) /\
    queue st' = filter (fun e => e.1.2 <> 1%nat) (queue st) /\
    finalizers st' = delete 1%nat (finalizers st) /\
    fin_calls st' = fin_calls st ++ match finalizers st !! 1%nat with
                                    | Some f => [(f, 1%nat, VExc GeneratorExit)]
                                    | None => []
                                    end.
Proof.
  intros c st.
  assert (Hb : benign st 1%nat) by (vm_compute; exact I).
  split; [exact Hb|].
  exact (close_withdraws_putter 0 st 0%nat 2%nat 1%nat (VStr "b") c Return
           eq_refl eq_refl eq_refl Hb).
Defined.

(** ** What a step leaves alone *)

Section FrameStep.
Context {T : Type} (f : state -> T).
Hypothesis f_queue : forall q st, f (set_queue q st) = f st.
Hypothesis f_paused : forall p st, f (set_paused p st) = f st.
Hypothesis f_finalizers : forall fs st, f (set_finalizers fs st) = f st.
Hypothesis f_heap : forall h st, f (set_heap h st) = f st.
Hypothesis f_fin_calls : forall l st, f (set_fin_calls l st) = f st.
Hypothesis f_logged : forall l st, f (set_logged l st) = f st.
Hypothesis f_hook_calls : forall n st, f (set_hook_calls n st) = f st.

Lemma keeps_step_body stp cl task value :
  (forall t v, keeps f (stp t v)) -> (forall t, keeps f (cl t)) ->
  keeps f (body._step stp cl task value).
Proof.
  intros Hstp Hcl.
  assert (Hgs : forall s v, keeps f (generator.send cl s v))
    by (intros; apply keeps_generator_send; auto).
  assert (Hgt : forall s e, keeps f (generator.throw cl s e))
    by (intros; apply keeps_generator_throw; auto).
  assert (Hw : forall s, keeps f (wait.get s)) by (intros; apply keeps_wait_get).
  assert (Hd : forall i t, keeps f (paused_discard i t))
    by (intros; apply keeps_paused_discard; auto).
  assert (Hq : forall t, keeps f (utimeq.discard t))
    by (intros; apply keeps_discard; auto).
  assert (Hfin : forall v, keeps f (body.finalize cl task v))
    by (intros; apply keeps_finalize; auto).
  assert (Hh : forall y, keeps f (body.syscall_handle y task))
    by (intros; apply keeps_syscall_handle; auto).
  assert (Hl : forall entry, keeps f (log entry)) by (intros; now apply log_keeps).
  assert (Hres : keeps f (body.resume_task stp cl task value)).
  { assert (Hsend : forall v, keeps f (body.task_send stp cl task v)).
    { intros v. unfold body.task_send, wait.send, wait.step_callback.
      repeat keeps_step. }
    destruct value; try apply Hsend.
    unfold body.resume_task, body.task_throw, wait.throw, wait.step_callback.
    repeat keeps_step. }
  intros st. unfold body._step. specialize (Hres st).
  destruct (body.resume_task stp cl task value st) as [[[y|v]|e] st1];
    cbn [fst snd] in Hres; rewrite <- Hres.
  - assert (K : keeps f (handled <- body.syscall_handle y task ;
                         match handled with
                         | Some _ => ret tt
                         | None => log (LogError "unknown syscall: %s" y) ;;
                                   raise RuntimeError
                         end ;;
                         st <- get_state ;
                         if after_step_hook st
                         then modify (fun st => set_hook_calls (S (hook_calls st)) st)
                         else ret tt)).
    { apply keeps_bind; [apply Hh|intros handled].
      apply keeps_bind.
      - destruct handled; [apply keeps_ret|].
        apply keeps_bind; [apply Hl|intros _; apply keeps_raise].
      - intros _. apply keeps_bind; [apply keeps_get_state|intros s].
        destruct (after_step_hook s); [|apply keeps_ret].
        apply keeps_modify. intros s'. apply f_hook_calls. }
    apply K.
  - apply keeps_bind; [apply Hl|intros _; apply Hfin].
  - destruct (is_Exception e); [|reflexivity].
    apply keeps_bind; [apply Hl|intros _; apply Hfin].
Qed.

Lemma keeps_step_at depth task value : keeps f (_step depth task value).
Proof.
  revert task value. induction depth as [|d IH]; intros task value; simpl.
  - apply keeps_raise.
  - apply keeps_step_body; [exact IH|].
    intros t. now apply keeps_close.
Qed.
End FrameStep.
(** ** [run]: events nobody waits for *)

(** The delay [run] computes for [io.poll] is always defined. *)
Lemma run_delay_ok st :
  exists delay,
    (if utimeq.nonempty st then
       t <- utimeq.peektime ;
       now <- utime.ticks_us ;
       ret (utime.ticks_diff t now)
     else ret 1000000) st = (Ok delay, st).
Proof.
  unfold utimeq.nonempty. destruct (queue st) as [|e q] eqn:Hq.
  - eexists. reflexivity.
  - exists (utime.ticks_diff e.1.1 (clock st)).
    unfold utimeq.peektime, utime.ticks_us, bind, ret. now rewrite Hq.
Qed.

Lemma paused_pop_nobody st iface :
  paused st !! iface = None \/ paused st !! iface = Some ∅ ->
  paused_pop iface st = (Ok [], set_paused (delete iface (paused st)) st).
Proof.
  intros [H|H]; unfold paused_pop; rewrite H.
  - f_equal. apply state_ext; try reflexivity. simpl. symmetry. now apply delete_id.
  - now rewrite elements_empty.
Qed.

(** X13: an I/O event on an interface on which nobody is paused (no key, or
    a key left with an empty set) is dropped.  In a turn with no synthetic
    event pending, [run] pops the key and steps no task, not even the one
    that is due in the timed queue.  Only the clock moves on. *)
Theorem run_turn_drops_unheard_event (depth : nat) (st : state) (iface el : Z)
        (value : pyval) :
  debug st = false \/ synthetic_events st = [] ->
  paused st !! iface = None \/ paused st !! iface = Some ∅ ->
  run_turn depth (mk_poll el (Some (iface, value))) st
  = (Ok tt, set_paused (delete iface (paused st))
              (set_clock (utime.ticks_add (clock st) el) st)).
Proof.
  intros Hsyn Hp. unfold run_turn. unfold bind at 1, get_state.
  destruct (run_delay_ok st) as [delay Ed]. rewrite (bind_ok _ _ _ _ _ Ed).
  assert (Es : (if debug st then
                  match synthetic_events st with
                  | (iface, event) :: rest =>
                      msg_tasks <- paused_pop iface ;
                      match msg_tasks with
                      | [] => ret tt
                      | _ :: _ =>
                          modify (set_synthetic_events rest) ;;
                          for_each msg_tasks (fun task => _step depth task event)
                      end
                  | [] => ret tt
                  end
                else ret tt) st = (Ok tt, st)).
  { destruct Hsyn as [-> | ->]; [reflexivity|]. now destruct (debug st). }
  rewrite (bind_ok _ _ _ _ _ Es).
  unfold bind at 1, io.poll. cbn [message elapsed].
  set (st1 := set_clock _ st).
  assert (Hp1 : paused st1 !! iface = None \/ paused st1 !! iface = Some ∅) by exact Hp.
  now rewrite (bind_ok _ _ _ _ _ (paused_pop_nobody st1 iface Hp1)).
Qed.

Lemma run_turn_drops_unheard_event_witness :
  let st := (schedule 1%nat VNone None None scenario.waited_then_closed).2 in
  (debug st = false \/ synthetic_events st = []) /\
  (paused st !! 7 = None \/ paused st !! 7 = Some ∅) /\
  run_turn 8 (mk_poll 10 (Some (7, VStr "touch"))) st
  = (Ok tt, set_paused (delete 7 (paused st))
              (set_clock (utime.ticks_add (clock st) 10) st)).
Proof.
  intros st.
  assert (Hsyn : debug st = false \/ synthetic_events st = []) by (right; reflexivity).
  assert (Hp : paused st !! 7 = None \/ paused st !! 7 = Some ∅)
    by (right; vm_compute; reflexivity).
  split; [exact Hsyn|]. split; [exact Hp|].
  exact (run_turn_drops_unheard_event 8 st 7 10 (VStr "touch") Hsyn Hp).
Defined.

(** ** [run]: synthetic events *)

(** X14: in a debug build, a synthetic event is delivered only when tasks
    are paused on its interface.  While nobody is (no key, or a key with an
    empty set), the event stays at the head of [synthetic_events] and the
    events behind it wait, whatever else the turn does: the I/O event or the
    timed task of that turn is handled as usual. *)
Theorem synthetic_event_waits_for_listener (depth : nat) (p : poll) (st : state)
        (iface : Z) (event : pyval) (rest : list (Z * pyval)) :
  debug st = true ->
  synthetic_events st = (iface, event) :: rest ->
  paused st !! iface = None \/ paused st !! iface = Some ∅ ->
  synthetic_events (run_turn depth p st).2 = (iface, event) :: rest.
Proof.
  intros Hd Hs Hp. unfold run_turn. unfold bind at 1, get_state.
  destruct (run_delay_ok st) as [delay Ed]. rewrite (bind_ok _ _ _ _ _ Ed).
  set (st1 := set_paused (delete iface (paused st)) st).
  assert (Es : (if debug st then
                  match synthetic_events st with
                  | (iface, event) :: rest =>
                      msg_tasks <- paused_pop iface ;
                      match msg_tasks with
                      | [] => ret tt
                      | _ :: _ =>
                          modify (set_synthetic_events rest) ;;
                          for_each msg_tasks (fun task => _step depth task event)
                      end
                  | [] => ret tt
                  end
                else ret tt) st = (Ok tt, st1)).
  { rewrite Hd, Hs. now rewrite (bind_ok _ _ _ _ _ (paused_pop_nobody st iface Hp)). }
  rewrite (bind_ok _ _ _ _ _ Es).
  change (synthetic_events st1 = (iface, event) :: rest) in Hs. rewrite <- Hs.
  assert (Hstep : forall t v, keeps synthetic_events (_step depth t v))
    by (intros; apply keeps_step_at; reflexivity).
  assert (Hpop : forall i, keeps synthetic_events (paused_pop i))
    by (intros; apply keeps_paused_pop; reflexivity).
  assert (Hq : keeps synthetic_events utimeq.pop)
    by (apply keeps_pop; reflexivity).
  assert (Hpoll : keeps synthetic_events (io.poll p delay)) by (intros s; reflexivity).
  clear Es Hs. generalize st1. clear st1.
  apply keeps_bind; [exact Hpoll|intros msg].
  destruct msg as [[i v]|]; repeat keeps_step.
Qed.

Lemma synthetic_event_waits_for_listener_witness :
  let st := set_synthetic_events [(7, VStr "touch"); (9, VStr "usb")]
              (schedule 1%nat VNone None None scenario.fresh_task).2 in
  debug st = true /\
  synthetic_events st = [(7, VStr "touch"); (9, VStr "usb")] /\
  (paused st !! 7 = None \/ paused st !! 7 = Some ∅) /\
  synthetic_events (run_turn 8 (scenario.idle 0) st).2
  = [(7, VStr "touch"); (9, VStr "usb")].
Proof.
  intros st.
  assert (Hp : paused st !! 7 = None \/ paused st !! 7 = Some ∅)
    by (left; vm_compute; reflexivity).
  split; [reflexivity|]. split; [reflexivity|]. split; [exact Hp|].
  exact (synthetic_event_waits_for_listener 8 (scenario.idle 0) st 7 (VStr "touch")
           [(9, VStr "usb")] eq_refl eq_refl Hp).
Defined.

(** ** [sleep] *)

(** X15: a task that yields [sleep(delay_us)], the timed queue having
    room, is put on the queue once, due at [ticks_add(now, delay_us)], and
    the value it will be resumed with is that deadline.  [handle] pauses
    nothing and touches no finalizer: the one the task was scheduled with is
    kept for the day it ends.  The after-step hook runs. *)
Theorem step_sleep_queues_task (depth : nat) (task : ref) (value : pyval)
        (st st1 : state) (s : ref) (delay_us : Z) :
  body.resume_task (_step depth) (close depth) task value st
  = (Ok (Yields (VObj s)), st1) ->
  heap st1 !! s = Some (OSleep delay_us) ->
  (length (queue st1) < utimeq.capacity)%nat ->
  let deadline := utime.ticks_add (clock st1) delay_us in
  _step (S depth) task value st
  = (Ok tt, call_hook (set_queue (utimeq.insert (deadline, task, VInt deadline)
                                                (queue st1)) st1)).
Proof.
  intros Hres Hs Hroom deadline. cbn [_step]. unfold body._step. rewrite Hres.
  unfold body.syscall_handle, get_obj, bind at 1. unfold bind at 1. rewrite Hs.
  unfold bind at 1, sleep.handle, get_obj. unfold bind at 1. rewrite Hs.
  unfold bind at 1, utime.ticks_us. unfold schedule, bind at 1. cbn [ret].
  unfold bind at 1. cbn [ret]. unfold utimeq.push.
  destruct (Nat.leb_spec utimeq.capacity (length (queue st1))) as [Hle|_]; [lia|].
  unfold bind, ret, get_state, modify, call_hook. cbn [after_step_hook set_queue].
  now destruct (after_step_hook st1).
Qed.

Lemma step_sleep_queues_task_witness :
  let st := set_obj 1%nat (OGen (GUnstarted (yield_from (Syscall.__iter__ 0%nat)
                                                        Return Raise)))
              (set_obj 0%nat (OSleep 1000) (initial true)) in
  exists st1,
    body.resume_task (_step 0) (close 0) 1%nat VNone st = (Ok (Yields (VObj 0%nat)), st1) /\
    heap st1 !! 0%nat = Some (OSleep 1000) /\
    (length (queue st1) < utimeq.capacity)%nat /\
    _step 1 1%nat VNone st
    = (Ok tt, call_hook (set_queue (utimeq.insert (utime.ticks_add (clock st1) 1000, 1%nat,
                                                   VInt (utime.ticks_add (clock st1) 1000))
                                                  (queue st1)) st1)).
Proof.
  intros st. eexists. split; [reflexivity|].
  match goal with
  | |- _ /\ _ /\ _ = (_, call_hook (set_queue _ ?s)) =>
      assert (Hs : heap s !! 0%nat = Some (OSleep 1000)) by reflexivity;
      assert (Hroom : (length (queue s) < utimeq.capacity)%nat) by (vm_compute; lia);
      split; [exact Hs|]; split; [exact Hroom|];
      exact (step_sleep_queues_task 0 1%nat VNone st s 0%nat 1000 eq_refl Hs Hroom)
  end.
Defined.

(** ** [close] absorbs [GeneratorExit] *)

Lemma never_raises_ret {A} e (a : A) : never_raises e (ret a).
Proof. intros st. discriminate. Qed.

Lemma never_raises_raise {A} e e' : e' <> e -> never_raises e (@raise A e').
Proof. intros H st [= E]. now apply H. Qed.

Lemma never_raises_bind {A B} e (m : M A) (k : A -> M B) :
  never_raises e m -> (forall a, never_raises e (k a)) -> never_raises e (bind m k).
Proof.
  intros Hm Hk st. unfold bind. specialize (Hm st).
  destruct (m st) as [[a|e'] st']; [apply Hk|].
  simpl in *. intros [= E]. apply Hm. now rewrite E.
Qed.

Lemma never_raises_modify e g : never_raises e (modify g).
Proof. intros st. discriminate. Qed.

Lemma never_raises_for_each {A} e (xs : list A) (body : A -> M unit) :
  (forall x, never_raises e (body x)) -> never_raises e (for_each xs body).
Proof.
  intros H. induction xs as [|x xs IH]; simpl.
  - apply never_raises_ret.
  - apply never_raises_bind; [apply H|intros _; exact IH].
Qed.

Lemma never_raises_race_get e self : e <> AttributeError -> never_raises e (race.get self).
Proof.
  intros He st. destruct (race_get_cases st self) as [(ro & _ & ->)| ->];
    [discriminate|]. intros [= E]. now apply He.
Qed.

Lemma never_raises_schedule e task value deadline fin :
  e <> IndexError -> never_raises e (schedule task value deadline fin).
Proof.
  intros He st. unfold schedule, bind, utimeq.push, modify.
  destruct deadline, fin; cbn -[Nat.leb];
    destruct (Nat.leb _ _); try discriminate; intros [= E]; now apply He.
Qed.

Lemma never_raises_finish cl self task result :
  (forall t, never_raises GeneratorExit (cl t)) ->
  never_raises GeneratorExit (race._finish cl self task result).
Proof.
  intros Hcl. unfold race._finish, race.update, race.exit.
  apply never_raises_bind; [now apply never_raises_race_get|intros r].
  destruct (finished r); [apply never_raises_ret|].
  apply never_raises_bind.
  { apply never_raises_bind; [now apply never_raises_race_get|intros r'].
    apply never_raises_modify. }
  intros _. apply never_raises_bind.
  { apply never_raises_bind; [now apply never_raises_race_get|intros r'].
    apply never_raises_for_each. intros t.
    destruct (decide _); [apply never_raises_ret|apply Hcl]. }
  intros _. apply never_raises_bind; [now apply never_raises_race_get|intros r'].
  destruct (race_callback r'); [now apply never_raises_schedule|].
  now apply never_raises_raise.
Qed.

Lemma never_raises_finalize cl task value :
  (forall t, never_raises GeneratorExit (cl t)) ->
  never_raises GeneratorExit (body.finalize cl task value).
Proof.
  intros Hcl. unfold body.finalize.
  apply never_raises_bind; [intros st; discriminate|intros st0].
  destruct (finalizers st0 !! task) as [fn|]; [|apply never_raises_ret].
  apply never_raises_bind; [apply never_raises_modify|intros _].
  apply never_raises_bind; [apply never_raises_modify|intros _].
  destruct fn; [now apply never_raises_finish|apply never_raises_ret].
Qed.

(** [generator.close()] turns the [GeneratorExit] that comes back out of
    the generator into a normal return. *)
Lemma never_raises_generator_close cl self :
  never_raises GeneratorExit (generator.close cl self).
Proof.
  intros st. unfold generator.close.
  destruct (generator_get_cases st self) as [(g & Hg & E)|E];
    [rewrite (bind_ok _ _ _ _ _ E)|rewrite (bind_exc _ _ _ _ _ E); discriminate].
  destruct g as [body|k| |]; try discriminate.
  destruct (generator.run_coro cl _ _) as [[y k'|v|e] st']; try discriminate.
  simpl. destruct (decide (e = GeneratorExit)); [discriminate|congruence].
Qed.

Lemma never_raises_close depth task : never_raises GeneratorExit (close depth task).
Proof.
  revert task. induction depth as [|d IH]; intros task; simpl.
  - now apply never_raises_raise.
  - unfold body.close.
    apply never_raises_bind; [apply never_raises_modify|intros _].
    apply never_raises_bind; [apply never_raises_modify|intros _].
    apply never_raises_bind; [|intros _; now apply never_raises_finalize].
    unfold body.task_close, wait.close.
    apply never_raises_bind; [intros st; discriminate|intros o].
    destruct o as [[]|]; try (now apply never_raises_raise).
    + apply never_raises_generator_close.
    + apply never_raises_ret.
Qed.

Lemma never_raises_exit_loop depth except_for tasks :
  never_raises GeneratorExit (exit_loop depth except_for tasks).
Proof.
  apply never_raises_for_each. intros t.
  destruct (decide _); [apply never_raises_ret|apply never_raises_close].
Qed.

(** ** Closing a task that awaits a [race] *)

Lemma exit_loop_closes_all depth except_for tasks st st' :
  exit_loop depth except_for tasks st = (Ok tt, st') ->
  forall c, c ∈ tasks -> Some c <> except_for -> closed st' c.
Proof.
  revert st. induction tasks as [|t tasks IH]; intros st Hloop c Hin Hne.
  - now apply elem_of_nil in Hin.
  - unfold exit_loop in Hloop. cbn [for_each] in Hloop. unfold bind at 1 in Hloop.
    destruct ((if decide (Some t = except_for) then ret tt else close depth t) st)
      as [[[]|e] st1] eqn:E1; [|discriminate].
    fold (exit_loop depth except_for tasks st1) in Hloop.
    destruct (decide (c ∈ tasks)) as [Hin'|Hin']; [now apply (IH st1)|].
    apply elem_of_cons in Hin as [->|Hin]; [|contradiction].
    destruct (decide (Some t = except_for)) as [E|_]; [contradiction|].
    eapply closed_stable.
    + pose proof (exit_loop_teardown depth except_for tasks st1) as T.
      rewrite Hloop in T. exact T.
    + eapply close_closes. exact E1.
Qed.

Lemma closed_set_finished st c t :
  closed st c -> closed (set_obj t (OGen GFinished) st) c.
Proof.
  intros (Hf & Hp & Hg). split; [exact Hf|]. split; [exact Hp|].
  intros g. simpl. destruct (decide (t = c)) as [->|Hne].
  - rewrite lookup_insert_eq. congruence.
  - rewrite lookup_insert_ne by auto. apply Hg.
Qed.

(** When [close] of a task suspended in [await race(...)] returns, the
    clean-up clause of [race.__iter__] has closed every scheduled child. *)
Lemma close_race_cancelled (depth : nat) (st st' : state) (t r : ref)
        (ro : race_obj) (k : pyval -> coro) :
  heap st !! t = Some (OGen (at_first_yield (yield_from (race.__iter__ r) k Raise))) ->
  heap st !! r = Some (ORace ro) ->
  close (S depth) t st = (Ok tt, st') ->
  (forall c, c ∈ scheduled ro -> closed st' c) /\ closed st' t.
Proof.
  intros Ht Hr Hclose. split; [|eapply close_closes; exact Hclose].
  assert (Hrt : r <> t) by (intros ->; rewrite Ht in Hr; discriminate).
  rewrite close_unfold in Hclose. set (s0 := set_queue _ _) in Hclose.
  assert (Ht0 : heap s0 !! t
                = Some (OGen (at_first_yield (yield_from (race.__iter__ r) k Raise))))
    by exact Ht.
  unfold bind at 1 in Hclose.
  destruct (body.task_close (close depth) t s0) as [[[]|e] s3] eqn:E1; [|discriminate].
  unfold body.task_close, get_obj, bind in E1. rewrite Ht0 in E1.
  unfold generator.close, generator.get, get_obj, bind in E1. rewrite Ht0 in E1.
  cbn [ret at_first_yield yield_from race.__iter__ generator.run_coro generator.perform]
    in E1.
  set (s1 := set_obj t (OGen GRunning) s0) in E1.
  assert (Hr1 : heap s1 !! r = Some (ORace ro)).
  { unfold s1, s0. simpl. now rewrite lookup_insert_ne by auto. }
  unfold race.exit in E1. rewrite (bind_ok _ _ _ _ _ (race_get_ok _ _ _ Hr1)) in E1.
  fold (exit_loop depth None (scheduled ro)) in E1.
  pose proof (never_raises_exit_loop depth None (scheduled ro) s1) as Hnr.
  destruct (exit_loop depth None (scheduled ro) s1) as [[[]|e] s2] eqn:Eloop;
    cbn [generator.run_coro yield_from fst] in E1, Hnr.
  2:{ (* the loop raised: [close] does not return *)
      destruct (decide (e = GeneratorExit)) as [->|Hne]; [|discriminate].
      exfalso. now apply Hnr. }
  destruct (decide (GeneratorExit = GeneratorExit)); [|contradiction].
  injection E1 as <-.
  intros c Hc.
  eapply closed_stable.
  - pose proof (finalize_teardown cancelled (close depth) (close_teardown depth) t
                  (VExc GeneratorExit) (set_obj t (OGen GFinished) s2) eq_refl) as T.
    rewrite Hclose in T. exact T.
  - apply closed_set_finished. eapply exit_loop_closes_all; [exact Eloop|exact Hc|].
    discriminate.
Qed.

(** ** [chan]: takers that wait for values *)

(** Taking with nothing parked parks the takers in order. *)
Lemma take_all_park st ch tk ts :
  heap st !! ch = Some (OChan (mk_chan [] tk)) ->
  for_each ts (chan._schedule_take ch) st
  = (Ok tt, set_obj ch (OChan (mk_chan [] (tk ++ ts))) st).
Proof.
  revert st tk. induction ts as [|t ts IH]; intros st tk Hc; simpl.
  - rewrite app_nil_r. now rewrite set_obj_id.
  - rewrite (bind_ok _ _ st tt (set_obj ch (OChan (mk_chan [] (tk ++ [t]))) st)).
    + rewrite (IH _ (tk ++ [t])) by apply lookup_insert_eq.
      now rewrite set_obj_twice, <- app_assoc.
    + unfold chan._schedule_take.
      now rewrite (bind_ok _ _ _ _ _ (chan_get_ok _ _ _ Hc)).
Qed.

(** Published values meet the parked takers first come, first served. *)
Lemma publish_serves st ch ps ts vs :
  heap st !! ch = Some (OChan (mk_chan ps ts)) ->
  (length (queue st) + min (length vs) (length ts) <= utimeq.capacity)%nat ->
  for_each vs (chan.publish ch) st
  = (Ok tt,
     set_queue (foldl (fun q tv => utimeq.insert (clock st, tv.1, tv.2) q)
                      (queue st) (zip ts vs))
       (set_obj ch (OChan (mk_chan (ps ++ map (fun v => (None, v)) (drop (length ts) vs))
                                   (drop (length vs) ts))) st)).
Proof.
  revert st ts. induction vs as [|v vs IH]; intros st ts Hc Hlen.
  - simpl. rewrite drop_0, drop_nil, app_nil_r.
    replace (zip ts []) with (@nil (ref * pyval)) by now destruct ts.
    simpl. now rewrite set_queue_set_obj, set_queue_id, set_obj_id.
  - destruct ts as [|t ts].
    + rewrite (publish_all st ch ps (v :: vs) Hc). simpl.
      now rewrite set_queue_set_obj, set_queue_id.
    + cbn [for_each].
      assert (Hroom : (length (queue st) < utimeq.capacity)%nat)
        by (simpl in Hlen; lia).
      rewrite (bind_ok _ _ st tt
                 (set_queue (utimeq.insert (clock st, t, v) (queue st))
                    (set_obj ch (OChan (mk_chan ps ts)) st))).
      2:{ unfold chan.publish.
          rewrite (bind_ok _ _ _ _ _ (chan_get_ok _ _ _ Hc)).
          cbn [putters takers].
          rewrite (bind_ok (chan.set ch _) _ st tt
                     (set_obj ch (OChan (mk_chan ps ts)) st)) by reflexivity.
          exact (schedule_plain_ok (set_obj ch _ st) t v Hroom). }
      rewrite (IH _ ts).
      * simpl. now rewrite set_queue_obj_twice.
      * apply lookup_insert_eq.
      * simpl in *. rewrite insert_length. lia.
Qed.

(** X16: on a channel with nobody parked, the tasks [ts] take first and
    the values [vs] are published afterwards, the timed queue having room
    for the takers that are woken.  The takers are parked in their order of
    arrival and served in that order: the i-th taker is scheduled with the
    i-th value.  The state is the one reached when the values are published
    first and the takers come afterwards: who arrives first does not change
    who gets what. *)
Theorem takers_served_in_order (st : state) (ch : ref) (ts : list ref)
        (vs : list pyval) :
  heap st !! ch = Some (OChan (mk_chan [] [])) ->
  (length (queue st) + min (length vs) (length ts) <= utimeq.capacity)%nat ->
  let st' :=
    set_queue (foldl (fun q tv => utimeq.insert (clock st, tv.1, tv.2) q)
                     (queue st) (zip ts vs))
      (set_obj ch (OChan (mk_chan (map (fun v => (None, v)) (drop (length ts) vs))
                                  (drop (length vs) ts))) st) in
  (for_each ts (chan._schedule_take ch) ;; for_each vs (chan.publish ch)) st
  = (Ok tt, st') /\
  (for_each vs (chan.publish ch) ;; for_each ts (chan._schedule_take ch)) st
  = (Ok tt, st').
Proof.
  intros Hc Hlen st'. split.
  - rewrite (bind_ok _ _ _ _ _ (take_all_park st ch [] ts Hc)). simpl.
    rewrite (publish_serves _ ch [] ts vs); [|apply lookup_insert_eq|exact Hlen].
    simpl. unfold st'. now rewrite !set_queue_set_obj, set_obj_twice.
  - rewrite (bind_ok _ _ _ _ _ (publish_all st ch [] vs Hc)). simpl.
    rewrite (take_all _ ch vs [] ts); [|apply lookup_insert_eq|exact Hlen].
    simpl. unfold st'. now rewrite !set_queue_set_obj, set_obj_twice.
Qed.

Lemma takers_served_in_order_witness :
  let st := set_obj 0%nat (OChan (mk_chan [] [])) (initial true) in
  let ts := [5%nat; 6%nat; 7%nat] in
  let vs := [VStr "a"; VStr "b"] in
  heap st !! 0%nat = Some (OChan (mk_chan [] [])) /\
  (length (queue st) + min (length vs) (length ts) <= utimeq.capacity)%nat /\
  let st' :=
    set_queue (foldl (fun q tv => utimeq.insert (clock st, tv.1, tv.2) q)
                     (queue st) (zip ts vs))
      (set_obj 0%nat (OChan (mk_chan (map (fun v => (None, v)) (drop (length ts) vs))
                                     (drop (length vs) ts))) st) in
  (for_each ts (chan._schedule_take 0%nat) ;; for_each vs (chan.publish 0%nat)) st
  = (Ok tt, st') /\
  (for_each vs (chan.publish 0%nat) ;; for_each ts (chan._schedule_take 0%nat)) st
  = (Ok tt, st').
Proof.
  intros st ts vs. split; [reflexivity|]. split; [vm_compute; lia|].
  apply (takers_served_in_order st 0%nat ts vs); [reflexivity|vm_compute; lia].
Defined.

(** ** When cancelling a race goes through *)

Lemma exit_loop_quiet_any depth except_for tasks st :
  (forall c, c ∈ tasks -> Some c <> except_for -> quiet st c /\ benign st c) ->
  exists st', exit_loop (S depth) except_for tasks st = (Ok tt, st') /\
              (length (queue st') <= length (queue st))%nat.
Proof.
  revert st. induction tasks as [|t tasks IH]; intros st Hall.
  - exists st. split; [reflexivity|lia].
  - unfold exit_loop. cbn [for_each].
    destruct (decide (Some t = except_for)) as [E|Hne].
    + destruct (IH st) as (st' & E' & Hlen).
      { intros c Hc. apply Hall. now right. }
      exists st'. split; [exact E'|exact Hlen].
    + destruct (Hall t (list_elem_of_here _ _) Hne) as [Hq Hb].
      destruct (close_quiet_effect depth t st Hq Hb)
        as (st1 & E1 & Hlen1 & Hh & Ht & Hf).
      rewrite (bind_ok _ _ _ _ _ E1).
      destruct (IH st1) as (st' & E & Hlen).
      { intros c Hc Hcne.
        destruct (Hall c (list_elem_of_further _ _ _ Hc) Hcne) as [Hqc Hbc].
        split; [exact (quiet_after st st1 t c Hh Ht Hqc)|].
        exact (benign_after st st1 t c Hq Hh Hf Hbc). }
      exists st'. split; [exact E|lia].
Qed.

(** A task that was quiet and has been closed is quiet. *)
Lemma quiet_closed ok st st' c :
  teardown ok st st' -> quiet st c -> closed st' c -> quiet st' c.
Proof.
  intros (H & _) Hq (_ & _ & Hg). unfold quiet in *. specialize (H c).
  destruct (heap st !! c) as [[g| | |w| | | |]|] eqn:E; try contradiction.
  - assert (Hg' : exists g', heap st' !! c = Some (OGen g')).
    { destruct g; simpl in H; eauto. }
    destruct Hg' as [g' Hg']. rewrite Hg'. now rewrite (Hg g' Hg').
  - simpl in H. now rewrite H.
Qed.

Lemma benign_closed st c : closed st c -> benign st c.
Proof. intros (Hf & _). unfold benign. now rewrite Hf. Qed.

(** The first child of an unfinished race to be closed finishes the race:
    it closes the others and schedules the caller. *)
Lemma close_first_child depth st r rr cb c :
  heap st !! r = Some (ORace rr) ->
  finished rr = false ->
  race_callback rr = Some cb ->
  finalizers st !! c = Some (FinRace r) ->
  quiet st c ->
  (forall c', c' ∈ scheduled rr -> c' <> c ->
              quiet st c' /\ (benign st c' \/ finalizers st !! c' = Some (FinRace r))) ->
  (length (queue st) < utimeq.capacity)%nat ->
  exists st',
    close (S (S depth)) c st = (Ok tt, st') /\
    (forall c', c' ∈ scheduled rr -> c' <> c -> closed st' c').
Proof.
  intros Hr Hf Hcb Hreg Hq Hall Hroom.
  assert (Hrc : r <> c) by (intros ->; unfold quiet in Hq; now rewrite Hr in Hq).
  rewrite close_unfold. set (s0 := set_queue _ _).
  assert (Hq0 : quiet s0 c) by exact Hq.
  destruct (task_close_quiet_effect (close (S depth)) c s0 Hq0)
    as (s1 & E1 & Hq1 & Hf1 & Hh1 & Hc1).
  rewrite (bind_ok _ _ _ _ _ E1).
  assert (Hr1 : heap s1 !! r = Some (ORace rr)) by (rewrite Hh1 by exact Hrc; exact Hr).
  assert (Hreg1 : finalizers s1 !! c = Some (FinRace r)) by (rewrite Hf1; exact Hreg).
  fold (finalize (S depth) c (VExc GeneratorExit)).
  rewrite (finalize_race_unfold _ _ _ _ _ _ Hr1 Hf Hreg1).
  set (s2 := set_obj r _ _).
  assert (Hr2 : heap s2 !! r
                = Some (ORace (mk_race (children rr) (scheduled rr) true (race_callback rr))))
    by apply lookup_insert_eq.
  assert (Hothers : forall c', c' ∈ scheduled rr -> c' <> c ->
                               quiet s2 c' /\ benign s2 c').
  { intros c' Hc' Hne. destruct (Hall c' Hc' Hne) as [Hqc Hbc].
    assert (Hrc' : c' <> r) by (intros ->; unfold quiet in Hqc; now rewrite Hr in Hqc).
    assert (Hheap : forall x, x <> c -> x <> r -> heap s2 !! x = heap st !! x).
    { intros x Hx1 Hx2. unfold s2. simpl. rewrite lookup_insert_ne by auto.
      now apply Hh1. }
    split.
    - unfold quiet. now rewrite Hheap.
    - unfold benign. unfold s2. simpl. rewrite lookup_delete_ne by auto. rewrite Hf1.
      change (finalizers s0) with (finalizers st).
      destruct Hbc as [Hbc|Hbc].
      + unfold benign in Hbc. destruct (finalizers st !! c') as [[r'|]|]; auto.
        destruct Hbc as (ro' & Hr' & Hfin').
        destruct (decide (r' = r)) as [->|Hne'].
        * eexists. split; [apply lookup_insert_eq|reflexivity].
        * exists ro'. split; [|exact Hfin'].
          rewrite lookup_insert_ne by auto. rewrite Hh1; [exact Hr'|].
          intros ->. unfold quiet in Hq. now rewrite Hr' in Hq.
      + rewrite Hbc. eexists. split; [apply lookup_insert_eq|reflexivity]. }
  destruct (exit_loop_quiet depth c (scheduled rr) s2 Hothers) as (s3 & E3 & Hlen3).
  rewrite (bind_ok _ _ _ _ _ E3).
  pose proof (exit_loop_teardown (S depth) (Some c) (scheduled rr) s2) as T.
  rewrite E3 in T. cbn [snd] in T. destruct T as (H23 & _).
  destruct (heap_evolves_race _ _ _ _ H23 Hr2) as (ro3 & Hr3 & _ & _ & Hcb3 & _).
  simpl in Hcb3.
  rewrite (bind_ok _ _ _ _ _ (race_get_ok _ _ _ Hr3)), Hcb3, Hcb.
  assert (Hroom3 : (length (queue s3) < utimeq.capacity)%nat).
  { assert (Hl0 : (length (queue s0) <= length (queue st))%nat)
      by (unfold s0; simpl; apply length_filter).
    assert (Hl2 : queue s2 = queue s0) by (unfold s2; simpl; exact Hq1).
    rewrite Hl2 in Hlen3. lia. }
  rewrite schedule_plain_ok by exact Hroom3.
  eexists. split; [reflexivity|].
  intros c' Hc' Hne.
  destruct (exit_loop_closes _ _ _ _ _ E3 c' Hc' Hne) as (Hcf & Hcp & Hcg).
  split; [exact Hcf|]. split; [exact Hcp|exact Hcg].
Qed.

(** [self.exit()] from the clean-up clause: every scheduled child is quiet
    and its finalizer is this race's [_finish] or cannot fail. *)
Lemma exit_all_returns depth r cb sched tasks : forall st rr,
  heap st !! r = Some (ORace rr) ->
  scheduled rr = sched ->
  race_callback rr = Some cb ->
  (forall c, c ∈ tasks -> c ∈ sched) ->
  (forall c, c ∈ sched ->
             quiet st c /\ (benign st c \/ finalizers st !! c = Some (FinRace r))) ->
  (length (queue st) < utimeq.capacity)%nat ->
  exists st', exit_loop (S (S depth)) None tasks st = (Ok tt, st').
Proof.
  induction tasks as [|c tasks IH]; intros st rr Hr Hs Hcb Hsub Hall Hroom.
  - exists st. reflexivity.
  - assert (Hc : c ∈ sched) by (apply Hsub; apply list_elem_of_here).
    destruct (Hall c Hc) as [Hq Hb].
    assert (Hrc : r <> c) by (intros ->; unfold quiet in Hq; now rewrite Hr in Hq).
    unfold exit_loop. cbn [for_each].
    destruct (decide (Some c = None)) as [E|_]; [discriminate|].
    assert (Hcase : benign st c \/
                    (finalizers st !! c = Some (FinRace r) /\ finished rr = false)).
    { destruct Hb as [Hb|Hb]; [now left|].
      destruct (finished rr) eqn:Hfin; [left|now right].
      unfold benign. rewrite Hb. now exists rr. }
    destruct Hcase as [Hben|[Hreg Hfin]].
    + (* the finalizer cannot fail *)
      destruct (close_quiet_effect (S depth) c st Hq Hben)
        as (s1 & E1 & Hlen1 & Hh & Ht & Hf).
      rewrite (bind_ok _ _ _ _ _ E1).
      apply (IH s1 rr).
      * rewrite Hh by auto. exact Hr.
      * exact Hs.
      * exact Hcb.
      * intros x Hx. apply Hsub. now apply list_elem_of_further.
      * intros x Hx. destruct (Hall x Hx) as [Hqx Hbx].
        split; [exact (quiet_after st s1 c x Hh Ht Hqx)|].
        destruct Hbx as [Hbx|Hbx].
        -- left. exact (benign_after st s1 c x Hq Hh Hf Hbx).
        -- destruct (finalizers s1 !! x) as [f|] eqn:Ex.
           ++ right. apply Hf in Ex. congruence.
           ++ left. unfold benign. now rewrite Ex.
      * lia.
    + (* the race finishes here *)
      subst sched.
      destruct (close_first_child depth st r rr cb c Hr Hfin Hcb Hreg Hq) as (s1 & E1 & Hcl).
      { intros c' Hc' _. now apply Hall. }
      { exact Hroom. }
      rewrite (bind_ok _ _ _ _ _ E1).
      pose proof (close_teardown (S (S depth)) c st) as T. rewrite E1 in T. cbn [snd] in T.
      assert (Hclc : closed s1 c) by (eapply close_closes; exact E1).
      destruct (exit_loop_quiet_any (S depth) None tasks s1) as (s2 & E2 & _).
      { intros x Hx _.
        assert (Hxs : x ∈ scheduled rr) by (apply Hsub; now apply list_elem_of_further).
        assert (Hclx : closed s1 x).
        { destruct (decide (x = c)) as [->|Hne]; [exact Hclc|now apply Hcl]. }
        split; [|now apply benign_closed].
        eapply quiet_closed; [exact T| |exact Hclx]. now apply Hall. }
      exists s2. exact E2.
Qed.

(** X17: closing a task that is suspended in [await race(...)] cancels the
    race.  The clean-up clause of [race.__iter__] calls [self.exit()]:

    - when [close] returns, every task the race had scheduled is closed (it
      has no finalizer left, is in no paused set and, as a generator, has
      finished), and so is the task itself; an exception of a child's
      [close()] comes out of [close], and a [GeneratorExit] never does;
    - [close] does return when the scheduled children are quiet tasks whose
      finalizers are [_finish] of this race or cannot fail, the race has a
      caller, the timed queue has room for it, and the finalizer of the task,
      if it has one, is an outside callable. *)
Theorem close_cancels_race_children (depth : nat) (st : state) (t r : ref)
        (ro : race_obj) (k : pyval -> coro) :
  heap st !! t = Some (OGen (at_first_yield (yield_from (race.__iter__ r) k Raise))) ->
  heap st !! r = Some (ORace ro) ->
  let res := close (S (S (S depth))) t st in
  (res.1 = Ok tt ->
   (forall c, c ∈ scheduled ro -> closed res.2 c) /\ closed res.2 t) /\
  ((forall c, c ∈ scheduled ro ->
              quiet st c /\ (benign st c \/ finalizers st !! c = Some (FinRace r))) ->
   (exists cb, race_callback ro = Some cb) ->
   (length (queue st) < utimeq.capacity)%nat ->
   (forall f, finalizers st !! t = Some f -> exists name, f = FinExt name) ->
   res.1 = Ok tt).
Proof.
  intros Ht Hr res. split.
  - intros Hok. apply (close_race_cancelled (S (S depth)) st res.2 t r ro k Ht Hr).
    unfold res in *. destruct (close _ t st) as [x s]. simpl in Hok. now subst x.
  - intros Hall [cb Hcb] Hroom Hfin. unfold res. clear res.
    assert (Hrt : r <> t) by (intros ->; rewrite Ht in Hr; discriminate).
    assert (Hnot : forall c, c ∈ scheduled ro -> c <> t).
    { intros c Hc ->. destruct (Hall t Hc) as [Hq _]. unfold quiet in Hq.
      rewrite Ht in Hq. exact Hq. }
    rewrite close_unfold. set (s0 := set_queue _ _).
    assert (Ht0 : heap s0 !! t
                  = Some (OGen (at_first_yield (yield_from (race.__iter__ r) k Raise))))
      by exact Ht.
    set (s1 := set_obj t (OGen GRunning) s0).
    assert (Hr1 : heap s1 !! r = Some (ORace ro)).
    { unfold s1, s0. simpl. now rewrite lookup_insert_ne by auto. }
    destruct (exit_all_returns depth r cb (scheduled ro) (scheduled ro) s1 ro Hr1 eq_refl Hcb)
      as (s2 & E2).
    { auto. }
    { intros c Hc. destruct (Hall c Hc) as [Hq Hb]. specialize (Hnot c Hc).
      assert (Hheap : forall x, x <> t -> heap s1 !! x = heap st !! x).
      { intros x Hx. unfold s1, s0. simpl. now rewrite lookup_insert_ne by auto. }
      split; [unfold quiet; now rewrite Hheap|].
      destruct Hb as [Hb|Hb]; [left|now right].
      unfold benign in *. change (finalizers s1) with (finalizers st).
      destruct (finalizers st !! c) as [[r'|]|]; auto.
      destruct Hb as (ro' & Hr' & Hf'). exists ro'. split; [|exact Hf'].
      rewrite Hheap; [exact Hr'|]. intros ->. rewrite Ht in Hr'. discriminate. }
    { unfold s1, s0. simpl.
      pose proof (length_filter (fun e : Z * ref * pyval => e.1.2 <> t) (queue st)). lia. }
    assert (E1 : body.task_close (close (S (S depth))) t s0
                 = (Ok tt, set_obj t (OGen GFinished) s2)).
    { unfold body.task_close, get_obj, bind. rewrite Ht0.
      unfold generator.close, generator.get, get_obj, bind. rewrite Ht0.
      cbn [ret at_first_yield yield_from race.__iter__ generator.run_coro
           generator.perform].
      fold s1. unfold race.exit. rewrite (bind_ok _ _ _ _ _ (race_get_ok _ _ _ Hr1)).
      fold (exit_loop (S (S depth)) None (scheduled ro)). rewrite E2.
      cbn [generator.run_coro yield_from].
      destruct (decide (GeneratorExit = GeneratorExit)); [reflexivity|contradiction]. }
    rewrite (bind_ok _ _ _ _ _ E1).
    pose proof (exit_loop_teardown (S (S depth)) None (scheduled ro) s1) as T.
    rewrite E2 in T. cbn [snd] in T.
    apply finalize_external_returns. intros f Hf. apply Hfin.
    destruct T as (_ & _ & _ & (S & _) & _). apply (S t f). exact Hf.
Qed.

Lemma close_cancels_race_children_witness :
  let st := scenario.racing_pair in
  let ro := mk_race [2%nat; 3%nat] [2%nat; 3%nat] false (Some 1%nat) in
  heap st !! 1%nat
  = Some (OGen (at_first_yield (yield_from (race.__iter__ 0%nat) Return Raise))) /\
  heap st !! 0%nat = Some (ORace ro) /\
  (forall c, c ∈ scheduled ro ->
             quiet st c /\ (benign st c \/ finalizers st !! c = Some (FinRace 0%nat))) /\
  (exists cb, race_callback ro = Some cb) /\
  (length (queue st) < utimeq.capacity)%nat /\
  (forall f, finalizers st !! 1%nat = Some f -> exists name, f = FinExt name) /\
  let res := close 3 1%nat st in
  res.1 = Ok tt /\
  (forall c, c ∈ scheduled ro -> closed res.2 c) /\ closed res.2 1%nat.
Proof.
  intros st ro.
  assert (Ht : heap st !! 1%nat
               = Some (OGen (at_first_yield
                               (yield_from (race.__iter__ 0%nat) Return Raise))))
    by (vm_compute; reflexivity).
  assert (Hr : heap st !! 0%nat = Some (ORace ro)) by (vm_compute; reflexivity).
  assert (Hall : forall c, c ∈ scheduled ro ->
             quiet st c /\ (benign st c \/ finalizers st !! c = Some (FinRace 0%nat))).
  { intros c Hc. simpl in Hc.
    apply elem_of_cons in Hc as [->|Hc]; [|apply list_elem_of_singleton in Hc as ->];
      (split; [vm_compute; exact I|right; vm_compute; reflexivity]). }
  assert (Hcb : exists cb, race_callback ro = Some cb) by (eexists; reflexivity).
  assert (Hroom : (length (queue st) < utimeq.capacity)%nat) by (vm_compute; lia).
  assert (Hfin : forall f, finalizers st !! 1%nat = Some f -> exists name, f = FinExt name).
  { intros f. vm_compute. intros [= <-]. eexists. reflexivity. }
  destruct (close_cancels_race_children 0 st 1%nat 0%nat ro Return Ht Hr) as [Hok Hret].
  split; [exact Ht|]. split; [exact Hr|]. split; [exact Hall|]. split; [exact Hcb|].
  split; [exact Hroom|]. split; [exact Hfin|]. intros res.
  pose proof (Hret Hall Hcb Hroom Hfin) as Hres.
  split; [exact Hres|]. exact (Hok Hres).
Defined.

(** ** Closing twice *)

Lemma discard_absent t (q : list (Z * ref * pyval)) :
  entries_of t q = [] -> filter (fun e => e.1.2 <> t) q = q.
Proof.
  unfold entries_of. induction q as [|e q IH]; [reflexivity|].
  rewrite !filter_cons. destruct (decide (e.1.2 = t)) as [E|E]; [discriminate|].
  intros H. destruct (decide (e.1.2 <> t)); [|contradiction]. f_equal. now apply IH.
Qed.

Lemma paused_discard_absent t (m : gmap Z (gset ref)) :
  (forall i s, m !! i = Some s -> t ∉ s) ->
  (fun s : gset ref => s ∖ {[t]}) <$> m = m.
Proof.
  intros H. apply map_eq. intros i. rewrite lookup_fmap.
  destruct (m !! i) as [s|] eqn:E; [|reflexivity]. simpl. f_equal.
  apply set_eq. intros x. rewrite elem_of_difference, elem_of_singleton.
  split; [now intros [Hx _]|]. intros Hx. split; [exact Hx|].
  intros ->. exact (H i s E Hx).
Qed.

(** X18: closing a task a second time changes nothing.  When [close] has
    returned for a task that was not the caller of an unfinished race, the
    task is in no table and is closed, so a second [close] discards
    nothing, finds the task closed and no finalizer to call: it returns
    and leaves the state as it is. *)
Theorem close_twice_changes_nothing (depth depth' : nat) (st st1 : state) (t : ref) :
  close (S depth) t st = (Ok tt, st1) ->
  ~ awaits_race st t ->
  close (S depth') t st1 = (Ok tt, st1).
Proof.
  intros Hclose Hno.
  destruct (close_post depth t st) as (Hp & Hq & Hpost).
  pose proof (close_teardown (S depth) t st) as (Hheap & _).
  rewrite Hclose in Hp, Hq, Hpost, Hheap. cbn [fst snd] in Hp, Hq, Hpost, Hheap.
  specialize (Hq Hno). destruct (Hpost eq_refl) as [Hfin Hgen]. clear Hpost.
  assert (Hkind : heap st1 !! t = Some (OGen GFinished) \/
                  exists w, heap st1 !! t = Some (OWait w)).
  { specialize (Hheap t).
    destruct (heap st !! t) as [[g| | |w| | | |]|] eqn:Ht.
    1: left; now apply (Hgen g).
    3: right; exists w; exact Hheap.
    all: exfalso; rewrite close_unfold in Hclose;
      unfold body.task_close, get_obj, bind in Hclose;
      cbn [heap set_queue set_paused] in Hclose; rewrite Ht in Hclose;
      discriminate. }
  rewrite close_unfold.
  assert (Hsame : set_queue (filter (fun e => e.1.2 <> t) (queue st1))
                    (set_paused ((fun tasks => tasks ∖ {[t]}) <$> paused st1) st1)
                  = st1).
  { apply state_ext; try reflexivity; simpl.
    - now apply discard_absent.
    - now apply paused_discard_absent. }
  rewrite Hsame.
  assert (E1 : body.task_close (close depth') t st1 = (Ok tt, st1)).
  { unfold body.task_close, get_obj, bind.
    destruct Hkind as [Hk|[w Hk]]; rewrite Hk; [|reflexivity].
    unfold generator.close, generator.get, get_obj, bind. now rewrite Hk. }
  rewrite (bind_ok _ _ _ _ _ E1).
  exact (finalize_unregistered depth' t (VExc GeneratorExit) st1 Hfin).
Qed.

Lemma close_twice_changes_nothing_witness :
  let st := ((schedule 1%nat VNone None (Some (FinExt "on_exit")) ;;
              run_turn 8 (scenario.idle 0)) (scenario.waiting None)).2 in
  exists st1,
    close 1 1%nat st = (Ok tt, st1) /\
    ~ awaits_race st 1%nat /\
    close 1 1%nat st1 = (Ok tt, st1).
Proof.
  intros st. eexists.
  assert (Hc : close 1 1%nat st = (Ok tt, (close 1 1%nat st).2)).
  { assert (E : (close 1 1%nat st).1 = Ok tt) by (vm_compute; reflexivity).
    destruct (close 1 1%nat st) as [res s]. simpl in E. now subst res. }
  assert (Hno : ~ awaits_race st 1%nat).
  { intros (r & ro & Hr & _).
    assert (Hall : map_Forall (fun _ o => match o with ORace _ => False | _ => True end)
                              (heap st)).
    { apply map_Forall_to_list. vm_compute. repeat constructor. }
    exact (Hall r _ Hr). }
  split; [exact Hc|]. split; [exact Hno|].
  exact (close_twice_changes_nothing 0 0 st _ 1%nat Hc Hno).
Defined.

(** ** Only wait objects are paused *)

Lemma pauses_waits_refl st : pauses_waits st st.
Proof. split; [auto|]. intros i s t Hs Ht. left. eauto. Qed.

Lemma pauses_waits_trans st1 st2 st3 :
  pauses_waits st1 st2 -> pauses_waits st2 st3 -> pauses_waits st1 st3.
Proof.
  intros [H1 P1] [H2 P2]. split; [auto|].
  intros i s t Hs Ht. destruct (P2 i s t Hs Ht) as [(s2 & Hs2 & Ht2)|Hw]; [|now right].
  destruct (P1 i s2 t Hs2 Ht2) as [Hin|[w Hw]]; [now left|]. right. eauto.
Qed.

Lemma pauses_waits_same st st' :
  heap st' = heap st -> paused st' = paused st -> pauses_waits st st'.
Proof.
  intros Hh Hp. split; [intros x w; now rewrite Hh|].
  intros i s t Hs Ht. left. rewrite <- Hp. eauto.
Qed.

Lemma pauses_waits_teardown ok st st' : teardown ok st st' -> pauses_waits st st'.
Proof.
  intros (H & P & _). split.
  - intros x w Hx. specialize (H x). rewrite Hx in H. exact H.
  - intros i s' t Hs Ht. left. specialize (P i).
    destruct (paused st !! i) as [s|]; [|congruence].
    destruct P as (s'' & Hs'' & Hsub). exists s. split; [reflexivity|].
    assert (s'' = s') as -> by congruence. now apply Hsub.
Qed.

Lemma pauses_waits_set_obj st x o :
  (forall w, heap st !! x <> Some (OWait w)) -> pauses_waits st (set_obj x o st).
Proof.
  intros Hx. split.
  - intros y w Hy. simpl. rewrite lookup_insert_ne; [exact Hy|].
    intros ->. exact (Hx w Hy).
  - intros i s t Hs Ht. left. eauto.
Qed.

Lemma pauses_waits_shrink st p :
  (forall i s', p !! i = Some s' -> exists s, paused st !! i = Some s /\ s' ⊆ s) ->
  pauses_waits st (set_paused p st).
Proof.
  intros Hp. split; [auto|]. intros i s' t Hs Ht. left.
  destruct (Hp i s' Hs) as (s & Hs0 & Hsub). exists s. split; [exact Hs0|now apply Hsub].
Qed.

Lemma only_waits_paused_after st st' :
  only_waits_paused st -> pauses_waits st st' -> only_waits_paused st'.
Proof.
  intros I [H P] i s t Hs Ht.
  destruct (P i s t Hs Ht) as [(s0 & Hs0 & Ht0)|Hw]; [|exact Hw].
  destruct (I i s0 t Hs0 Ht0) as [w Hw]. exists w. now apply H.
Qed.

Lemma pauses_waits_bind {A B} (m : M A) (k : A -> M B) st :
  pauses_waits st (m st).2 ->
  (forall a st', m st = (Ok a, st') -> pauses_waits st' (k a st').2) ->
  pauses_waits st (bind m k st).2.
Proof.
  intros Hm Hk. unfold bind. destruct (m st) as [[a|e] st'] eqn:E; simpl in *.
  - eapply pauses_waits_trans; [exact Hm|]. now apply Hk.
  - exact Hm.
Qed.

Lemma pauses_waits_for_each {A} (xs : list A) (f : A -> M unit) :
  (forall x st, pauses_waits st (f x st).2) ->
  forall st, pauses_waits st (for_each xs f st).2.
Proof.
  intros Hf. induction xs as [|x xs IH]; intros st; simpl.
  - apply pauses_waits_refl.
  - apply pauses_waits_bind; [apply Hf|]. intros _ st' _. apply IH.
Qed.

Lemma pauses_waits_schedule task value deadline fin st :
  pauses_waits st (schedule task value deadline fin st).2.
Proof.
  apply pauses_waits_same.
  - apply (keeps_schedule heap); reflexivity.
  - apply (keeps_schedule paused); reflexivity.
Qed.

Lemma pauses_waits_discard task st : pauses_waits st (utimeq.discard task st).2.
Proof. now apply pauses_waits_same. Qed.

Lemma pauses_waits_paused_discard iface task st :
  pauses_waits st (paused_discard iface task st).2.
Proof.
  unfold paused_discard. destruct (paused st !! iface) as [s|] eqn:E;
    [|apply pauses_waits_refl].
  apply pauses_waits_shrink. intros i s' Hs.
  destruct (decide (iface = i)) as [<-|Hne].
  - rewrite lookup_insert_eq in Hs. injection Hs as <-. exists s. split; [exact E|].
    apply subseteq_difference_l. reflexivity.
  - rewrite lookup_insert_ne in Hs by exact Hne. exists s'. split; [exact Hs|reflexivity].
Qed.

Lemma pauses_waits_paused_pop iface st : pauses_waits st (paused_pop iface st).2.
Proof.
  unfold paused_pop. destruct (paused st !! iface) as [s|] eqn:E;
    [|apply pauses_waits_refl].
  apply pauses_waits_shrink. intros i s' [_ Hs]%lookup_delete_Some.
  exists s'. split; [exact Hs|reflexivity].
Qed.

Lemma pauses_waits_alloc o st : pauses_waits st (alloc o st).2.
Proof.
  apply pauses_waits_set_obj. intros w. now rewrite fresh_absent.
Qed.

Lemma race_get_inv self st r st' :
  race.get self st = (Ok r, st') -> st' = st /\ heap st !! self = Some (ORace r).
Proof.
  destruct (race_get_cases st self) as [(ro & Hr & ->)| ->]; [|discriminate].
  now intros [= <- <-].
Qed.

Lemma chan_get_inv self st c st' :
  chan.get self st = (Ok c, st') -> st' = st /\ heap st !! self = Some (OChan c).
Proof.
  destruct (chan_get_cases st self) as [(c0 & Hc & ->)| ->]; [|discriminate].
  now intros [= <- <-].
Qed.

Lemma generator_get_inv self st g st' :
  generator.get self st = (Ok g, st') -> st' = st /\ heap st !! self = Some (OGen g).
Proof.
  destruct (generator_get_cases st self) as [(g0 & Hg & ->)| ->]; [|discriminate].
  now intros [= <- <-].
Qed.

Lemma wait_get_inv self st w st' :
  wait.get self st = (Ok w, st') -> st' = st /\ heap st !! self = Some (OWait w).
Proof.
  unfold wait.get, get_obj, bind.
  destruct (heap st !! self) as [[]|]; try discriminate. now intros [= <- <-].
Qed.

Lemma pauses_waits_log entry st : pauses_waits st (log entry st).2.
Proof. apply pauses_waits_same; unfold log; now destruct (debug st). Qed.

Lemma pauses_waits_assert cond st : pauses_waits st (assert_ cond st).2.
Proof.
  apply pauses_waits_same; unfold assert_; now destruct (debug st && negb cond).
Qed.

Create HintDb pw.
#[local] Hint Resolve pauses_waits_refl pauses_waits_schedule pauses_waits_discard
  pauses_waits_paused_discard pauses_waits_paused_pop pauses_waits_alloc
  pauses_waits_log pauses_waits_assert : pw.

(** Splits a computation along its [bind]s and case distinctions. *)
Ltac pw_step :=
  first
    [ apply pauses_waits_refl
    | solve [auto with pw]
    | match goal with
      | |- pauses_waits ?s (bind _ _ ?s).2 => apply pauses_waits_bind; [|intros ? ? ?]
      | |- pauses_waits ?s (for_each _ _ ?s).2 =>
          apply pauses_waits_for_each; intros ? ?
      | |- pauses_waits ?s ((match ?x with _ => _ end) ?s).2 => destruct x
      | |- pauses_waits ?s ((if ?b then _ else _) ?s).2 => destruct b
      end ].

Lemma pauses_waits_race_update self f st :
  pauses_waits st (race.update self f st).2.
Proof.
  unfold race.update.
  apply pauses_waits_bind; [unfold race.get, get_obj; repeat pw_step|].
  intros r st' [-> Hr]%race_get_inv. apply pauses_waits_set_obj.
  intros w. now rewrite Hr.
Qed.

Lemma pauses_waits_sleep_handle self task st :
  pauses_waits st (sleep.handle self task st).2.
Proof. unfold sleep.handle, get_obj, utime.ticks_us. repeat pw_step. Qed.

Lemma pauses_waits_wait_handle self task st :
  pauses_waits st (wait.handle self task st).2.
Proof.
  unfold wait.handle. apply pauses_waits_bind; [unfold wait.get, get_obj; repeat pw_step|].
  intros w st' [-> Hw]%wait_get_inv.
  apply pauses_waits_bind.
  - (* the wait object pauses itself *)
    split; [auto|]. intros i s t Hs Ht. unfold pause, modify, paused_with in Hs.
    simpl in Hs. destruct (decide (msg_iface w = i)) as [<-|Hne].
    + rewrite lookup_insert_eq in Hs. injection Hs as <-.
      apply elem_of_union in Ht as [Ht|Ht%elem_of_singleton].
      * left. destruct (paused st !! msg_iface w) as [s0|] eqn:E; simpl in Ht.
        -- eauto.
        -- now apply not_elem_of_empty in Ht.
      * right. subst t. exists w. exact Hw.
    + rewrite lookup_insert_ne in Hs by exact Hne. left. eauto.
  - intros _ st1 _. unfold utime.ticks_us, wait.getattr. repeat pw_step.
Qed.

Lemma pauses_waits_race_iter child st : pauses_waits st (race.iter child st).2.
Proof. unfold race.iter, get_obj. repeat pw_step. Qed.

Lemma pauses_waits_race_handle self task st :
  pauses_waits st (race.handle self task st).2.
Proof.
  unfold race.handle, race.is_generator, get_obj.
  pose proof pauses_waits_race_update. pose proof pauses_waits_race_iter.
  apply pauses_waits_bind; [unfold race.get, get_obj; repeat pw_step|].
  intros r st1 _. repeat pw_step.
Qed.

Lemma pauses_waits_chan_set self c c' st :
  heap st !! self = Some (OChan c) -> pauses_waits st (chan.set self c' st).2.
Proof. intros H. apply pauses_waits_set_obj. intros w. now rewrite H. Qed.

Lemma pauses_waits_schedule_put self putter value st :
  pauses_waits st (chan._schedule_put self putter value st).2.
Proof.
  unfold chan._schedule_put.
  apply pauses_waits_bind; [unfold chan.get, get_obj; repeat pw_step|].
  intros c st' [-> Hc]%chan_get_inv.
  pose proof (fun c' => pauses_waits_chan_set self c c' st Hc).
  repeat pw_step.
Qed.

Lemma pauses_waits_schedule_take self taker st :
  pauses_waits st (chan._schedule_take self taker st).2.
Proof.
  unfold chan._schedule_take.
  apply pauses_waits_bind; [unfold chan.get, get_obj; repeat pw_step|].
  intros c st' [-> Hc]%chan_get_inv.
  pose proof (fun c' => pauses_waits_chan_set self c c' st Hc).
  repeat pw_step.
Qed.

Lemma pauses_waits_put_handle self task st :
  pauses_waits st (chan.Put.handle self task st).2.
Proof.
  unfold chan.Put.handle, get_obj, bind at 1. cbn [ret].
  destruct (heap st !! self) as [[]|] eqn:E; try apply pauses_waits_refl.
  pose proof pauses_waits_schedule_put.
  apply pauses_waits_bind; [|intros; repeat pw_step].
  apply pauses_waits_set_obj. intros w. now rewrite E.
Qed.

Lemma pauses_waits_take_handle self task st :
  pauses_waits st (chan.Take.handle self task st).2.
Proof.
  unfold chan.Take.handle, get_obj, bind at 1. cbn [ret].
  destruct (heap st !! self) as [[]|] eqn:E; try apply pauses_waits_refl.
  pose proof pauses_waits_schedule_take.
  apply pauses_waits_bind; [|intros; repeat pw_step].
  apply pauses_waits_set_obj. intros w. now rewrite E.
Qed.

Lemma pauses_waits_syscall_handle result task st :
  pauses_waits st (body.syscall_handle result task st).2.
Proof.
  unfold body.syscall_handle, Syscall.handle, get_obj.
  pose proof pauses_waits_sleep_handle. pose proof pauses_waits_wait_handle.
  pose proof pauses_waits_race_handle. pose proof pauses_waits_put_handle.
  pose proof pauses_waits_take_handle.
  repeat pw_step.
Qed.

Lemma pauses_waits_finalize depth task value st :
  pauses_waits st (finalize depth task value st).2.
Proof. eapply pauses_waits_teardown. apply finalize_is_teardown. Qed.

(** Resuming a generator: it is marked as executing, runs its clean-up
    clauses if it has any before it stops, and is marked again. *)
Lemma pauses_waits_resume_with depth self c g st :
  heap st !! self = Some (OGen g) ->
  pauses_waits st (generator.resume_with (close depth) self c st).2.
Proof.
  intros Hg. unfold generator.resume_with.
  set (s1 := set_obj self (OGen GRunning) st).
  assert (P1 : pauses_waits st s1).
  { apply pauses_waits_set_obj. intros w. now rewrite Hg. }
  pose proof (run_coro_teardown cancelled (close depth) (close_teardown depth) c s1) as T.
  assert (Hrun : heap (generator.run_coro (close depth) c s1).2 !! self
                 = Some (OGen GRunning)).
  { destruct T as (H & _). specialize (H self). unfold s1 in H at 1. simpl in H.
    rewrite lookup_insert_eq in H. exact H. }
  apply pauses_waits_teardown in T.
  destruct (generator.run_coro (close depth) c s1) as [[y k|v|e] s2];
    cbn [fst snd] in *;
    (eapply pauses_waits_trans; [exact P1|];
     eapply pauses_waits_trans; [exact T|];
     apply pauses_waits_set_obj; intros w; now rewrite Hrun).
Qed.

Lemma pauses_waits_generator_send depth self value st :
  pauses_waits st (generator.send (close depth) self value st).2.
Proof.
  unfold generator.send.
  apply pauses_waits_bind; [unfold generator.get, get_obj; repeat pw_step|].
  intros g st' [-> Hg]%generator_get_inv.
  pose proof (fun c => pauses_waits_resume_with depth self c g st Hg).
  repeat pw_step.
Qed.

Lemma pauses_waits_generator_throw depth self exception st :
  pauses_waits st (generator.throw (close depth) self exception st).2.
Proof.
  unfold generator.throw.
  apply pauses_waits_bind; [unfold generator.get, get_obj; repeat pw_step|].
  intros g st' [-> Hg]%generator_get_inv.
  pose proof (fun c => pauses_waits_resume_with depth self c g st Hg).
  destruct g; repeat pw_step.
  apply (pauses_waits_set_obj st self). intros w. now rewrite Hg.
Qed.

Lemma pauses_waits_step depth : forall task value st,
  pauses_waits st (_step depth task value st).2.
Proof.
  induction depth as [|d IH]; intros task value st; [apply pauses_waits_refl|].
  cbn [_step]. unfold body._step.
  assert (Hres : pauses_waits st
                   (body.resume_task (_step d) (close d) task value st).2).
  { pose proof (pauses_waits_generator_send d). pose proof (pauses_waits_generator_throw d).
    assert (Hsend : forall v, pauses_waits st
                       (body.task_send (_step d) (close d) task v st).2).
    { intros v.
      unfold body.task_send, wait.send, wait.step_callback, wait.get,
        wait.getattr, get_obj.
      repeat pw_step. }
    destruct value; try apply Hsend.
    unfold body.resume_task, body.task_throw, wait.throw, wait.step_callback,
      wait.get, wait.getattr, get_obj.
    repeat pw_step. }
  destruct (body.resume_task (_step d) (close d) task value st) as [[[y|v]|e] st1];
    cbn [fst snd] in Hres; (eapply pauses_waits_trans; [exact Hres|]).
  - assert (Hlog : forall entry s, pauses_waits s (log entry s).2).
    { intros entry s. apply pauses_waits_same; unfold log; now destruct (debug s). }
    pose proof pauses_waits_syscall_handle.
    unfold get_state.
    apply pauses_waits_bind; [auto|intros handled s2 _].
    apply pauses_waits_bind.
    + destruct handled; repeat pw_step.
    + intros _ s3 _. apply pauses_waits_bind; [pw_step|intros s4 s5 _].
      destruct (after_step_hook s4); [|pw_step]. now apply pauses_waits_same.
  - apply pauses_waits_bind.
    + apply pauses_waits_same; unfold log; now destruct (debug st1).
    + intros _ s2 _. apply pauses_waits_finalize.
  - destruct (is_Exception e); [|apply pauses_waits_refl].
    apply pauses_waits_bind.
    + apply pauses_waits_same; unfold log; now destruct (debug st1).
    + intros _ s2 _. apply pauses_waits_finalize.
Qed.

Lemma pauses_waits_run_turn depth p st : pauses_waits st (run_turn depth p st).2.
Proof.
  unfold run_turn, get_state.
  pose proof (pauses_waits_step depth).
  assert (Hpoll : forall d s, pauses_waits s (io.poll p d s).2)
    by (intros; now apply pauses_waits_same).
  assert (Hset : forall l s, pauses_waits s (modify (set_synthetic_events l) s).2)
    by (intros; now apply pauses_waits_same).
  assert (Hpop : forall s, pauses_waits s (utimeq.pop s).2).
  { intros s. apply pauses_waits_same; unfold utimeq.pop; now destruct (queue s). }
  assert (Hpeek : forall s, pauses_waits s (utimeq.peektime s).2).
  { intros s. apply pauses_waits_same; unfold utimeq.peektime; now destruct (queue s). }
  unfold utime.ticks_us.
  repeat pw_step.
Qed.

(** X19: only wait objects are ever paused.  The scheduler never puts a
    task itself into the paused table: [wait.handle] pauses the wait
    object in its stead, and nothing else pauses anything.  So if every
    member of the paused sets is a wait object when [run] starts, this is
    so whenever [run] stops, whether it returns, raises, or waits for the
    driver. *)
Theorem run_pauses_only_waits (depth : nat) (polls : list poll) (st : state) :
  only_waits_paused st -> only_waits_paused (run depth polls st).2.
Proof.
  intros I. apply (only_waits_paused_after st); [exact I|]. clear I.
  revert st. induction polls as [|p polls IH]; intros st; cbn [run];
    destruct (utimeq.nonempty st || paused_nonempty st);
    try apply pauses_waits_refl.
  apply pauses_waits_bind; [apply pauses_waits_run_turn|].
  intros _ st' _. apply IH.
Qed.

Lemma run_pauses_only_waits_witness :
  let st := ((schedule 1%nat VNone None (Some (FinExt "on_exit")) ;;
              run_turn 8 (scenario.idle 0)) (scenario.waiting None)).2 in
  let polls := [mk_poll 10 (Some (7, VStr "touch")); scenario.idle 0] in
  only_waits_paused st /\
  only_waits_paused (run 8 polls st).2.
Proof.
  intros st polls.
  assert (I : only_waits_paused st).
  { assert (Hp : paused st = {[ 7 := {[0%nat]} ]}) by (vm_compute; reflexivity).
    intros i s t Hs Ht. rewrite Hp in Hs.
    apply lookup_singleton_Some in Hs as [<- <-].
    apply elem_of_singleton in Ht as ->.
    exists (mk_wait 7 None None). vm_compute. reflexivity. }
  split; [exact I|].
  exact (run_pauses_only_waits 8 polls st I).
Defined.

(** ** [run]: a malformed yield stops the loop *)

(** A turn of [run] in which the poll times out: the head of the timed
    queue is popped and stepped. *)
Lemma run_turn_timeout depth p st d task value q :
  message p = None ->
  debug st = false \/ synthetic_events st = [] ->
  queue st = (d, task, value) :: q ->
  run_turn depth p st
  = _step depth task value
      (set_queue q (set_clock (utime.ticks_add (clock st) (elapsed p)) st)).
Proof.
  intros Hm Hsyn Hq. unfold run_turn. unfold bind at 1, get_state.
  destruct (run_delay_ok st) as [delay Ed]. rewrite (bind_ok _ _ _ _ _ Ed).
  assert (Es : (if debug st then
                  match synthetic_events st with
                  | (iface, event) :: rest =>
                      msg_tasks <- paused_pop iface ;
                      match msg_tasks with
                      | [] => ret tt
                      | _ :: _ =>
                          modify (set_synthetic_events rest) ;;
                          for_each msg_tasks (fun task => _step depth task event)
                      end
                  | [] => ret tt
                  end
                else ret tt) st = (Ok tt, st)).
  { destruct Hsyn as [-> | ->]; [reflexivity|]. now destruct (debug st). }
  rewrite (bind_ok _ _ _ _ _ Es).
  unfold bind at 1, io.poll. rewrite Hm.
  unfold bind at 1, get_state. unfold utimeq.nonempty. cbn [queue set_clock].
  rewrite Hq. unfold bind, utimeq.pop. cbn [queue set_clock]. rewrite Hq.
  reflexivity.
Qed.

(** X20: a malformed yield stops the loop.  The poll of a turn times out
    and the task at the head of the timed queue, once resumed, yields
    something that is no [Syscall]: the [RuntimeError] of [_step] is caught
    by nothing and leaves [run].  The tasks behind it in the queue and the
    paused tasks are not stepped any more, and no finalizer is called. *)
Theorem run_stops_on_malformed_yield (depth : nat) (p : poll) (polls : list poll)
        (st : state) (d : Z) (task : ref) (value result : pyval)
        (q : list (Z * ref * pyval)) (st1 : state) :
  message p = None ->
  debug st = false \/ synthetic_events st = [] ->
  queue st = (d, task, value) :: q ->
  body.resume_task (_step depth) (close depth) task value
    (set_queue q (set_clock (utime.ticks_add (clock st) (elapsed p)) st))
  = (Ok (Yields result), st1) ->
  yields_syscall st1 result = false ->
  run (S depth) (p :: polls) st
  = (Exc RuntimeError,
     if debug st1
     then set_logged (logged st1 ++ [LogError "unknown syscall: %s" result]) st1
     else st1).
Proof.
  intros Hm Hsyn Hq Hres Hno. cbn [run]. unfold utimeq.nonempty. rewrite Hq.
  cbn [orb]. apply bind_exc.
  rewrite (run_turn_timeout (S depth) p st d task value q Hm Hsyn Hq).
  cbn [_step]. unfold body._step. rewrite Hres.
  rewrite (bind_ok _ _ _ _ _ (syscall_handle_none st1 result task Hno)).
  unfold bind, log, raise. now destruct (debug st1).
Qed.

Lemma run_stops_on_malformed_yield_witness :
  let body := Yield (VInt 7) (fun _ => Return VNone) in
  let st := ((schedule 1%nat VNone None (Some (FinExt "on_exit")) ;;
              schedule 2%nat VNone None (Some (FinExt "on_exit")))
               (set_obj 2%nat (OGen (GUnstarted (Return (VInt 2))))
                  (set_obj 1%nat (OGen (GUnstarted body)) (initial true)))).2 in
  let p := scenario.idle 5 in
  let q := [(0, 2%nat, VNone)] in
  exists st1,
    message p = None /\
    (debug st = false \/ synthetic_events st = []) /\
    queue st = (0, 1%nat, VNone) :: q /\
    body.resume_task (_step 0) (close 0) 1%nat VNone
      (set_queue q (set_clock (utime.ticks_add (clock st) (elapsed p)) st))
    = (Ok (Yields (VInt 7)), st1) /\
    yields_syscall st1 (VInt 7) = false /\
    run 1 [p; p; p] st
    = (Exc RuntimeError,
       if debug st1
       then set_logged (logged st1 ++ [LogError "unknown syscall: %s" (VInt 7)]) st1
       else st1) /\
    fin_calls st1 = [] /\ queue st1 = q.
Proof.
  intros body st p q. eexists.
  assert (Hsyn : debug st = false \/ synthetic_events st = []) by (right; reflexivity).
  assert (Hq : queue st = (0, 1%nat, VNone) :: q) by (vm_compute; reflexivity).
  split; [reflexivity|]. split; [exact Hsyn|]. split; [exact Hq|].
  split; [reflexivity|]. split; [reflexivity|].
  split; [|split; reflexivity].
  exact (run_stops_on_malformed_yield 0 p [p; p] st 0 1%nat VNone (VInt 7) q _
           eq_refl Hsyn Hq eq_refl eq_refl).
Defined.

(** ** [run]: a task that returns *)

(** X21: a task that returns leaves the system through its finalizer.  The
    poll of a turn times out and the task at the head of the timed queue,
    once resumed, returns [v]; its finalizer is an outside callable.  Then
    [_step] logs the end of the task in a debug build, [finalize] takes the
    finalizer out of the table and calls it once with the task and [v], the
    after-step hook is not called, and [run] goes on with the next turn
    from there. *)
Theorem run_finalizes_returned_task (depth : nat) (p : poll) (polls : list poll)
        (st : state) (d : Z) (task : ref) (value v : pyval)
        (q : list (Z * ref * pyval)) (st1 : state) (name : string) :
  message p = None ->
  debug st = false \/ synthetic_events st = [] ->
  queue st = (d, task, value) :: q ->
  body.resume_task (_step depth) (close depth) task value
    (set_queue q (set_clock (utime.ticks_add (clock st) (elapsed p)) st))
  = (Ok (Stops v), st1) ->
  finalizers st1 !! task = Some (FinExt name) ->
  let st2 := if debug st1
             then set_logged (logged st1 ++ [LogDebug "finish: %s" task]) st1
             else st1 in
  let st3 := set_fin_calls (fin_calls st2 ++ [(FinExt name, task, v)])
               (set_finalizers (delete task (finalizers st2)) st2) in
  run (S depth) (p :: polls) st = run (S depth) polls st3 /\
  hook_calls st3 = hook_calls st1 /\ queue st3 = queue st1.
Proof.
  intros Hm Hsyn Hq Hres Hfin st2 st3. split.
  - assert (Et : run_turn (S depth) p st = (Ok tt, st3)).
    { rewrite (run_turn_timeout (S depth) p st d task value q Hm Hsyn Hq).
      cbn [_step]. unfold body._step. rewrite Hres.
      assert (El : log (LogDebug "finish: %s" task) st1 = (Ok tt, st2)).
      { unfold log, st2. now destruct (debug st1). }
      rewrite (bind_ok _ _ _ _ _ El).
      apply (finalize_external depth task v st2 name).
      unfold st2. now destruct (debug st1). }
    cbn [run]. unfold utimeq.nonempty. rewrite Hq. cbn [orb].
    now rewrite (bind_ok _ _ _ _ _ Et).
  - unfold st3, st2. now destruct (debug st1).
Qed.

Lemma run_finalizes_returned_task_witness :
  let st := ((schedule 1%nat VNone None (Some (FinExt "on_exit")) ;;
              schedule 2%nat VNone None (Some (FinExt "on_exit")))
               (set_obj 2%nat (OGen (GUnstarted (Return (VInt 2))))
                  (set_obj 1%nat (OGen (GUnstarted (Return (VInt 1)))) (initial true)))).2 in
  let p := scenario.idle 5 in
  let q := [(0, 2%nat, VNone)] in
  exists st1,
    message p = None /\
    (debug st = false \/ synthetic_events st = []) /\
    queue st = (0, 1%nat, VNone) :: q /\
    body.resume_task (_step 0) (close 0) 1%nat VNone
      (set_queue q (set_clock (utime.ticks_add (clock st) (elapsed p)) st))
    = (Ok (Stops (VInt 1)), st1) /\
    finalizers st1 !! 1%nat = Some (FinExt "on_exit") /\
    let st2 := if debug st1
               then set_logged (logged st1 ++ [LogDebug "finish: %s" 1%nat]) st1
               else st1 in
    let st3 := set_fin_calls (fin_calls st2 ++ [(FinExt "on_exit", 1%nat, VInt 1)])
                 (set_finalizers (delete 1%nat (finalizers st2)) st2) in
    run 1 [p; p] st = run 1 [p] st3 /\
    hook_calls st3 = hook_calls st1 /\ queue st3 = queue st1.
Proof.
  intros st p q. eexists.
  assert (Hsyn : debug st = false \/ synthetic_events st = []) by (right; reflexivity).
  assert (Hq : queue st = (0, 1%nat, VNone) :: q) by (vm_compute; reflexivity).
  split; [reflexivity|]. split; [exact Hsyn|]. split; [exact Hq|].
  split; [reflexivity|].
  match goal with
  | |- finalizers ?s !! _ = _ /\ _ =>
      assert (Hf : finalizers s !! 1%nat = Some (FinExt "on_exit"))
        by (vm_compute; reflexivity);
      split; [exact Hf|];
      exact (run_finalizes_returned_task 0 p [p] st 0 1%nat VNone (VInt 1) q s "on_exit"
               eq_refl Hsyn Hq eq_refl Hf)
  end.
Defined.

(** ** Closing the caller of a race *)

Lemma discard_inserted d t v (q : list (Z * ref * pyval)) :
  filter (fun e => e.1.2 <> t) (utimeq.insert (d, t, v) q)
  = filter (fun e => e.1.2 <> t) q.
Proof.
  induction q as [|e' q IH]; simpl.
  - rewrite filter_cons. simpl. destruct (decide (t <> t)); [contradiction|reflexivity].
  - destruct (_ <? _).
    + rewrite (filter_cons _ (d, t, v)). simpl.
      destruct (decide (t <> t)); [contradiction|reflexivity].
    + rewrite !filter_cons. now rewrite IH.
Qed.

Lemma entries_of_discard_other x t (q : list (Z * ref * pyval)) :
  x <> t -> entries_of x (filter (fun e => e.1.2 <> t) q) = entries_of x q.
Proof.
  intros Hne. unfold entries_of. induction q as [|e q IH]; [reflexivity|].
  rewrite !filter_cons. destruct (decide (e.1.2 <> t)) as [H|H].
  - rewrite filter_cons. now rewrite IH.
  - destruct (decide (e.1.2 = x)) as [E|E]; [|exact IH].
    exfalso. apply H. now rewrite E.
Qed.

Lemma entries_of_insert_first x e (q : list (Z * ref * pyval)) :
  e.1.2 = x -> entries_of x q = [] -> entries_of x (utimeq.insert e q) = [e].
Proof.
  intros He. unfold entries_of. induction q as [|e' q IH]; simpl.
  - intros _. rewrite filter_cons. now destruct (decide (e.1.2 = x)).
  - rewrite filter_cons. destruct (decide (e'.1.2 = x)) as [E|E]; [discriminate|].
    intros Hq. destruct (_ <? _).
    + rewrite !filter_cons. destruct (decide (e.1.2 = x)); [|contradiction].
      destruct (decide (e'.1.2 = x)); [contradiction|]. now rewrite Hq.
    + rewrite filter_cons. destruct (decide (e'.1.2 = x)); [contradiction|].
      now apply IH.
Qed.

(** Closing a quiet task whose finalizer cannot fail: what is left of the
    queue and of the finalizers. *)
Lemma close_quiet_exact depth t st :
  quiet st t -> benign st t ->
  exists st', close (S depth) t st = (Ok tt, st') /\
              queue st' = filter (fun e => e.1.2 <> t) (queue st) /\
              finalizers st' = delete t (finalizers st) /\
              clock st' = clock st.
Proof.
  intros Hq Hb.
  pose proof (close_teardown (S depth) t st) as (_ & _ & _ & _ & Hclock).
  revert Hclock. rewrite close_unfold. set (st0 := set_queue _ _).
  destruct (task_close_quiet_effect (close depth) t st0 Hq)
    as (st1 & E1 & Hq1 & Hf1 & Hh1 & Ht1).
  rewrite (bind_ok _ _ _ _ _ E1).
  assert (Hb1 : benign st1 t).
  { unfold benign in *. rewrite Hf1. simpl.
    destruct (finalizers st !! t) as [[r|]|]; auto.
    destruct Hb as (ro & Hr & Hfin). exists ro. split; [|exact Hfin].
    rewrite Hh1; [exact Hr|]. intros ->. unfold quiet in Hq. now rewrite Hr in Hq. }
  rewrite (finalize_benign_exact (close depth) t (VExc GeneratorExit) st1 Hb1).
  intros Hclock. eexists. split; [reflexivity|]. cbn [snd] in Hclock.
  split; [|split; [|exact Hclock]].
  - destruct (finalizers st1 !! t); simpl; exact Hq1.
  - destruct (finalizers st1 !! t) eqn:E; simpl.
    + now rewrite Hf1.
    + rewrite Hf1 in E |- *. simpl in *. symmetry. now apply delete_id.
Qed.

(** [exit] over quiet tasks whose finalizers cannot fail leaves the queue
    entries of every other task as they are. *)
Lemma exit_loop_quiet_entries depth except_for tasks x : forall st,
  (forall c, c ∈ tasks -> Some c <> except_for -> quiet st c /\ benign st c) ->
  (forall c, c ∈ tasks -> Some c <> except_for -> c <> x) ->
  exists st', exit_loop (S depth) except_for tasks st = (Ok tt, st') /\
              entries_of x (queue st') = entries_of x (queue st).
Proof.
  induction tasks as [|t tasks IH]; intros st Hall Hx.
  - exists st. split; reflexivity.
  - unfold exit_loop. cbn [for_each].
    destruct (decide (Some t = except_for)) as [E|Hne].
    + destruct (IH st) as (st' & E' & Hent).
      { intros c Hc. apply Hall. now right. }
      { intros c Hc. apply Hx. now right. }
      exists st'. split; [exact E'|exact Hent].
    + destruct (Hall t (list_elem_of_here _ _) Hne) as [Hq Hb].
      destruct (close_quiet_effect depth t st Hq Hb)
        as (st1 & E1 & _ & Hh & Ht & Hf).
      destruct (close_quiet_exact depth t st Hq Hb) as (st1' & E1' & Hq1 & _).
      rewrite E1 in E1'. injection E1' as <-.
      rewrite (bind_ok _ _ _ _ _ E1).
      destruct (IH st1) as (st' & E & Hent).
      { intros c Hc Hcne.
        destruct (Hall c (list_elem_of_further _ _ _ Hc) Hcne) as [Hqc Hbc].
        split; [exact (quiet_after st st1 t c Hh Ht Hqc)|].
        exact (benign_after st st1 t c Hq Hh Hf Hbc). }
      { intros c Hc. apply Hx. now right. }
      exists st'. split; [exact E|]. rewrite Hent, Hq1.
      apply entries_of_discard_other.
      intros <-. exact (Hx x (list_elem_of_here _ _) Hne eq_refl).
Qed.

(** The first child of an unfinished race to be closed puts the caller of
    the race on the queue. *)
Lemma close_first_child_requeues depth st r rr cb c :
  heap st !! r = Some (ORace rr) ->
  finished rr = false ->
  race_callback rr = Some cb ->
  finalizers st !! c = Some (FinRace r) ->
  quiet st c ->
  (forall c', c' ∈ scheduled rr -> c' <> c ->
              quiet st c' /\ (benign st c' \/ finalizers st !! c' = Some (FinRace r))) ->
  (length (queue st) < utimeq.capacity)%nat ->
  cb <> c ->
  (forall c', c' ∈ scheduled rr -> c' <> cb) ->
  entries_of cb (queue st) = [] ->
  exists st',
    close (S (S depth)) c st = (Ok tt, st') /\
    (forall c', c' ∈ scheduled rr -> c' <> c -> closed st' c') /\
    entries_of cb (queue st') = [(clock st, cb, VExc GeneratorExit)].
Proof.
  intros Hr Hf Hcb Hreg Hq Hall Hroom Hcbc Hnot Hent.
  assert (Hrc : r <> c) by (intros ->; unfold quiet in Hq; now rewrite Hr in Hq).
  pose proof (close_teardown (S (S depth)) c st) as (_ & _ & _ & _ & Hclock).
  revert Hclock.
  rewrite close_unfold. set (s0 := set_queue _ _).
  assert (Hq0 : quiet s0 c) by exact Hq.
  destruct (task_close_quiet_effect (close (S depth)) c s0 Hq0)
    as (s1 & E1 & Hq1 & Hf1 & Hh1 & Hc1).
  rewrite (bind_ok _ _ _ _ _ E1).
  assert (Hr1 : heap s1 !! r = Some (ORace rr)) by (rewrite Hh1 by exact Hrc; exact Hr).
  assert (Hreg1 : finalizers s1 !! c = Some (FinRace r)) by (rewrite Hf1; exact Hreg).
  fold (finalize (S depth) c (VExc GeneratorExit)).
  rewrite (finalize_race_unfold _ _ _ _ _ _ Hr1 Hf Hreg1).
  set (s2 := set_obj r _ _).
  assert (Hr2 : heap s2 !! r
                = Some (ORace (mk_race (children rr) (scheduled rr) true (race_callback rr))))
    by apply lookup_insert_eq.
  assert (Hothers : forall c', c' ∈ scheduled rr -> c' <> c ->
                               quiet s2 c' /\ benign s2 c').
  { intros c' Hc' Hne. destruct (Hall c' Hc' Hne) as [Hqc Hbc].
    assert (Hrc' : c' <> r) by (intros ->; unfold quiet in Hqc; now rewrite Hr in Hqc).
    assert (Hheap : forall x, x <> c -> x <> r -> heap s2 !! x = heap st !! x).
    { intros x Hx1 Hx2. unfold s2. simpl. rewrite lookup_insert_ne by auto.
      now apply Hh1. }
    split.
    - unfold quiet. now rewrite Hheap.
    - unfold benign. unfold s2. simpl. rewrite lookup_delete_ne by auto. rewrite Hf1.
      change (finalizers s0) with (finalizers st).
      destruct Hbc as [Hbc|Hbc].
      + unfold benign in Hbc. destruct (finalizers st !! c') as [[r'|]|]; auto.
        destruct Hbc as (ro' & Hr' & Hfin').
        destruct (decide (r' = r)) as [->|Hne'].
        * eexists. split; [apply lookup_insert_eq|reflexivity].
        * exists ro'. split; [|exact Hfin'].
          rewrite lookup_insert_ne by auto. rewrite Hh1; [exact Hr'|].
          intros ->. unfold quiet in Hq. now rewrite Hr' in Hq.
      + rewrite Hbc. eexists. split; [apply lookup_insert_eq|reflexivity]. }
  destruct (exit_loop_quiet depth c (scheduled rr) s2 Hothers) as (s3 & E3 & Hlen3).
  destruct (exit_loop_quiet_entries depth (Some c) (scheduled rr) cb s2)
    as (s3' & E3' & Hent3).
  { intros c' Hc' Hne. apply Hothers; [exact Hc'|]. intros ->. now apply Hne. }
  { intros c' Hc' _. now apply Hnot. }
  rewrite E3 in E3'. injection E3' as <-.
  rewrite (bind_ok _ _ _ _ _ E3).
  pose proof (exit_loop_teardown (S depth) (Some c) (scheduled rr) s2) as T.
  rewrite E3 in T. cbn [snd] in T. destruct T as (H23 & _).
  destruct (heap_evolves_race _ _ _ _ H23 Hr2) as (ro3 & Hr3 & _ & _ & Hcb3 & _).
  simpl in Hcb3.
  rewrite (bind_ok _ _ _ _ _ (race_get_ok _ _ _ Hr3)), Hcb3, Hcb.
  assert (Hroom3 : (length (queue s3) < utimeq.capacity)%nat).
  { assert (Hl0 : (length (queue s0) <= length (queue st))%nat)
      by (unfold s0; simpl; apply length_filter).
    assert (Hl2 : queue s2 = queue s0) by (unfold s2; simpl; exact Hq1).
    rewrite Hl2 in Hlen3. lia. }
  rewrite schedule_plain_ok by exact Hroom3.
  cbn [snd clock set_queue]. intros Hclock.
  eexists. split; [reflexivity|]. split.
  - intros c' Hc' Hne.
    destruct (exit_loop_closes _ _ _ _ _ E3 c' Hc' Hne) as (Hcf & Hcp & Hcg).
    split; [exact Hcf|]. split; [exact Hcp|exact Hcg].
  - cbn [queue set_queue]. rewrite Hclock.
    apply entries_of_insert_first; [reflexivity|].
    rewrite Hent3.
    assert (Hq2 : queue s2 = queue s0) by (unfold s2; simpl; exact Hq1).
    rewrite Hq2. unfold s0. cbn [queue set_queue].
    rewrite entries_of_discard_other by exact Hcbc. exact Hent.
Qed.

(** [self.exit()] from the clean-up clause of an unfinished race, one of
    whose scheduled children still has [_finish] as its finalizer: the
    caller of the race is put on the queue. *)
Lemma exit_all_requeues depth r cb sched tasks : forall st rr,
  heap st !! r = Some (ORace rr) ->
  scheduled rr = sched ->
  race_callback rr = Some cb ->
  finished rr = false ->
  (forall c, c ∈ tasks -> c ∈ sched) ->
  (exists c, c ∈ tasks /\ finalizers st !! c = Some (FinRace r)) ->
  (forall c, c ∈ sched ->
             quiet st c /\ (benign st c \/ finalizers st !! c = Some (FinRace r))) ->
  (forall c, c ∈ sched -> c <> cb) ->
  (length (queue st) < utimeq.capacity)%nat ->
  entries_of cb (queue st) = [] ->
  exists st', exit_loop (S (S depth)) None tasks st = (Ok tt, st') /\
              entries_of cb (queue st') = [(clock st, cb, VExc GeneratorExit)].
Proof.
  induction tasks as [|c tasks IH];
    intros st rr Hr Hs Hcb Hfin Hsub Hsome Hall Hnot Hroom Hent.
  - destruct Hsome as (c & Hc & _). now apply elem_of_nil in Hc.
  - assert (Hc : c ∈ sched) by (apply Hsub; apply list_elem_of_here).
    destruct (Hall c Hc) as [Hq Hb].
    assert (Hrc : r <> c) by (intros ->; unfold quiet in Hq; now rewrite Hr in Hq).
    unfold exit_loop. cbn [for_each].
    destruct (decide (Some c = None)) as [E|_]; [discriminate|].
    assert (Hcase : finalizers st !! c = Some (FinRace r) \/
                    finalizers st !! c <> Some (FinRace r)).
    { destruct (finalizers st !! c) as [[r'|name]|]; [|now right|now right].
      destruct (decide (r' = r)) as [->|Hne]; [now left|right].
      intros [= E]. contradiction. }
    destruct Hcase as [Hreg|Hnreg].
    + (* the race finishes here *)
      subst sched.
      destruct (close_first_child_requeues depth st r rr cb c Hr Hfin Hcb Hreg Hq)
        as (s1 & E1 & Hcl & Hent1).
      { intros c' Hc' _. now apply Hall. }
      { exact Hroom. }
      { intros ->. now apply (Hnot c). }
      { exact Hnot. }
      { exact Hent. }
      rewrite (bind_ok _ _ _ _ _ E1).
      pose proof (close_teardown (S (S depth)) c st) as T. rewrite E1 in T. cbn [snd] in T.
      assert (Hclc : closed s1 c) by (eapply close_closes; exact E1).
      destruct (exit_loop_quiet_entries (S depth) None tasks cb s1) as (s2 & E2 & Hent2).
      { intros x Hx _.
        assert (Hxs : x ∈ scheduled rr) by (apply Hsub; now apply list_elem_of_further).
        assert (Hclx : closed s1 x).
        { destruct (decide (x = c)) as [->|Hne]; [exact Hclc|now apply Hcl]. }
        split; [|now apply benign_closed].
        eapply quiet_closed; [exact T| |exact Hclx]. now apply Hall. }
      { intros x Hx _. apply Hnot. apply Hsub. now apply list_elem_of_further. }
      exists s2. split; [exact E2|]. now rewrite Hent2.
    + (* the finalizer cannot fail *)
      assert (Hben : benign st c) by (destruct Hb as [Hb|Hb]; [exact Hb|contradiction]).
      destruct (close_quiet_effect (S depth) c st Hq Hben)
        as (s1 & E1 & Hlen1 & Hh & Ht & Hf).
      destruct (close_quiet_exact (S depth) c st Hq Hben)
        as (s1' & E1' & Hq1 & Hf1 & Hclock).
      rewrite E1 in E1'. injection E1' as <-.
      rewrite (bind_ok _ _ _ _ _ E1).
      rewrite <- Hclock.
      apply (IH s1 rr).
      * rewrite Hh by auto. exact Hr.
      * exact Hs.
      * exact Hcb.
      * exact Hfin.
      * intros x Hx. apply Hsub. now apply list_elem_of_further.
      * destruct Hsome as (c0 & Hc0 & Hreg0).
        apply elem_of_cons in Hc0 as [->|Hc0]; [contradiction|].
        exists c0. split; [exact Hc0|]. rewrite Hf1.
        rewrite lookup_delete_ne; [exact Hreg0|]. intros ->. contradiction.
      * intros x Hx. destruct (Hall x Hx) as [Hqx Hbx].
        split; [exact (quiet_after st s1 c x Hh Ht Hqx)|].
        destruct Hbx as [Hbx|Hbx].
        -- left. exact (benign_after st s1 c x Hq Hh Hf Hbx).
        -- destruct (finalizers s1 !! x) as [f|] eqn:Ex.
           ++ right. apply Hf in Ex. congruence.
           ++ left. unfold benign. now rewrite Ex.
      * exact Hnot.
      * lia.
      * rewrite Hq1. rewrite entries_of_discard_other; [exact Hent|].
        intros ->. now apply (Hnot c).
Qed.

(** C5: the round trip [schedule(t, ..., finalizer=f); close(t)] does not
    leave [t] absent from the timed queue when [t] is suspended in
    [await race(...)].  The race [r] has not finished and holds [t] as its
    caller, its scheduled children are quiet, at least one of them still
    has [r._finish] as its finalizer (the others that one or a finalizer
    that cannot fail), the queue has room, and [f] is an outside callable
    or [_finish] of a finished race.  [close] first discards [t] from the
    queue; [t.close()] then runs the clean-up clause of [race.__iter__],
    [exit] closes the children, and [_finish], called as the finalizer of
    the first of them, finds the race unfinished and schedules the caller:

    - [close] returns;
    - the queue holds exactly one entry for [t], due now, that carries
      [GeneratorExit], although [t] has finished;
    - [t] is in no paused set;
    - [f] has been called exactly once more, with [t] and [GeneratorExit]. *)
Theorem close_requeues_caller_of_race (depth : nat) (st : state) (t r : ref)
        (ro : race_obj) (k : pyval -> coro) (value : pyval)
        (deadline : option Z) (f : finalizer) :
  heap st !! t = Some (OGen (at_first_yield (yield_from (race.__iter__ r) k Raise))) ->
  heap st !! r = Some (ORace ro) ->
  finished ro = false ->
  race_callback ro = Some t ->
  (exists c, c ∈ scheduled ro /\ finalizers st !! c = Some (FinRace r)) ->
  (forall c, c ∈ scheduled ro ->
             quiet st c /\ (benign st c \/ finalizers st !! c = Some (FinRace r))) ->
  (length (queue st) < utimeq.capacity)%nat ->
  (forall r', f = FinRace r' ->
              exists ro', heap st !! r' = Some (ORace ro') /\ finished ro' = true) ->
  let res := (schedule t value deadline (Some f) ;; close (S (S (S depth))) t) st in
  res.1 = Ok tt /\
  entries_of t (queue res.2) = [(clock st, t, VExc GeneratorExit)] /\
  heap res.2 !! t = Some (OGen GFinished) /\
  (forall iface tasks, paused res.2 !! iface = Some tasks -> t ∉ tasks) /\
  calls_to t (fin_calls res.2)
  = calls_to t (fin_calls st) ++ [(f, t, VExc GeneratorExit)].
Proof.
  intros Ht Hr Hunf Hcb Hsome Hall Hroom Hf res.
  assert (Hrt : r <> t) by (intros ->; rewrite Ht in Hr; discriminate).
  assert (Hnot : forall c, c ∈ scheduled ro -> c <> t).
  { intros c Hc ->. destruct (Hall t Hc) as [Hq _]. unfold quiet in Hq.
    rewrite Ht in Hq. exact Hq. }
  (* schedule *)
  assert (Esch : exists d,
             schedule t value deadline (Some f) st
             = (Ok tt, set_queue (utimeq.insert (d, t, value) (queue st))
                         (set_finalizers (<[t := f]> (finalizers st)) st))).
  { unfold schedule, utime.ticks_us, bind, ret, modify, utimeq.push.
    destruct deadline as [d|]; cbn -[Nat.leb];
      (destruct (Nat.leb_spec utimeq.capacity (length (queue st))); [lia|]);
      eexists; reflexivity. }
  destruct Esch as (d & Esch).
  set (st1 := set_queue _ _) in Esch.
  assert (Eres : res = close (S (S (S depth))) t st1).
  { unfold res. now rewrite (bind_ok _ _ _ _ _ Esch). }
  clearbody res. subst res.
  assert (Hreg1 : finalizers st1 !! t = Some f) by apply lookup_insert_eq.
  (* close *)
  assert (Hclose : exists st',
             close (S (S (S depth))) t st1 = (Ok tt, st') /\
             entries_of t (queue st') = [(clock st, t, VExc GeneratorExit)]).
  { rewrite close_unfold. set (s0 := set_queue _ _).
    assert (Ht0 : heap s0 !! t
                  = Some (OGen (at_first_yield (yield_from (race.__iter__ r) k Raise))))
      by exact Ht.
    set (s1 := set_obj t (OGen GRunning) s0).
    assert (Hheap : forall x, x <> t -> heap s1 !! x = heap st !! x).
    { intros x Hx. unfold s1, s0, st1. simpl. now rewrite lookup_insert_ne by auto. }
    assert (Hfins : forall x, x <> t -> finalizers s1 !! x = finalizers st !! x).
    { intros x Hx. unfold s1, s0, st1. simpl. now rewrite lookup_insert_ne by auto. }
    assert (Hr1 : heap s1 !! r = Some (ORace ro)) by (rewrite Hheap by auto; exact Hr).
    assert (Hq0 : queue s1 = filter (fun e => e.1.2 <> t) (queue st)).
    { unfold s1, s0, st1. simpl. apply discard_inserted. }
    destruct (exit_all_requeues depth r t (scheduled ro) (scheduled ro) s1 ro
                Hr1 eq_refl Hcb Hunf) as (s2 & E2 & Hent2).
    { auto. }
    { destruct Hsome as (c & Hc & Hregc). exists c. split; [exact Hc|].
      rewrite Hfins by (now apply Hnot). exact Hregc. }
    { intros c Hc. destruct (Hall c Hc) as [Hq Hb]. specialize (Hnot c Hc).
      split; [unfold quiet; now rewrite Hheap|].
      rewrite Hfins by exact Hnot.
      destruct Hb as [Hb|Hb]; [left|now right].
      unfold benign in *. rewrite Hfins by exact Hnot.
      destruct (finalizers st !! c) as [[r'|]|]; auto.
      destruct Hb as (ro' & Hr' & Hf'). exists ro'. split; [|exact Hf'].
      rewrite Hheap; [exact Hr'|]. intros ->. rewrite Ht in Hr'. discriminate. }
    { exact Hnot. }
    { rewrite Hq0.
      pose proof (length_filter (fun e : Z * ref * pyval => e.1.2 <> t) (queue st)). lia. }
    { rewrite Hq0. apply entries_of_discard. }
    assert (E1 : body.task_close (close (S (S depth))) t s0
                 = (Ok tt, set_obj t (OGen GFinished) s2)).
    { unfold body.task_close, get_obj, bind. rewrite Ht0.
      unfold generator.close, generator.get, get_obj, bind. rewrite Ht0.
      cbn [ret at_first_yield yield_from race.__iter__ generator.run_coro
           generator.perform].
      fold s1. unfold race.exit. rewrite (bind_ok _ _ _ _ _ (race_get_ok _ _ _ Hr1)).
      fold (exit_loop (S (S depth)) None (scheduled ro)). rewrite E2.
      cbn [generator.run_coro yield_from].
      destruct (decide (GeneratorExit = GeneratorExit)); [reflexivity|contradiction]. }
    rewrite (bind_ok _ _ _ _ _ E1).
    pose proof (exit_loop_teardown (S (S depth)) None (scheduled ro) s1) as T.
    rewrite E2 in T. cbn [snd] in T.
    destruct T as (Hev & _ & _ & (Hshrink & _) & _).
    set (s3 := set_obj t (OGen GFinished) s2).
    assert (Hb3 : benign s3 t).
    { unfold benign. change (finalizers s3) with (finalizers s2).
      destruct (finalizers s2 !! t) as [f'|] eqn:E; [|exact I].
      apply Hshrink in E. change (finalizers s1) with (finalizers st1) in E.
      rewrite Hreg1 in E. injection E as <-.
      destruct f as [r'|name]; [|exact I].
      destruct (Hf r' eq_refl) as (ro' & Hr' & Hfin').
      assert (Hr't : r' <> t) by (intros ->; rewrite Ht in Hr'; discriminate).
      assert (Hr'1 : heap s1 !! r' = Some (ORace ro')) by (rewrite Hheap by auto; exact Hr').
      destruct (heap_evolves_race _ _ _ _ Hev Hr'1) as (ro2 & Hr2 & _ & _ & _ & Hfin2).
      exists ro2. split; [|now apply Hfin2].
      unfold s3. simpl. now rewrite lookup_insert_ne by auto. }
    rewrite (finalize_benign_exact _ t (VExc GeneratorExit) s3 Hb3).
    eexists. split; [reflexivity|].
    assert (Hc1 : clock s1 = clock st) by reflexivity.
    rewrite Hc1 in Hent2.
    destruct (finalizers s3 !! t); exact Hent2. }
  destruct Hclose as (st' & Eclose & Hent).
  destruct (close_post (S (S depth)) t st1) as (Hp & _ & Hpost).
  rewrite Eclose in Hp, Hpost |- *. cbn [fst snd] in *.
  destruct (Hpost eq_refl) as (_ & Hgen).
  split; [reflexivity|]. split; [exact Hent|]. split; [|split; [exact Hp|]].
  - exact (Hgen _ Ht).
  - destruct (close_calls_finalizer _ st1 t f st' Hreg1 Eclose) as (_ & Hcalls).
    exact Hcalls.
Qed.

Lemma close_requeues_caller_of_race_witness :
  let st := scenario.awaiting_race in
  let ro := mk_race [2%nat] [2%nat] false (Some 1%nat) in
  heap st !! 1%nat
  = Some (OGen (at_first_yield (yield_from (race.__iter__ 0%nat) Return Raise))) /\
  heap st !! 0%nat = Some (ORace ro) /\
  finished ro = false /\
  race_callback ro = Some 1%nat /\
  (exists c, c ∈ scheduled ro /\ finalizers st !! c = Some (FinRace 0%nat)) /\
  (forall c, c ∈ scheduled ro ->
             quiet st c /\ (benign st c \/ finalizers st !! c = Some (FinRace 0%nat))) /\
  (length (queue st) < utimeq.capacity)%nat /\
  (forall r', FinExt "on_exit" = FinRace r' ->
              exists ro', heap st !! r' = Some (ORace ro') /\ finished ro' = true) /\
  let res := (schedule 1%nat VNone None (Some (FinExt "on_exit")) ;; close 3 1%nat) st in
  res.1 = Ok tt /\
  entries_of 1%nat (queue res.2) = [(clock st, 1%nat, VExc GeneratorExit)] /\
  heap res.2 !! 1%nat = Some (OGen GFinished) /\
  (forall iface tasks, paused res.2 !! iface = Some tasks -> 1%nat ∉ tasks) /\
  calls_to 1%nat (fin_calls res.2)
  = calls_to 1%nat (fin_calls st) ++ [(FinExt "on_exit", 1%nat, VExc GeneratorExit)].
Proof.
  intros st ro.
  assert (Ht : heap st !! 1%nat
               = Some (OGen (at_first_yield
                               (yield_from (race.__iter__ 0%nat) Return Raise))))
    by (vm_compute; reflexivity).
  assert (Hr : heap st !! 0%nat = Some (ORace ro)) by (vm_compute; reflexivity).
  assert (Hsome : exists c, c ∈ scheduled ro /\ finalizers st !! c = Some (FinRace 0%nat)).
  { exists 2%nat. split; [apply list_elem_of_here|vm_compute; reflexivity]. }
  assert (Hall : forall c, c ∈ scheduled ro ->
             quiet st c /\ (benign st c \/ finalizers st !! c = Some (FinRace 0%nat))).
  { intros c Hc. simpl in Hc. apply list_elem_of_singleton in Hc as ->.
    split; [vm_compute; exact I|right; vm_compute; reflexivity]. }
  assert (Hroom : (length (queue st) < utimeq.capacity)%nat) by (vm_compute; lia).
  assert (Hf : forall r', FinExt "on_exit" = FinRace r' ->
              exists ro', heap st !! r' = Some (ORace ro') /\ finished ro' = true)
    by (intros r'; discriminate).
  split; [exact Ht|]. split; [exact Hr|]. split; [reflexivity|]. split; [reflexivity|].
  split; [exact Hsome|]. split; [exact Hall|]. split; [exact Hroom|]. split; [exact Hf|].
  exact (close_requeues_caller_of_race 0 st 1%nat 0%nat ro Return VNone None
           (FinExt "on_exit") Ht Hr eq_refl eq_refl Hsome Hall Hroom Hf).
Defined.
